(** * Boundary contraction of 2D tensor networks (quimb, [tensor_2d.py])

    A shallow embedding of the lattice addressing functions, the row and
    column sweeps, the four directional boundary absorptions, the boundary
    sweep scheduler [contract_boundary] and the [PEPS] constructor, followed
    by the properties established about them.

    Python integers are [Z]; strings are [string]; a [dict] is a [gmap];
    exceptions are an explicit [result]; code that mutates the network runs
    in a state-and-exception monad over the network. *)

From Stdlib Require Import ZArith Lia String Ascii List DecimalString DecimalZ.
From stdpp Require Import base gmap list strings.

Open Scope Z_scope.

(** ** Python builtins used by the module *)
Module Py.

(** The exceptions that the modelled code can raise or catch. *)
Inductive exn :=
| ValueError | TypeError | IndexError | KeyError | ZeroDivisionError.

Inductive result (A : Type) :=
| Ok (a : A)
| Raise (e : exn).
Arguments Ok {A} a.
Arguments Raise {A} e.

Definition rbind {A B} (r : result A) (k : A -> result B) : result B :=
  match r with
  | Ok a => k a
  | Raise e => Raise e
  end.

(** Dynamically typed values that reach the addressing functions: an
    integer, a string or [None], and tuples of those. *)
Inductive scalar :=
| SInt (z : Z)
| SStr (s : string)
| SNone.

Inductive value :=
| VScalar (a : scalar)
| VTuple (l : list scalar).

(** [a % b] on integers: floor modulo, [ZeroDivisionError] on [b = 0]. *)
Definition mod_ (a b : Z) : result Z :=
  if decide (b = 0) then Raise ZeroDivisionError else Ok (a `mod` b).

(** [x % b] for a value [x] that is not a [str]. *)
Definition smod (x : scalar) (b : Z) : result scalar :=
  match x with
  | SInt z => rbind (mod_ z b) (fun r => Ok (SInt r))
  | _ => Raise TypeError
  end.

(** [str(z)] for an integer. *)
Definition str_int (z : Z) : string := NilZero.string_of_int (Z.to_int z).

(** The text [str.format] substitutes for a value. *)
Definition str (x : scalar) : string :=
  match x with
  | SInt z => str_int z
  | SStr s => s
  | SNone => "None"
  end.

(** [tpl.format( *args )] for templates made of literal text and
    automatically numbered [{}] fields, which is the form of the tag and
    index specifiers; a field without an argument is an [IndexError]. *)
Fixpoint format (tpl : string) (args : list scalar) : result string :=
  match tpl with
  | EmptyString => Ok EmptyString
  | String c rest =>
      match rest with
      | String c' rest' =>
          if (bool_decide (c = "{"%char) && bool_decide (c' = "}"%char))%bool
          then match args with
               | a :: args' =>
                   rbind (format rest' args') (fun s => Ok (str a ++ s)%string)
               | [] => Raise IndexError
               end
          else rbind (format rest args) (fun s => Ok (String c s))
      | EmptyString => Ok (String c EmptyString)
      end
  end.

(** [range(start, stop, +1)] and [range(start, stop, -1)]. *)
Definition range (start stop : Z) : list Z :=
  map (fun k => start + Z.of_nat k) (seq 0 (Z.to_nat (stop - start))).

Definition range_down (start stop : Z) : list Z :=
  map (fun k => start - Z.of_nat k) (seq 0 (Z.to_nat (start - stop))).

(** [d[k]] on a dictionary of strings. *)
Definition getitem (d : gmap string string) (k : string) : result string :=
  match d !! k with
  | Some v => Ok v
  | None => Raise KeyError
  end.

(** [min(xs)] and [max(xs)] over a sequence; empty is a [ValueError]. *)
Definition min_of (xs : list Z) : result Z :=
  match xs with
  | [] => Raise ValueError
  | x :: xs' => Ok (foldl Z.min x xs')
  end.

Definition max_of (xs : list Z) : result Z :=
  match xs with
  | [] => Raise ValueError
  | x :: xs' => Ok (foldl Z.max x xs')
  end.

(** [min] and [max] of a two-element tuple. *)
Definition min2 (r : Z * Z) : Z := Z.min (fst r) (snd r).
Definition max2 (r : Z * Z) : Z := Z.max (fst r) (snd r).

(** [check_opt(name, value, valid)] of [quimb.utils]: a value outside
    [valid] is a [ValueError]. *)
Definition check_opt (name value : string) (valid : list string)
  : result unit :=
  if bool_decide (value ∈ valid) then Ok tt else Raise ValueError.

End Py.
Import Py.

Notation "'let*' x ':=' e 'in' k" := (rbind e (fun x => k))
  (at level 10, x name, e at level 100, k at level 200, only parsing).

(** ** Lattice addressing ([TensorNetwork2D], lines 59-156) *)
Module Lattice.

(** The lattice metadata of a [TensorNetwork2D]: the extents and the
    three tag specifiers (the [_EXTRA_PROPS]). *)
Record lattice := {
  Lx : Z;
  Ly : Z;
  site_tag_id : string;
  row_tag_id : string;
  col_tag_id : string;
}.

(** [if not isinstance(i, str): i = i % n]. *)
Definition wrap (i : scalar) (n : Z) : result scalar :=
  match i with
  | SStr _ => Ok i
  | _ => smod i n
  end.

Definition site_tag (L : lattice) (i j : scalar) : result string :=
  let* i := wrap i (Lx L) in
  let* j := wrap j (Ly L) in
  format (site_tag_id L) [i; j].

Definition row_tag (L : lattice) (i : scalar) : result string :=
  let* i := wrap i (Lx L) in
  format (row_tag_id L) [i].

Definition col_tag (L : lattice) (j : scalar) : result string :=
  let* j := wrap j (Ly L) in
  format (col_tag_id L) [j].

(** [tuple(map(f, xs))], stopping at the first exception. *)
Fixpoint rmap {A B} (f : A -> result B) (xs : list A) : result (list B) :=
  match xs with
  | [] => Ok []
  | x :: xs' =>
      let* y := f x in
      let* ys := rmap f xs' in
      Ok (y :: ys)
  end.

Definition row_tags (L : lattice) : result (list string) :=
  rmap (fun i => row_tag L (SInt i)) (range 0 (Lx L)).

Definition col_tags (L : lattice) : result (list string) :=
  rmap (fun j => col_tag L (SInt j)) (range 0 (Ly L)).

(** [gen_site_coos]: row-major coordinates of all the sites. *)
Definition gen_site_coos (L : lattice) : list (Z * Z) :=
  i ← range 0 (Lx L); j ← range 0 (Ly L); [(i, j)].

Definition site_tags (L : lattice) : result (list string) :=
  rmap (fun ij => site_tag L (SInt (fst ij)) (SInt (snd ij)))
       (gen_site_coos L).

Section Lookup.
(** Python's [int] on a [str]; [None] is its [ValueError]. *)
Variable int_of_str : string -> option Z.

Definition int (x : scalar) : result Z :=
  match x with
  | SInt z => Ok z
  | SStr s =>
      match int_of_str s with
      | Some z => Ok z
      | None => Raise ValueError
      end
  | SNone => Raise TypeError
  end.

(** [i, j = map(int, x)] for [x] that is not a [str]: [map] is lazy, and
    the unpacking asks for a third element after the first two. *)
Definition unpack_coo (x : value) : result (Z * Z) :=
  match x with
  | VScalar _ => Raise TypeError
  | VTuple [] | VTuple [_] => Raise ValueError
  | VTuple (a :: b :: rest) =>
      let* i := int a in
      let* j := int b in
      match rest with
      | [] => Ok (i, j)
      | c :: _ => let* _ := int c in Raise ValueError
      end
  end.

(** The body of a [try] with [except (ValueError, TypeError): pass]
    followed by the code [otherwise]. *)
Definition try_except_pass {A} (body : result A) (otherwise : result A)
  : result A :=
  match body with
  | Ok a => Ok a
  | Raise ValueError | Raise TypeError => otherwise
  | Raise e => Raise e
  end.

Definition maybe_convert_coo (L : lattice) (x : value) : result value :=
  match x with
  | VScalar (SStr _) => Ok x
  | _ =>
      try_except_pass
        (let* ij := unpack_coo x in
         let* t := site_tag L (SInt (fst ij)) (SInt (snd ij)) in
         Ok (VScalar (SStr t)))
        (Ok x)
  end.

(** The two overridden lookups; [super_] is the generic engine's. *)
Definition _get_tids_from_tags {R}
    (super_ : value -> string -> result R)
    (L : lattice) (tags : value) (which : string) : result R :=
  let* tags := maybe_convert_coo L tags in
  super_ tags which.

Definition __getitem__ {R}
    (super_ : value -> result R) (L : lattice) (key : value) : result R :=
  let* key := maybe_convert_coo L key in
  super_ key.
End Lookup.

End Lattice.
Import Lattice.

(** ** The network as the sweeps see it *)
Module Net.

(** Keyword arguments ([**canonize_opts], [**compress_opts]): the
    keywords of a call that the signature of the function called does not
    name, so that such a dictionary never holds the name of a parameter
    of the function it belongs to. *)
Abbreviation kwargs := (gmap string scalar).

(** [k in d]. *)
Definition has_key (k : string) (d : kwargs) : bool :=
  bool_decide (is_Some (d !! k)).

(** A call [f(..., k=v, **opts)]: a keyword of [opts] that the call also
    gives by name or by position is a [TypeError] ("got multiple values
    for argument"), raised before [f] runs.  [named] are the parameters
    that the call gives itself and that [opts] can hold. *)
Definition check_keywords (named : list string) (opts : kwargs)
  : result unit :=
  if existsb (fun k => has_key k opts) named then Raise TypeError else Ok tt.

(** [d.setdefault(k, v)], keeping the dictionary. *)
Definition setdefault (k : string) (v : scalar) (d : kwargs) : kwargs :=
  match d !! k with
  | Some _ => d
  | None => <[k := v]> d
  end.

(** The methods of the generic [TensorNetwork] that the 2D code calls on
    the network, with the arguments as the 2D code passes them. *)
Inductive call :=
| Canonize_between (coo1 coo2 : Z * Z) (canonize_opts : kwargs)
| Compress_between (coo1 coo2 : Z * Z) (compress_opts : kwargs)
| Contract_any (tag1 tag2 : string)
    (* contract_((tag1, tag2), which='any') *)
| Contract_between (tag1 tag2 : string) (layer_tag : scalar)
    (* contract_between(tag1, (tag2, layer_tag)) *)
| Ixor (coo : Z * Z)
    (* self ^= (i, j) *)
| Drop_tags (coo : Z * Z) (tag : string)
    (* self[i, j].drop_tags(tag) *).

(** The four sides a boundary is contracted from. *)
Inductive side := From_bottom | From_left | From_top | From_right.

(** What happens to a network, in order: calls into the generic engine
    and entries into the directional boundary contractions. *)
Inductive event :=
| Call (c : call)
| Boundary_from (d : side) (xrange yrange : Z * Z).

(** The generic engine: the tensors and what its methods do to them.
    Its methods are state transformers here; what they raise on
    structurally broken input stays outside. *)
Class Engine (TN V : Type) := {
  apply : call -> TN -> TN;
  tag_map_len : string -> TN -> nat;      (* len(tn.tag_map[tag]) *)
  contract_all : TN -> V;                 (* tn.contract(all, ...) *)
  copy : TN -> TN;                        (* tn.copy() *)
}.

(** A network object: the engine's tensors together with the record of
    what has been done to them. *)
Record netstate (TN : Type) := {
  net : TN;
  trace : list event;
}.
Arguments net {TN} _.
Arguments trace {TN} _.

(** Code acting on a network: it may raise, and the network keeps
    whatever was done to it until then. *)
Definition M (TN A : Type) : Type := netstate TN -> result A * netstate TN.

Definition ret {TN A} (a : A) : M TN A := fun st => (Ok a, st).

Definition bind {TN A B} (m : M TN A) (k : A -> M TN B) : M TN B :=
  fun st =>
    match m st with
    | (Ok a, st') => k a st'
    | (Raise e, st') => (Raise e, st')
    end.

Definition lift {TN A} (r : result A) : M TN A := fun st => (r, st).

(** [for x in xs: body(x)]. *)
Fixpoint for_ {TN A} (xs : list A) (body : A -> M TN unit) : M TN unit :=
  match xs with
  | [] => ret tt
  | x :: xs' => bind (body x) (fun _ => for_ xs' body)
  end.

End Net.
Import Net.

Notation "'let+' x ':=' e 'in' k" := (bind e (fun x => k))
  (at level 10, x name, e at level 100, k at level 200, only parsing).
Notation "e ';;' k" := (bind e (fun _ => k))
  (at level 100, k at level 200, right associativity, only parsing).

(** ** Row and column sweeps ([canonize_row] ... [compress_column]) *)
Module Sweep.
Section Sweep.
Context {TN V : Type} `{!Engine TN V}.
Variable L : lattice.

(** A call into the generic engine, recorded in the trace. *)
Definition engine (c : call) : M TN unit :=
  fun st => (Ok tt, {| net := apply c (net st);
                       trace := trace st ++ [Call c] |}).

Definition canonize_row (i : Z) (sweep : string)
    (yrange : option (Z * Z)) (canonize_opts : kwargs) : M TN unit :=
  lift (check_opt "sweep" sweep ["right"; "left"]) ;;
  let yrange := default (0, Ly L - 1) yrange in
  if bool_decide (sweep = "right") then
    for_ (range (min2 yrange) (max2 yrange)) (fun j =>
      engine (Canonize_between (i, j) (i, j + 1) canonize_opts))
  else
    for_ (range_down (max2 yrange) (min2 yrange)) (fun j =>
      engine (Canonize_between (i, j) (i, j - 1) canonize_opts)).

Definition canonize_column (j : Z) (sweep : string)
    (xrange : option (Z * Z)) (canonize_opts : kwargs) : M TN unit :=
  lift (check_opt "sweep" sweep ["up"; "down"]) ;;
  let xrange := default (0, Lx L - 1) xrange in
  if bool_decide (sweep = "up") then
    for_ (range (min2 xrange) (max2 xrange)) (fun i =>
      engine (Canonize_between (i, j) (i + 1, j) canonize_opts))
  else
    for_ (range_down (max2 xrange) (min2 xrange)) (fun i =>
      engine (Canonize_between (i, j) (i - 1, j) canonize_opts)).

Definition compress_row (i : Z) (sweep : string)
    (yrange : option (Z * Z)) (compress_opts : kwargs) : M TN unit :=
  lift (check_opt "sweep" sweep ["right"; "left"]) ;;
  let compress_opts := setdefault "absorb" (SStr "right") compress_opts in
  let yrange := default (0, Ly L - 1) yrange in
  if bool_decide (sweep = "right") then
    for_ (range (min2 yrange) (max2 yrange)) (fun j =>
      engine (Compress_between (i, j) (i, j + 1) compress_opts))
  else
    for_ (range_down (max2 yrange) (min2 yrange)) (fun j =>
      engine (Compress_between (i, j) (i, j - 1) compress_opts)).

Definition compress_column (j : Z) (sweep : string)
    (xrange : option (Z * Z)) (compress_opts : kwargs) : M TN unit :=
  lift (check_opt "sweep" sweep ["up"; "down"]) ;;
  let xrange := default (0, Lx L - 1) xrange in
  if bool_decide (sweep = "up") then
    let compress_opts := setdefault "absorb" (SStr "right") compress_opts in
    for_ (range (min2 xrange) (max2 xrange)) (fun i =>
      engine (Compress_between (i, j) (i + 1, j) compress_opts))
  else
    let compress_opts := setdefault "absorb" (SStr "left") compress_opts in
    for_ (range_down (max2 xrange) (min2 xrange)) (fun i =>
      engine (Compress_between (i - 1, j) (i, j) compress_opts)).

End Sweep.
End Sweep.
Import Sweep.

(** ** Directional boundary absorption ([contract_boundary_from_*]) *)
Module Boundary.
Section Boundary.
Context {TN V : Type} `{!Engine TN V}.
Variable L : lattice.

(** Entering a directional boundary contraction, recorded in the trace. *)
Definition enter (d : side) (xrange yrange : Z * Z) : M TN unit :=
  fun st => (Ok tt, {| net := net st;
                       trace := trace st ++ [Boundary_from d xrange yrange] |}).

(** [len(self.tag_map[tag])]. *)
Definition tag_count (tag : string) : M TN nat :=
  fun st => (Ok (tag_map_len tag (net st)), st).

(** [tn = self if inplace else self.copy()], then [body] on [tn], then
    [return tn].  The state is [self]; the result is the object [tn]. *)
Definition on_self_or_copy (inplace : bool) (body : M TN unit)
  : M TN (netstate TN) :=
  fun self =>
    let tn := if inplace then self
              else {| net := copy (net self); trace := trace self |} in
    match body tn with
    | (Ok _, tn') => (Ok tn', if inplace then tn' else self)
    | (Raise e, tn') => (Raise e, if inplace then tn' else self)
    end.

Definition opposite_row_sweep : gmap string string :=
  {[ "left" := "right"; "right" := "left" ]}%string.

Definition opposite_column_sweep : gmap string string :=
  {[ "up" := "down"; "down" := "up" ]}%string.

(** The contraction of one outer site into its inward neighbour:
    [if layer_tag is None: ... else: ...]. *)
Definition absorb_site (tag1 tag2 : string) (layer_tag : scalar)
  : M TN unit :=
  match layer_tag with
  | SNone => engine (Contract_any tag1 tag2)
  | _ => engine (Contract_between tag1 tag2 layer_tag)
  end.

(** The call of a single-layer absorption by [contract_boundary_from_*]
    gives no [layer_tag]: a keyword of that name among the options is
    taken by the parameter [layer_tag] and is not among the options of
    the absorption. *)
Definition layer_tag_of (compress_opts : kwargs) : scalar :=
  default SNone (compress_opts !! "layer_tag").

Definition without_layer_tag (compress_opts : kwargs) : kwargs :=
  delete "layer_tag" compress_opts.

(** *** From the bottom *)

Definition _contract_boundary_from_bottom_single
    (xrange yrange : Z * Z) (canonize : bool) (compress_sweep : string)
    (layer_tag : scalar) (compress_opts : kwargs) : M TN unit :=
  let+ canonize_sweep := lift (getitem opposite_row_sweep compress_sweep) in
  for_ (range (min2 xrange) (max2 xrange)) (fun i =>
    for_ (range (min2 yrange) (max2 yrange + 1)) (fun j =>
      let+ tag1 := lift (site_tag L (SInt i) (SInt j)) in
      let+ tag2 := lift (site_tag L (SInt (i + 1)) (SInt j)) in
      absorb_site tag1 tag2 layer_tag) ;;
    (if canonize
     then canonize_row L i canonize_sweep (Some yrange) ∅
     else ret tt) ;;
    lift (check_keywords ["i"; "sweep"] compress_opts) ;;
    compress_row L i compress_sweep (Some yrange) compress_opts).

Definition _contract_boundary_from_bottom_multi
    (xrange yrange : Z * Z) (layer_tags : list string) (canonize : bool)
    (compress_sweep : string) (compress_opts : kwargs) : M TN unit :=
  for_ (range (min2 xrange) (max2 xrange)) (fun i =>
    for_ (range (min2 yrange) (max2 yrange + 1)) (fun j =>
      engine (Ixor (i, j))) ;;
    for_ layer_tags (fun tag =>
      lift (check_keywords ["layer_tag"] compress_opts) ;;
      _contract_boundary_from_bottom_single
        (i, i + 1) yrange canonize compress_sweep (SStr tag)
        compress_opts ;;
      for_ (range (min2 yrange) (max2 yrange + 1)) (fun j =>
        let+ inner_tag := lift (site_tag L (SInt (i + 1)) (SInt j)) in
        let+ n := tag_count inner_tag in
        if (1 <? n)%nat
        then engine (Drop_tags (i, j) inner_tag)
        else ret tt))).

Definition contract_boundary_from_bottom
    (xrange : Z * Z) (yrange : option (Z * Z)) (canonize : bool)
    (compress_sweep : string) (layer_tags : option (list string))
    (inplace : bool) (compress_opts : kwargs) : M TN (netstate TN) :=
  on_self_or_copy inplace (
    let yrange := default (0, Ly L - 1) yrange in
    enter From_bottom xrange yrange ;;
    match layer_tags with
    | None =>
        _contract_boundary_from_bottom_single
          xrange yrange canonize compress_sweep (layer_tag_of compress_opts)
          (without_layer_tag compress_opts)
    | Some layer_tags =>
        _contract_boundary_from_bottom_multi
          xrange yrange layer_tags canonize compress_sweep compress_opts
    end).

(** [functools.partialmethod(contract_boundary_from_bottom, inplace=True)] *)
Definition contract_boundary_from_bottom_
    (xrange : Z * Z) (yrange : option (Z * Z)) (canonize : bool)
    (compress_sweep : string) (layer_tags : option (list string))
    (compress_opts : kwargs) : M TN (netstate TN) :=
  contract_boundary_from_bottom
    xrange yrange canonize compress_sweep layer_tags true compress_opts.

(** *** From the top *)

Definition _contract_boundary_from_top_single
    (xrange yrange : Z * Z) (canonize : bool) (compress_sweep : string)
    (layer_tag : scalar) (compress_opts : kwargs) : M TN unit :=
  let+ canonize_sweep := lift (getitem opposite_row_sweep compress_sweep) in
  for_ (range_down (max2 xrange) (min2 xrange)) (fun i =>
    for_ (range (min2 yrange) (max2 yrange + 1)) (fun j =>
      let+ tag1 := lift (site_tag L (SInt i) (SInt j)) in
      let+ tag2 := lift (site_tag L (SInt (i - 1)) (SInt j)) in
      absorb_site tag1 tag2 layer_tag) ;;
    (if canonize
     then canonize_row L i canonize_sweep (Some yrange) ∅
     else ret tt) ;;
    lift (check_keywords ["i"; "sweep"] compress_opts) ;;
    compress_row L i compress_sweep (Some yrange) compress_opts).

Definition _contract_boundary_from_top_multi
    (xrange yrange : Z * Z) (layer_tags : list string) (canonize : bool)
    (compress_sweep : string) (compress_opts : kwargs) : M TN unit :=
  for_ (range_down (max2 xrange) (min2 xrange)) (fun i =>
    for_ (range (min2 yrange) (max2 yrange + 1)) (fun j =>
      engine (Ixor (i, j))) ;;
    for_ layer_tags (fun tag =>
      lift (check_keywords ["layer_tag"] compress_opts) ;;
      _contract_boundary_from_top_single
        (i, i - 1) yrange canonize compress_sweep (SStr tag)
        compress_opts ;;
      for_ (range (min2 yrange) (max2 yrange + 1)) (fun j =>
        let+ inner_tag := lift (site_tag L (SInt (i - 1)) (SInt j)) in
        let+ n := tag_count inner_tag in
        if (1 <? n)%nat
        then engine (Drop_tags (i, j) inner_tag)
        else ret tt))).

Definition contract_boundary_from_top
    (xrange : Z * Z) (yrange : option (Z * Z)) (canonize : bool)
    (compress_sweep : string) (layer_tags : option (list string))
    (inplace : bool) (compress_opts : kwargs) : M TN (netstate TN) :=
  on_self_or_copy inplace (
    let yrange := default (0, Ly L - 1) yrange in
    enter From_top xrange yrange ;;
    match layer_tags with
    | None =>
        _contract_boundary_from_top_single
          xrange yrange canonize compress_sweep (layer_tag_of compress_opts)
          (without_layer_tag compress_opts)
    | Some layer_tags =>
        _contract_boundary_from_top_multi
          xrange yrange layer_tags canonize compress_sweep compress_opts
    end).

Definition contract_boundary_from_top_
    (xrange : Z * Z) (yrange : option (Z * Z)) (canonize : bool)
    (compress_sweep : string) (layer_tags : option (list string))
    (compress_opts : kwargs) : M TN (netstate TN) :=
  contract_boundary_from_top
    xrange yrange canonize compress_sweep layer_tags true compress_opts.

(** *** From the left *)

Definition _contract_boundary_from_left_single
    (yrange xrange : Z * Z) (canonize : bool) (compress_sweep : string)
    (layer_tag : scalar) (compress_opts : kwargs) : M TN unit :=
  let+ canonize_sweep :=
    lift (getitem opposite_column_sweep compress_sweep) in
  for_ (range (min2 yrange) (max2 yrange)) (fun j =>
    for_ (range (min2 xrange) (max2 xrange + 1)) (fun i =>
      let+ tag1 := lift (site_tag L (SInt i) (SInt j)) in
      let+ tag2 := lift (site_tag L (SInt i) (SInt (j + 1))) in
      absorb_site tag1 tag2 layer_tag) ;;
    (if canonize
     then canonize_column L j canonize_sweep (Some xrange) ∅
     else ret tt) ;;
    lift (check_keywords ["j"; "sweep"] compress_opts) ;;
    compress_column L j compress_sweep (Some xrange) compress_opts).

Definition _contract_boundary_from_left_multi
    (yrange xrange : Z * Z) (layer_tags : list string) (canonize : bool)
    (compress_sweep : string) (compress_opts : kwargs) : M TN unit :=
  for_ (range (min2 yrange) (max2 yrange)) (fun j =>
    for_ (range (min2 xrange) (max2 xrange + 1)) (fun i =>
      engine (Ixor (i, j))) ;;
    for_ layer_tags (fun tag =>
      lift (check_keywords ["layer_tag"] compress_opts) ;;
      _contract_boundary_from_left_single
        (j, j + 1) xrange canonize compress_sweep (SStr tag)
        compress_opts ;;
      for_ (range (min2 xrange) (max2 xrange + 1)) (fun i =>
        let+ inner_tag := lift (site_tag L (SInt i) (SInt (j + 1))) in
        let+ n := tag_count inner_tag in
        if (1 <? n)%nat
        then engine (Drop_tags (i, j) inner_tag)
        else ret tt))).

Definition contract_boundary_from_left
    (yrange : Z * Z) (xrange : option (Z * Z)) (canonize : bool)
    (compress_sweep : string) (layer_tags : option (list string))
    (inplace : bool) (compress_opts : kwargs) : M TN (netstate TN) :=
  on_self_or_copy inplace (
    let xrange := default (0, Lx L - 1) xrange in
    enter From_left xrange yrange ;;
    match layer_tags with
    | None =>
        _contract_boundary_from_left_single
          yrange xrange canonize compress_sweep (layer_tag_of compress_opts)
          (without_layer_tag compress_opts)
    | Some layer_tags =>
        _contract_boundary_from_left_multi
          yrange xrange layer_tags canonize compress_sweep compress_opts
    end).

Definition contract_boundary_from_left_
    (yrange : Z * Z) (xrange : option (Z * Z)) (canonize : bool)
    (compress_sweep : string) (layer_tags : option (list string))
    (compress_opts : kwargs) : M TN (netstate TN) :=
  contract_boundary_from_left
    yrange xrange canonize compress_sweep layer_tags true compress_opts.

(** *** From the right *)

Definition _contract_boundary_from_right_single
    (yrange xrange : Z * Z) (canonize : bool) (compress_sweep : string)
    (layer_tag : scalar) (compress_opts : kwargs) : M TN unit :=
  let+ canonize_sweep :=
    lift (getitem opposite_column_sweep compress_sweep) in
  for_ (range_down (max2 yrange) (min2 yrange)) (fun j =>
    for_ (range (min2 xrange) (max2 xrange + 1)) (fun i =>
      let+ tag1 := lift (site_tag L (SInt i) (SInt j)) in
      let+ tag2 := lift (site_tag L (SInt i) (SInt (j - 1))) in
      absorb_site tag1 tag2 layer_tag) ;;
    (if canonize
     then canonize_column L j canonize_sweep (Some xrange) ∅
     else ret tt) ;;
    lift (check_keywords ["j"; "sweep"] compress_opts) ;;
    compress_column L j compress_sweep (Some xrange) compress_opts).

Definition _contract_boundary_from_right_multi
    (yrange xrange : Z * Z) (layer_tags : list string) (canonize : bool)
    (compress_sweep : string) (compress_opts : kwargs) : M TN unit :=
  for_ (range_down (max2 yrange) (min2 yrange)) (fun j =>
    for_ (range (min2 xrange) (max2 xrange + 1)) (fun i =>
      engine (Ixor (i, j))) ;;
    for_ layer_tags (fun tag =>
      lift (check_keywords ["layer_tag"] compress_opts) ;;
      _contract_boundary_from_right_single
        (j, j - 1) xrange canonize compress_sweep (SStr tag)
        compress_opts ;;
      for_ (range (min2 xrange) (max2 xrange + 1)) (fun i =>
        let+ inner_tag := lift (site_tag L (SInt i) (SInt (j - 1))) in
        let+ n := tag_count inner_tag in
        if (1 <? n)%nat
        then engine (Drop_tags (i, j) inner_tag)
        else ret tt))).

Definition contract_boundary_from_right
    (yrange : Z * Z) (xrange : option (Z * Z)) (canonize : bool)
    (compress_sweep : string) (layer_tags : option (list string))
    (inplace : bool) (compress_opts : kwargs) : M TN (netstate TN) :=
  on_self_or_copy inplace (
    let xrange := default (0, Lx L - 1) xrange in
    enter From_right xrange yrange ;;
    match layer_tags with
    | None =>
        _contract_boundary_from_right_single
          yrange xrange canonize compress_sweep (layer_tag_of compress_opts)
          (without_layer_tag compress_opts)
    | Some layer_tags =>
        _contract_boundary_from_right_multi
          yrange xrange layer_tags canonize compress_sweep compress_opts
    end).

Definition contract_boundary_from_right_
    (yrange : Z * Z) (xrange : option (Z * Z)) (canonize : bool)
    (compress_sweep : string) (layer_tags : option (list string))
    (compress_opts : kwargs) : M TN (netstate TN) :=
  contract_boundary_from_right
    yrange xrange canonize compress_sweep layer_tags true compress_opts.

End Boundary.
End Boundary.
Import Boundary.

(** ** The boundary sweep scheduler ([contract_boundary]) *)
Module Scheduler.

(** The arguments of [contract_boundary].  Its [**boundary_contract_opts]
    are [canonize] (when given) and the other keywords, [compress_opts];
    [layer_tags] is added to them before the loop. *)
Record cb_args := {
  around : option (list (Z * Z));
  layer_tags : option (list string);
  max_separation : Z;
  sequence : list string;
  bottom : option Z;
  top : option Z;
  left : option Z;
  right : option Z;
  inplace : bool;
  canonize : option bool;
  compress_opts : kwargs;
}.

(** The local variables of the loop: the four borders and the
    [reached_stop] dictionary. *)
Record frontier := {
  f_bottom : Z;
  f_top : Z;
  f_left : Z;
  f_right : Z;
  reached_stop : gmap string bool;
}.

(** The box around the protected region ([stop_i_min] ... [stop_j_max]). *)
Record stop_box := {
  stop_i_min : Z;
  stop_i_max : Z;
  stop_j_min : Z;
  stop_j_max : Z;
}.

Definition stop_of (around : list (Z * Z)) : result stop_box :=
  let* i_min := min_of (fst <$> around) in
  let* i_max := max_of (fst <$> around) in
  let* j_min := min_of (snd <$> around) in
  let* j_max := max_of (snd <$> around) in
  Ok {| stop_i_min := i_min; stop_i_max := i_max;
        stop_j_min := j_min; stop_j_max := j_max |}.

(** [(around is None) or (x < y)], with [y] read from the box. *)
Definition clear_of (stop : option stop_box) (test : stop_box -> bool)
  : bool :=
  match stop with
  | None => true
  | Some box => test box
  end.

Definition reach (direction : string) (fs : frontier) : frontier :=
  {| f_bottom := f_bottom fs; f_top := f_top fs;
     f_left := f_left fs; f_right := f_right fs;
     reached_stop := <[direction := true]> (reached_stop fs) |}.

(** [thin_strip]. *)
Definition thin_strip (max_separation : Z) (fs : frontier) : bool :=
  (f_top fs - f_bottom fs <=? max_separation)
  || (f_right fs - f_left fs <=? max_separation).

(** [all(reached_stop.values())]. *)
Definition all_reached (fs : frontier) : bool :=
  bool_decide (map_Forall (fun _ v => v = true) (reached_stop fs)).

(** [next] on [cycle(sequence)]: [pending] is what is left of the
    current pass. *)
Definition next_direction (sequence pending : list string)
  : option (string * list string) :=
  match pending with
  | d :: rest => Some (d, rest)
  | [] =>
      match sequence with
      | d :: rest => Some (d, rest)
      | [] => None
      end
  end.

(** How [contract_boundary] ends. *)
Inductive cb_return (TN V : Type) :=
| Contraction (v : V)              (* return tn.contract(all, ...) *)
| Network (tn : netstate TN).      (* return tn *)
Arguments Contraction {TN V} v.
Arguments Network {TN V} tn.

(** How the loop ends, and the loop between two iterations. *)
Inductive loop_exit (V : Type) :=
| Returned (v : V)                 (* the [return] in the loop *)
| Broke                            (* the [break] *)
| Exhausted.                       (* [cycle] of an empty sequence *)
Arguments Returned {V} v.
Arguments Broke {V}.
Arguments Exhausted {V}.

Inductive loop_state (V : Type) :=
| Running (pending : list string) (fs : frontier)
| Exited (how : loop_exit V) (fs : frontier).
Arguments Running {V} pending fs.
Arguments Exited {V} how fs.

Section Scheduler.
Context {TN V : Type} `{!Engine TN V}.
Variable L : lattice.
Variable a : cb_args.

(** The [if direction == ...] chain of one iteration. *)
Definition advance (stop : option stop_box) (direction : string)
    (fs : frontier) : M TN frontier :=
  let canonize := default true (canonize a) in
  if bool_decide (direction = "b") then
    if clear_of stop (fun box => f_bottom fs + 1 <? stop_i_min box) then
      lift (check_keywords ["xrange"; "yrange"; "compress_sweep"]
                           (compress_opts a)) ;;
      contract_boundary_from_bottom_ L
        (f_bottom fs, f_bottom fs + 1) (Some (f_left fs, f_right fs))
        canonize "left" (layer_tags a) (compress_opts a) ;;
      ret {| f_bottom := f_bottom fs + 1; f_top := f_top fs;
             f_left := f_left fs; f_right := f_right fs;
             reached_stop := reached_stop fs |}
    else ret (reach direction fs)
  else if bool_decide (direction = "l") then
    if clear_of stop (fun box => f_left fs + 1 <? stop_j_min box) then
      lift (check_keywords ["xrange"; "yrange"; "compress_sweep"]
                           (compress_opts a)) ;;
      contract_boundary_from_left_ L
        (f_left fs, f_left fs + 1) (Some (f_bottom fs, f_top fs))
        canonize "up" (layer_tags a) (compress_opts a) ;;
      ret {| f_bottom := f_bottom fs; f_top := f_top fs;
             f_left := f_left fs + 1; f_right := f_right fs;
             reached_stop := reached_stop fs |}
    else ret (reach direction fs)
  else if bool_decide (direction = "t") then
    if clear_of stop (fun box => stop_i_max box <? f_top fs - 1) then
      lift (check_keywords ["xrange"; "yrange"; "compress_sweep"]
                           (compress_opts a)) ;;
      contract_boundary_from_top_ L
        (f_top fs, f_top fs - 1) (Some (f_left fs, f_right fs))
        canonize "right" (layer_tags a) (compress_opts a) ;;
      ret {| f_bottom := f_bottom fs; f_top := f_top fs - 1;
             f_left := f_left fs; f_right := f_right fs;
             reached_stop := reached_stop fs |}
    else ret (reach direction fs)
  else if bool_decide (direction = "r") then
    if clear_of stop (fun box => stop_j_max box <? f_right fs - 1) then
      lift (check_keywords ["xrange"; "yrange"; "compress_sweep"]
                           (compress_opts a)) ;;
      contract_boundary_from_right_ L
        (f_right fs, f_right fs - 1) (Some (f_bottom fs, f_top fs))
        canonize "down" (layer_tags a) (compress_opts a) ;;
      ret {| f_bottom := f_bottom fs; f_top := f_top fs;
             f_left := f_left fs; f_right := f_right fs - 1;
             reached_stop := reached_stop fs |}
    else ret (reach direction fs)
  else lift (Raise ValueError).

(** One pass through the body of [for direction in cycle(sequence)]. *)
Definition iteration (stop : option stop_box) (pending : list string)
    (fs : frontier) : M TN (loop_state V) :=
  match next_direction (sequence a) pending with
  | None => ret (Exited Exhausted fs)
  | Some (direction, pending) =>
      let+ fs := advance stop direction fs in
      match stop with
      | None =>
          if thin_strip (max_separation a) fs
          then fun tn => (Ok (Exited (Returned (contract_all (net tn))) fs), tn)
          else ret (Running pending fs)
      | Some _ =>
          if all_reached fs
          then ret (Exited Broke fs)
          else ret (Running pending fs)
      end
  end.

(** The loop, for at most [n] iterations. *)
Fixpoint loop (n : nat) (stop : option stop_box) (ls : loop_state V)
  : M TN (loop_state V) :=
  match n, ls with
  | S n', Running pending fs =>
      let+ ls' := iteration stop pending fs in
      loop n' stop ls'
  | _, _ => ret ls
  end.

(** The initial borders and flags. *)
Definition initial : frontier :=
  {| f_bottom := default 0 (bottom a);
     f_top := default (Lx L - 1) (top a);
     f_left := default 0 (left a);
     f_right := default (Ly L - 1) (right a);
     reached_stop := list_to_map ((fun d => (d, false)) <$> sequence a) |}.

(** [if around is not None: stop_i_min = ...]. *)
Definition stop_region : result (option stop_box) :=
  match around a with
  | None => Ok None
  | Some coos => let* box := stop_of coos in Ok (Some box)
  end.

(** [contract_boundary]: [None] when [fuel] iterations do not finish the
    loop.  The state is [self]; [tn] is [self] or its copy. *)
Definition contract_boundary (fuel : nat) (self : netstate TN)
  : option (result (cb_return TN V) * netstate TN) :=
  let tn := if inplace a then self
            else {| net := copy (net self); trace := trace self |} in
  let self_after tn' := if inplace a then tn' else self in
  match stop_region with
  | Raise e => Some (Raise e, self_after tn)
  | Ok stop =>
      match loop fuel stop (Running (sequence a) initial) tn with
      | (Raise e, tn') => Some (Raise e, self_after tn')
      | (Ok (Running _ _), _) => None
      | (Ok (Exited (Returned v) _), tn') =>
          Some (Ok (Contraction v), self_after tn')
      | (Ok (Exited _ _), tn') =>
          Some (Ok (Network tn'), self_after tn')
      end
  end.

End Scheduler.
End Scheduler.
Import Scheduler.

(** ** The [PEPS] constructor (lines 1382-1449) *)
Module Peps.

(** Index names.  [rand_uuid] of the generic engine hands out
    identifiers it has never handed out before, none of them a formatted
    site index: the [n]-th identifier of the generator is [Uuid n]. *)
Inductive ind :=
| Uuid (n : nat)
| Name (s : string).

#[global] Instance ind_eq_dec : EqDecision ind.
Proof. solve_decision. Defined.

(** [s.replace(c, '')], [c in s] and [s.find(c)] for a character [c]. *)
Fixpoint remove_char (c : ascii) (s : string) : string :=
  match s with
  | EmptyString => EmptyString
  | String c' s' =>
      if bool_decide (c' = c) then remove_char c s'
      else String c' (remove_char c s')
  end.

Fixpoint contains (c : ascii) (s : string) : bool :=
  match s with
  | EmptyString => false
  | String c' s' => bool_decide (c' = c) || contains c s'
  end.

Fixpoint find (c : ascii) (s : string) : Z :=
  match s with
  | EmptyString => -1
  | String c' s' =>
      if bool_decide (c' = c) then 0
      else let k := find c s' in if k <? 0 then -1 else k + 1
  end.

(** [unique] as the generic engine uses it: the elements in order, each
    where it comes first ([seen] are the elements met so far). *)
Fixpoint unique_from (seen l : list string) : list string :=
  match l with
  | [] => []
  | x :: l' =>
      if bool_decide (x ∈ seen) then unique_from seen l'
      else x :: unique_from (x :: seen) l'
  end.

Definition unique (l : list string) : list string := unique_from [] l.

(** [tags_to_utup] on a sequence of tags ([None] is the empty sequence, a
    single string the sequence of that string) and [utup_union] of the
    generic engine. *)
Definition tags_to_utup (tags : list string) : list string := unique tags.

Definition utup_union (tagss : list (list string)) : list string :=
  unique (concat tagss).

Section Arrays.
Context {X : Type}.

(** A dense array: its shape and its entries in row-major order. *)
Record array := {
  shape : list nat;
  entries : list X;
}.

(** [do('squeeze', array)]: the axes of length one go away. *)
Definition squeeze (x : array) : array :=
  {| shape := filter (fun d => d ≠ 1%nat) (shape x);
     entries := entries x |}.

(** The multi-index of the [n]-th entry, and back. *)
Fixpoint unravel (dims : list nat) (n : nat) : list nat :=
  match dims with
  | [] => []
  | d :: dims' =>
      let m := foldr Nat.mul 1%nat dims' in
      (n / m)%nat :: unravel dims' (n mod m)%nat
  end.

Fixpoint ravel (dims idx : list nat) : nat :=
  match dims, idx with
  | d :: dims', k :: idx' =>
      (k * foldr Nat.mul 1%nat dims' + ravel dims' idx')%nat
  | _, _ => 0%nat
  end.

(** [perm] names every axis of an array with [n] axes once. *)
Definition axes_permutation (n : nat) (perm : list nat) : Prop :=
  length perm = n ∧ NoDup perm ∧ Forall (fun p => (p < n)%nat) perm.

(** [do('transpose', array, perm)]: axis [a] of the result is axis
    [perm[a]] of the argument; a [perm] that is not a permutation of the
    axes of the array is a [ValueError] of the backend. *)
Definition transpose (x : array) (perm : list nat) : result array :=
  if bool_decide (axes_permutation (length (shape x)) perm) then
    let dims := (fun p => nth p (shape x) 1%nat) <$> perm in
    let old_index (idx : list nat) : list nat :=
      (fun b => nth (default 0%nat (list_find (fun p => p = b) perm
                                     ≫= (fun r => Some (fst r))))
                    idx 0%nat)
        <$> seq 0 (length (shape x)) in
    Ok {| shape := dims;
          entries :=
            omap (fun n => entries x
                           !! ravel (shape x) (old_index (unravel dims n)))
                 (seq 0 (foldr Nat.mul 1%nat dims)) |}
  else Raise ValueError.

(** A tensor of the generic engine. *)
Record tensor := {
  t_data : array;
  t_inds : list ind;
  t_tags : list string;
}.

(** [Tensor(data=..., inds=..., tags=...)]: an array that has not one
    axis for each index is a [ValueError]. *)
Definition Tensor (data : array) (inds : list ind) (tags : list string)
  : result tensor :=
  if bool_decide (length (shape data) = length inds)
  then Ok {| t_data := data; t_inds := inds; t_tags := tags |}
  else Raise ValueError.

(** The state of the construction loop: the [ix] dictionary with the
    generator behind it, and the tensors made so far. *)
Abbreviation bond_key := (Z * Z * (Z * Z))%type.

Record ix_state := {
  ix : gmap bond_key ind;
  next_uuid : nat;
}.

(** [ix[key]] on [defaultdict(rand_uuid)]. *)
Definition ix_get (key : bond_key) (s : ix_state) : ind * ix_state :=
  match ix s !! key with
  | Some v => (v, s)
  | None =>
      (Uuid (next_uuid s),
       {| ix := <[key := Uuid (next_uuid s)]> (ix s);
          next_uuid := S (next_uuid s) |})
  end.

(** [if letter in array_order: inds.append(ix[key])]. *)
Definition bond_ind (array_order : string) (letter : ascii)
    (key : bond_key) (acc : list ind * ix_state) : list ind * ix_state :=
  if contains letter array_order
  then let '(b, s) := ix_get key (snd acc) in (fst acc ++ [b], s)
  else acc.

Record peps := {
  peps_lattice : lattice;
  site_ind_id : string;
  tensors : list tensor;
}.

(** [site_ind] of [TensorNetwork2DVector]. *)
Definition site_ind (L : lattice) (site_ind_id : string) (i j : scalar)
  : result string :=
  let* i := wrap i (Lx L) in
  let* j := wrap j (Ly L) in
  format site_ind_id [i; j].

(** [arrays[i][j]]. *)
Definition array_at (arrays : list (list array)) (i j : Z)
  : result array :=
  match arrays !! Z.to_nat i with
  | None => Raise IndexError
  | Some row =>
      match row !! Z.to_nat j with
      | None => Raise IndexError
      | Some x => Ok x
      end
  end.

(** The order of the axes of the array at [(i, j)]. *)
Definition array_order_at (L : lattice) (shape_ : string) (i j : Z)
  : string :=
  let o := shape_ in
  let o := if bool_decide (i = Lx L - 1) then remove_char "u" o else o in
  let o := if bool_decide (j = Ly L - 1) then remove_char "r" o else o in
  let o := if bool_decide (i = 0) then remove_char "d" o else o in
  let o := if bool_decide (j = 0) then remove_char "l" o else o in
  o.

(** [tuple(array_order.find(x) for x in 'urdlp' if x in array_order)]. *)
Definition transpose_order (array_order : string) : list Z :=
  (fun c => find c array_order)
    <$> filter (fun c => contains c array_order = true)
               (list_ascii_of_string "urdlp").

(** The array of the site [(i, j)] as the loop prepares it: squeezed
    when its number of axes is not the expected one, then brought into
    the order up, right, down, left, physical. *)
Definition site_array (L : lattice) (shape_ : string) (i j : Z) (x : array)
  : result array :=
  let array_order := array_order_at L shape_ i j in
  let x := if bool_decide (length (shape x) ≠ String.length array_order)
           then squeeze x else x in
  if bool_decide
       (transpose_order array_order
        ≠ (Z.of_nat <$> seq 0 (String.length array_order)))
  then transpose x (Z.to_nat <$> transpose_order array_order) else Ok x.

(** The body of the loop over the sites; [tags] have been through
    [tags_to_utup]. *)
Definition site_tensor (L : lattice) (site_ind_id shape_ : string)
    (tags : list string) (arrays : list (list array))
    (ij : Z * Z) (s : ix_state) : result (tensor * ix_state) :=
  let '(i, j) := ij in
  let* x := array_at arrays i j in
  let array_order := array_order_at L shape_ i j in
  let* x := site_array L shape_ i j x in
  let acc := ([], s) in
  let acc := bond_ind array_order "u" ((i + 1, j), (i, j)) acc in
  let acc := bond_ind array_order "r" ((i, j), (i, j + 1)) acc in
  let acc := bond_ind array_order "d" ((i, j), (i - 1, j)) acc in
  let acc := bond_ind array_order "l" ((i, j - 1), (i, j)) acc in
  let* p := site_ind L site_ind_id (SInt i) (SInt j) in
  let inds := fst acc ++ [Name p] in
  let* st := site_tag L (SInt i) (SInt j) in
  let* rt := row_tag L (SInt i) in
  let* ct := col_tag L (SInt j) in
  let ij_tags := utup_union [tags; [st; rt; ct]] in
  let* t := Tensor x inds ij_tags in
  Ok (t, snd acc).

Fixpoint build (L : lattice) (site_ind_id shape_ : string)
    (tags : list string) (arrays : list (list array))
    (coos : list (Z * Z)) (s : ix_state) (done : list tensor)
  : result (list tensor * ix_state) :=
  match coos with
  | [] => Ok (done, s)
  | ij :: coos' =>
      let* ts := site_tensor L site_ind_id shape_ tags arrays ij s in
      build L site_ind_id shape_ tags arrays coos' (snd ts)
            (done ++ [fst ts])
  end.

(** [PEPS.__init__] on a sequence of sequences of arrays; [uuid0] is
    where the identifier generator stands. *)
Definition PEPS_init (arrays : list (list array)) (shape_ : string)
    (tags : list string)
    (site_ind_id site_tag_id row_tag_id col_tag_id : string)
    (uuid0 : nat) : result (peps * nat) :=
  let* first_row := match arrays with
                    | [] => Raise IndexError
                    | r :: _ => Ok r
                    end in
  let L := {| Lx := Z.of_nat (length arrays);
              Ly := Z.of_nat (length first_row);
              site_tag_id := site_tag_id;
              row_tag_id := row_tag_id;
              col_tag_id := col_tag_id |} in
  let* r := build L site_ind_id shape_ (tags_to_utup tags) arrays
                  (gen_site_coos L) {| ix := ∅; next_uuid := uuid0 |} [] in
  Ok ({| peps_lattice := L; site_ind_id := site_ind_id;
         tensors := fst r |}, next_uuid (snd r)).

End Arrays.
Arguments array X : clear implicits.
Arguments tensor X : clear implicits.
Arguments peps X : clear implicits.

End Peps.
Import Peps.

(** ** Vocabulary of the statements *)
Module Props.

Definition row_sweeps : list string := ["right"; "left"].
Definition column_sweeps : list string := ["up"; "down"].
Definition directions : list string := ["b"; "l"; "t"; "r"].

(** What a piece of code adds to the trace of a network. *)
Definition events_of {TN A} (m : M TN A) (st : netstate TN) : list event :=
  drop (length (trace st)) (trace (snd (m st))).

(** The lattice neighbour of a site in the direction of a sweep. *)
Definition neighbour (sweep : string) (coo : Z * Z) : Z * Z :=
  let '(i, j) := coo in
  if bool_decide (sweep = "right") then (i, j + 1)
  else if bool_decide (sweep = "left") then (i, j - 1)
  else if bool_decide (sweep = "up") then (i + 1, j)
  else if bool_decide (sweep = "down") then (i - 1, j)
  else coo.

(** The engine's convention for [compress_between(tags1, tags2,
    absorb=...)]: ['left'] folds the singular values into the tensor at
    [tags1], ['right'] into the one at [tags2].  [absorbed c] is the pair
    (site that gives, site that receives) of a compression call. *)
Definition absorbed (c : call) : option ((Z * Z) * (Z * Z)) :=
  match c with
  | Compress_between coo1 coo2 opts =>
      match opts !! "absorb" with
      | Some (SStr s) =>
          if bool_decide (s = "right") then Some (coo1, coo2)
          else if bool_decide (s = "left") then Some (coo2, coo1)
          else None
      | _ => None
      end
  | _ => None
  end.

(** A compression that folds the weight into the neighbour lying in the
    direction [sweep] of the other site of the pair. *)
Definition absorbs_along (sweep : string) (e : event) : Prop :=
  ∃ c src, e = Call c ∧ absorbed c = Some (src, neighbour sweep src).

(** The number of [{}] fields of a template. *)
Fixpoint fields (tpl : string) : nat :=
  match tpl with
  | EmptyString => 0
  | String c rest =>
      match rest with
      | String c' rest' =>
          if (bool_decide (c = "{"%char) && bool_decide (c' = "}"%char))%bool
          then S (fields rest')
          else fields rest
      | EmptyString => 0
      end
  end.

(** A specifier made of literal text and [{}] fields only: every brace
    in it belongs to a [{}]. *)
Definition brace (c : ascii) : bool :=
  bool_decide (c = "{"%char) || bool_decide (c = "}"%char).

Fixpoint plain (tpl : string) : bool :=
  match tpl with
  | EmptyString => true
  | String c rest =>
      match rest with
      | String c' rest' =>
          if (bool_decide (c = "{"%char) && bool_decide (c' = "}"%char))%bool
          then plain rest'
          else negb (brace c) && plain rest
      | EmptyString => negb (brace c)
      end
  end.

(** A lattice whose site tags can be formed: positive extents and a
    site-tag specifier of literal text and at most two [{}] fields. *)
Definition well_formed (L : lattice) : Prop :=
  0 < Lx L ∧ 0 < Ly L
  ∧ plain (site_tag_id L) = true ∧ (fields (site_tag_id L) ≤ 2)%nat.

(** Literal text: a string without a brace. *)
Definition literal (s : string) : bool :=
  forallb (fun c => negb (brace c)) (list_ascii_of_string s).

(** What the addressing functions put into the field of a tag for an
    argument: a string as it is, an integer modulo the extent [n]. *)
Definition field_of (a : scalar) (n : Z) : option string :=
  match a with
  | SStr s => Some s
  | SInt z => if decide (n = 0) then None else Some (str_int (z `mod` n))
  | SNone => None
  end.

(** [a] is integer-coercible, to [z]: an integer, or a string that
    [int] reads. *)
Definition coerces (int_of_str : string → option Z) (a : scalar) (z : Z)
  : Prop :=
  match a with
  | SInt i => i = z
  | SStr s => int_of_str s = Some z
  | SNone => False
  end.

(** [x] is the coordinate [(i, j)]: a sequence, not a string, of exactly
    two integer-coercible elements. *)
Definition coordinate (int_of_str : string → option Z) (x : value)
    (i j : Z) : Prop :=
  ∃ a b, x = VTuple [a; b] ∧ coerces int_of_str a i ∧ coerces int_of_str b j.

(** Keyword options that get through to the engine: none of them is a
    keyword that a call on the way from [contract_boundary] to
    [compress_row] or [compress_column] gives itself. *)
Definition passes (named : list string) (opts : kwargs) : Prop :=
  Forall (fun k => opts !! k = None) named.

Definition forwardable (opts : kwargs) : Prop :=
  passes ["xrange"; "yrange"; "compress_sweep"; "layer_tag"; "sweep";
          "i"; "j"] opts.

(** The site tags of the lattice are pairwise different. *)
Definition distinct_site_tags (L : lattice) : bool :=
  match site_tags L with
  | Ok tags => bool_decide (NoDup tags)
  | Raise _ => false
  end.

Definition in_lattice (L : lattice) (coo : Z * Z) : Prop :=
  0 ≤ coo.1 < Lx L ∧ 0 ≤ coo.2 < Ly L.

(** The rectangle of coordinates spanned by two inclusive ranges. *)
Definition rect (xrange yrange : Z * Z) (coo : Z * Z) : Prop :=
  min2 xrange ≤ coo.1 ≤ max2 xrange ∧ min2 yrange ≤ coo.2 ≤ max2 yrange.

(** [t] is the site tag of a coordinate of the region [R]. *)
Definition site_tag_in (L : lattice) (R : Z * Z → Prop) (t : string)
  : Prop :=
  ∃ i j, R (i, j) ∧ site_tag L (SInt i) (SInt j) = Ok t.

(** Every site that a call addresses, by coordinate or by site tag, lies
    in the region [R]. *)
Definition confined (L : lattice) (R : Z * Z → Prop) (c : call) : Prop :=
  match c with
  | Canonize_between coo1 coo2 _ | Compress_between coo1 coo2 _ =>
      R coo1 ∧ R coo2
  | Contract_any tag1 tag2 | Contract_between tag1 tag2 _ =>
      site_tag_in L R tag1 ∧ site_tag_in L R tag2
  | Ixor coo => R coo
  | Drop_tags coo tag => R coo ∧ site_tag_in L R tag
  end.

(** The engine resolves a coordinate through [site_tag], hence up to
    wrapping; [addresses L c coo] says that the call [c] addresses the
    tensors of the lattice site [coo]. *)
Definition wrapped (L : lattice) (coo : Z * Z) : Z * Z :=
  (coo.1 `mod` Lx L, coo.2 `mod` Ly L).

Definition is_site_tag (L : lattice) (coo : Z * Z) (t : string) : Prop :=
  site_tag L (SInt coo.1) (SInt coo.2) = Ok t.

Definition addresses (L : lattice) (c : call) (coo : Z * Z) : Prop :=
  match c with
  | Canonize_between coo1 coo2 _ | Compress_between coo1 coo2 _ =>
      wrapped L coo1 = coo ∨ wrapped L coo2 = coo
  | Contract_any tag1 tag2 | Contract_between tag1 tag2 _ =>
      is_site_tag L coo tag1 ∨ is_site_tag L coo tag2
  | Ixor coo1 => wrapped L coo1 = coo
  | Drop_tags coo1 tag => wrapped L coo1 = coo ∨ is_site_tag L coo tag
  end.

(** Code that does not raise and only adds engine calls satisfying [Q]
    to the trace. *)
Definition calls_only {TN A} (Q : call → Prop) (m : M TN A) : Prop :=
  ∀ st, ∃ a st' cs,
    m st = (Ok a, st')
    ∧ trace st' = trace st ++ (Call <$> cs)
    ∧ Forall Q cs.

(** The number of directional boundary contractions among some events. *)
Definition is_boundary (e : event) : bool :=
  match e with
  | Boundary_from _ _ _ => true
  | Call _ => false
  end.

Definition absorptions (evs : list event) : nat :=
  length (filter (fun e => is_boundary e = true) evs).

(** One border moved by one towards the interior, the others stayed. *)
Definition moved_inward (fs fs' : frontier) : Prop :=
  (f_bottom fs' = f_bottom fs + 1 ∧ f_top fs' = f_top fs
   ∧ f_left fs' = f_left fs ∧ f_right fs' = f_right fs)
  ∨ (f_bottom fs' = f_bottom fs ∧ f_top fs' = f_top fs - 1
     ∧ f_left fs' = f_left fs ∧ f_right fs' = f_right fs)
  ∨ (f_bottom fs' = f_bottom fs ∧ f_top fs' = f_top fs
     ∧ f_left fs' = f_left fs + 1 ∧ f_right fs' = f_right fs)
  ∨ (f_bottom fs' = f_bottom fs ∧ f_top fs' = f_top fs
     ∧ f_left fs' = f_left fs ∧ f_right fs' = f_right fs - 1).

Definition same_borders (fs fs' : frontier) : Prop :=
  f_bottom fs' = f_bottom fs ∧ f_top fs' = f_top fs
  ∧ f_left fs' = f_left fs ∧ f_right fs' = f_right fs.

(** The protected box lies between the borders. *)
Definition encloses (box : stop_box) (fs : frontier) : Prop :=
  f_bottom fs ≤ stop_i_min box ∧ stop_i_max box ≤ f_top fs
  ∧ f_left fs ≤ stop_j_min box ∧ stop_j_max box ≤ f_right fs.

(** The borders do not cross. *)
Definition ordered (fs : frontier) : Prop :=
  f_bottom fs ≤ f_top fs ∧ f_left fs ≤ f_right fs.

(** The frontier of a loop state. *)
Definition frontier_of {V} (ls : loop_state V) : frontier :=
  match ls with
  | Running _ fs => fs
  | Exited _ fs => fs
  end.

(** The network [contract_boundary] works on: [self] or its copy. *)
Definition working {TN V} `{!Engine TN V} (a : cb_args)
    (self : netstate TN) : netstate TN :=
  if inplace a then self
  else {| net := copy (net self); trace := trace self |}.

(** Whether the test guarding the absorption from direction [d] lets
    the border move. *)
Definition can_advance (stop : option stop_box) (d : string)
    (fs : frontier) : bool :=
  if bool_decide (d = "b")
  then clear_of stop (fun box => f_bottom fs + 1 <? stop_i_min box)
  else if bool_decide (d = "l")
  then clear_of stop (fun box => f_left fs + 1 <? stop_j_min box)
  else if bool_decide (d = "t")
  then clear_of stop (fun box => stop_i_max box <? f_top fs - 1)
  else if bool_decide (d = "r")
  then clear_of stop (fun box => stop_j_max box <? f_right fs - 1)
  else false.

(** The frontier after the border of direction [d] has moved. *)
Definition move (d : string) (fs : frontier) : frontier :=
  {| f_bottom := if bool_decide (d = "b") then f_bottom fs + 1
                 else f_bottom fs;
     f_top := if bool_decide (d = "t") then f_top fs - 1 else f_top fs;
     f_left := if bool_decide (d = "l") then f_left fs + 1 else f_left fs;
     f_right := if bool_decide (d = "r") then f_right fs - 1
                else f_right fs;
     reached_stop := reached_stop fs |}.

(** The sites that the absorption from direction [d] works on: the
    outer line, its inward neighbour, and the orthogonal range. *)
Definition slab (d : string) (fs : frontier) : Z * Z → Prop :=
  if bool_decide (d = "b")
  then rect (f_bottom fs, f_bottom fs + 1) (f_left fs, f_right fs)
  else if bool_decide (d = "l")
  then rect (f_bottom fs, f_top fs) (f_left fs, f_left fs + 1)
  else if bool_decide (d = "t")
  then rect (f_top fs, f_top fs - 1) (f_left fs, f_right fs)
  else rect (f_bottom fs, f_top fs) (f_right fs, f_right fs - 1).

(** An event is an entry into a directional contraction or an engine
    call confined to [R]. *)
Definition within (L : lattice) (R : Z * Z → Prop) (e : event) : Prop :=
  match e with
  | Call c => confined L R c
  | Boundary_from _ _ _ => True
  end.

(** How many iterations a sweep without protected region can still
    take, at most, from a frontier. *)
Definition budget (s : Z) (fs : frontier) : nat :=
  Z.to_nat (Z.max 1 ((f_top fs - f_bottom fs - s)
                     + (f_right fs - f_left fs - s) - 1)).

(** How far the border of direction [d] is from where the protected box
    stops it. *)
Definition dist (box : stop_box) (d : string) (fs : frontier) : nat :=
  if bool_decide (d = "b")
  then Z.to_nat (stop_i_min box - 1 - f_bottom fs)
  else if bool_decide (d = "l")
  then Z.to_nat (stop_j_min box - 1 - f_left fs)
  else if bool_decide (d = "t")
  then Z.to_nat (f_top fs - 1 - stop_i_max box)
  else if bool_decide (d = "r")
  then Z.to_nat (f_right fs - 1 - stop_j_max box)
  else 0%nat.

(** What the sweep still owes in direction [d]: the steps of its border
    and the setting of its flag. *)
Definition owed (box : stop_box) (fs : frontier) (d : string) : nat :=
  (dist box d fs
   + match reached_stop fs !! d with
     | Some false => 1
     | _ => 0
     end)%nat.

Definition potential (box : stop_box) (fs : frontier) : nat :=
  (owed box fs "b" + owed box fs "l" + owed box fs "t" + owed box fs "r")%nat.

(** What holds of the frontier all along a sweep around a protected box,
    started from the frontier [fs0] with the sequence [seq]. *)
Definition guarded (box : stop_box) (seq : list string)
    (fs0 fs : frontier) : Prop :=
  (∀ d, d ∈ seq ↔ is_Some (reached_stop fs !! d))
  ∧ (∀ d, reached_stop fs !! d = Some true →
          can_advance (Some box) d fs = false)
  ∧ encloses box fs
  ∧ f_bottom fs0 ≤ f_bottom fs ≤ Z.max (f_bottom fs0) (stop_i_min box - 1)
  ∧ Z.min (f_top fs0) (stop_i_max box + 1) ≤ f_top fs ≤ f_top fs0
  ∧ f_left fs0 ≤ f_left fs ≤ Z.max (f_left fs0) (stop_j_min box - 1)
  ∧ Z.min (f_right fs0) (stop_j_max box + 1) ≤ f_right fs ≤ f_right fs0.

(** The sites between the borders [fs0] that are not in the box. *)
Definition outside (box : stop_box) (fs0 : frontier) (coo : Z * Z) : Prop :=
  (f_bottom fs0 ≤ coo.1 ≤ f_top fs0 ∧ f_left fs0 ≤ coo.2 ≤ f_right fs0)
  ∧ ¬ (stop_i_min box ≤ coo.1 ≤ stop_i_max box
       ∧ stop_j_min box ≤ coo.2 ≤ stop_j_max box).

(** The tag and index specifiers that [PEPS] uses unless told
    otherwise, on an [lx] by [ly] lattice. *)
Definition default_lattice (lx ly : Z) : lattice :=
  {| Lx := lx; Ly := ly;
     site_tag_id := "I{},{}"; row_tag_id := "ROW{}"; col_tag_id := "COL{}" |}.

(** An engine that only remembers the calls it received: the network is
    the list of calls, a tag is held by one tensor, and contracting
    everything yields the number of calls made before. *)
Definition recorder : Engine (list call) nat :=
  {| apply c tn := tn ++ [c];
     tag_map_len _ _ := 1%nat;
     contract_all tn := length tn;
     copy tn := tn |}.

Definition fresh : netstate (list call) := {| net := []; trace := [] |}.

(** [contract_boundary(max_separation=s)] and
    [contract_boundary(around=coos)], everything else left at its default. *)
Definition args_free (s : Z) : cb_args :=
  {| around := None; layer_tags := None; max_separation := s;
     sequence := directions;
     bottom := None; top := None; left := None; right := None;
     inplace := false; canonize := None; compress_opts := ∅ |}.

Definition args_sequence (seq : list string) : cb_args :=
{| around := None; layer_tags := None; max_separation := 1;
   sequence := seq;
   bottom := None; top := None; left := None; right := None;
   inplace := false; canonize := None; compress_opts := ∅ |}.

Definition args_around (coos : list (Z * Z)) : cb_args :=
  {| around := Some coos; layer_tags := None; max_separation := 1;
     sequence := directions;
     bottom := None; top := None; left := None; right := None;
     inplace := false; canonize := None; compress_opts := ∅ |}.

(** *** PEPS *)

(** The keys of the [ix] dictionary that the constructor looks up at the
    site [(i, j)], with the letter of [shape] that guards each. *)
Definition bond_pairs (i j : Z) : list (ascii * (Z * Z * (Z * Z))) :=
  [ ("u"%char, ((i + 1, j), (i, j)));
    ("r"%char, ((i, j), (i, j + 1)));
    ("d"%char, ((i, j), (i - 1, j)));
    ("l"%char, ((i, j - 1), (i, j))) ].

Definition keys_of (L : lattice) (shape_ : string) (i j : Z)
  : list (Z * Z * (Z * Z)) :=
  snd <$> filter (fun p => contains p.1 (array_order_at L shape_ i j) = true)
                 (bond_pairs i j).

(** The tensor that the constructor made for a site: the tensors are made
    in the order of the sites. *)
Definition tensor_of {X : Type} (p : peps X) (coo : Z * Z) (t : tensor X) : Prop :=
  ∃ k, gen_site_coos (peps_lattice p) !! k = Some coo
       ∧ tensors p !! k = Some t.

(** [coo2] is the upper or the right neighbour of [coo1]. *)
Definition adjacent (coo1 coo2 : Z * Z) : Prop :=
  coo2 = (coo1.1 + 1, coo1.2) ∨ coo2 = (coo1.1, coo1.2 + 1).

(** The site indices of the lattice are pairwise different. *)
Definition distinct_site_inds (L : lattice) (site_ind_id : string) : bool :=
  match rmap (fun ij => site_ind L site_ind_id (SInt ij.1) (SInt ij.2))
             (gen_site_coos L) with
  | Ok names => bool_decide (NoDup names)
  | Raise _ => false
  end.

(** [lx] rows of [ly] arrays each. *)
Definition rectangular {X : Type} (arrays : list (list (array X))) (lx ly : nat)
  : Prop :=
  length arrays = lx ∧ Forall (fun row => length row = ly) arrays.

(** The identifiers in the [ix] dictionary were handed out by the
    generator since [uuid0], each to one key. *)
Definition ix_ok (uuid0 : nat) (s : ix_state) : Prop :=
  (∀ k v, ix s !! k = Some v →
          ∃ n, v = Uuid n ∧ (uuid0 ≤ n < next_uuid s)%nat)
  ∧ (∀ k1 k2 v, ix s !! k1 = Some v → ix s !! k2 = Some v → k1 = k2).

(** The index lookups of one site, as a fold. *)
Definition bond_inds (array_order : string)
    (pairs : list (ascii * (Z * Z * (Z * Z))))
    (acc : list ind * ix_state) : list ind * ix_state :=
  foldl (fun acc p => bond_ind array_order p.1 p.2 acc) acc pairs.

(** What the constructor gives the tensor of a site as indices: the
    identifiers of its bond keys, then its site index. *)
Definition site_inds_ok {X : Type} (L : lattice) (site_ind_id shape_ : string)
    (final : gmap (Z * Z * (Z * Z)) ind) (coo : Z * Z) (t : tensor X)
  : Prop :=
  ∃ bonds p,
    t_inds t = bonds ++ [Name p]
    ∧ Forall2 (fun k v => final !! k = Some v)
              (keys_of L shape_ coo.1 coo.2) bonds
    ∧ site_ind L site_ind_id (SInt coo.1) (SInt coo.2) = Ok p.

(** An array of zeros of a given shape, and a lattice of copies of it. *)
Definition zeros (dims : list nat) : array Z :=
  {| shape := dims; entries := repeat 0 (foldr Nat.mul 1%nat dims) |}.

Definition uniform (lx ly : nat) (dims : list nat) : list (list (array Z)) :=
  repeat (repeat (zeros dims) ly) lx.

(** The number of axes of the data of a tensor agrees with the number of
    its indices (what the engine's [Tensor] insists on). *)
Definition consistent {X : Type} (t : tensor X) : Prop :=
  length (shape (t_data t)) = length (t_inds t).

End Props.
Import Props.

(** * Further parts of the module *)

(** ** Bond coordinates ([gen_bond_coos], [gen_2d_bond_pairs]) *)
Module Bonds.

(** [if test: yield x]. *)
Definition yield_if {A} (test : bool) (x : A) : list A :=
  if test then [x] else [].

Definition gen_2d_bond_pairs (lx ly : Z) (cyclic : bool * bool)
  : list ((Z * Z) * (Z * Z)) :=
  i ← range 0 lx; j ← range 0 ly;
    yield_if (bool_decide (i + 1 < lx)) ((i, j), (i + 1, j))
    ++ yield_if (bool_decide (j + 1 < ly)) ((i, j), (i, j + 1))
    ++ yield_if (cyclic.1 && bool_decide (i = lx - 1)) ((0, j), (i, j))
    ++ yield_if (cyclic.2 && bool_decide (j = ly - 1)) ((i, 0), (i, j)).

Definition gen_bond_coos (L : lattice) : list ((Z * Z) * (Z * Z)) :=
  gen_2d_bond_pairs (Lx L) (Ly L) (false, false).

End Bonds.
Import Bonds.

Module BondProps.

(** A bond that closes a periodic lattice: from the first to the last
    site of a column, or of a row. *)
Definition wraps_rows (lx : Z) (b : (Z * Z) * (Z * Z)) : Prop :=
  b.1.1 = 0 ∧ b.2.1 = lx - 1 ∧ b.1.2 = b.2.2.

Definition wraps_columns (ly : Z) (b : (Z * Z) * (Z * Z)) : Prop :=
  b.1.2 = 0 ∧ b.2.2 = ly - 1 ∧ b.1.1 = b.2.1.

End BondProps.
Import BondProps.

(** ** Canonizing towards a window ([canonize_row_around]) *)
Module Around.
Section Around.
Context {TN V : Type} `{!Engine TN V}.
Variable L : lattice.

(** [around] is any sequence of columns; [min] and [max] of an empty one
    raise. *)
Definition canonize_row_around (i : Z) (around : list Z) : M TN unit :=
  let+ lo := lift (min_of around) in
  canonize_row L i "right" (Some (0, lo)) ∅ ;;
  let+ hi := lift (max_of around) in
  canonize_row L i "left" (Some (hi, Ly L - 1)) ∅.

End Around.
End Around.
Import Around.

Module ScriptProps.

(** Code that does not look at the network: whatever the network, it
    returns after exactly the engine calls [cs], in this order. *)
Definition emits {TN V : Type} `{!Engine TN V} (cs : list call)
    (m : M TN unit) : Prop :=
  ∀ st, m st = (Ok tt, {| net := foldl (fun n c => apply c n) (net st) cs;
                          trace := trace st ++ (Call <$> cs) |}).

(** The same pairwise operation on the same bond, from the other side. *)
Definition flipped (c : call) : call :=
  match c with
  | Canonize_between coo1 coo2 opts => Canonize_between coo2 coo1 opts
  | Compress_between coo1 coo2 opts => Compress_between coo2 coo1 opts
  | _ => c
  end.

(** The two sites of a pairwise operation. *)
Definition bond_of (c : call) : option ((Z * Z) * (Z * Z)) :=
  match c with
  | Canonize_between coo1 coo2 _ | Compress_between coo1 coo2 _ =>
      Some (coo1, coo2)
  | _ => None
  end.

(** The options of a compression. *)
Definition options_of (c : call) : option kwargs :=
  match c with
  | Compress_between _ _ opts => Some opts
  | _ => None
  end.

End ScriptProps.
Import ScriptProps.

Module AbsorptionProps.

(** The site tag of a coordinate, where it can be formed. *)
Definition tag_at (L : lattice) (coo : Z * Z) : string :=
  match site_tag L (SInt coo.1) (SInt coo.2) with
  | Ok t => t
  | Raise _ => EmptyString
  end.

(** The engine calls among some events. *)
Definition calls_of (evs : list event) : list call :=
  omap (fun e => match e with Call c => Some c | _ => None end) evs.

(** The kinds of engine call. *)
Inductive kind := Canonizing | Compressing | Contracting | Fusing | Untagging.

#[global] Instance kind_eq_dec : EqDecision kind.
Proof. solve_decision. Defined.

Definition kind_of (c : call) : kind :=
  match c with
  | Canonize_between _ _ _ => Canonizing
  | Compress_between _ _ _ => Compressing
  | Contract_any _ _ | Contract_between _ _ _ => Contracting
  | Ixor _ => Fusing
  | Drop_tags _ _ => Untagging
  end.

Definition only (k : kind) (cs : list call) : list call :=
  filter (fun c => kind_of c = k) cs.

(** The four directional absorptions, addressed by the side: [lines] is
    the range that is absorbed line by line ([xrange] from the bottom and
    the top, [yrange] from the left and the right), [across] the range
    along the lines. *)
Definition absorb_single {TN V : Type} `{!Engine TN V} (L : lattice)
    (d : side) (lines across : Z * Z) (canonize : bool)
    (compress_sweep : string) (layer_tag : scalar)
    (compress_opts : kwargs) : M TN unit :=
  match d with
  | From_bottom =>
      _contract_boundary_from_bottom_single
        L lines across canonize compress_sweep layer_tag compress_opts
  | From_top =>
      _contract_boundary_from_top_single
        L lines across canonize compress_sweep layer_tag compress_opts
  | From_left =>
      _contract_boundary_from_left_single
        L lines across canonize compress_sweep layer_tag compress_opts
  | From_right =>
      _contract_boundary_from_right_single
        L lines across canonize compress_sweep layer_tag compress_opts
  end.

Definition absorb_from {TN V : Type} `{!Engine TN V} (L : lattice)
    (d : side) (lines across : Z * Z) (canonize : bool)
    (compress_sweep : string) (layer_tags : option (list string))
    (inplace : bool) (compress_opts : kwargs) : M TN (netstate TN) :=
  match d with
  | From_bottom =>
      contract_boundary_from_bottom
        L lines (Some across) canonize compress_sweep layer_tags inplace
        compress_opts
  | From_top =>
      contract_boundary_from_top
        L lines (Some across) canonize compress_sweep layer_tags inplace
        compress_opts
  | From_left =>
      contract_boundary_from_left
        L lines (Some across) canonize compress_sweep layer_tags inplace
        compress_opts
  | From_right =>
      contract_boundary_from_right
        L lines (Some across) canonize compress_sweep layer_tags inplace
        compress_opts
  end.

(** The compression sweeps that an absorption from a side accepts. *)
Definition valid_sweeps (d : side) : list string :=
  match d with
  | From_bottom | From_top => row_sweeps
  | From_left | From_right => column_sweeps
  end.

(** The lines in the order in which they are absorbed, the line each is
    absorbed into, and the site number [k] of a line. *)
Definition lines_of (d : side) (lines : Z * Z) : list Z :=
  match d with
  | From_bottom | From_left => range (min2 lines) (max2 lines)
  | From_top | From_right => range_down (max2 lines) (min2 lines)
  end.

Definition inward (d : side) (line : Z) : Z :=
  match d with
  | From_bottom | From_left => line + 1
  | From_top | From_right => line - 1
  end.

Definition site_of (d : side) (line k : Z) : Z * Z :=
  match d with
  | From_bottom | From_top => (line, k)
  | From_left | From_right => (k, line)
  end.

(** The contraction of the tensors tagged [tag1] into those tagged
    [tag2], of one layer or of all. *)
Definition absorb_call (layer_tag : scalar) (tag1 tag2 : string)
  : call :=
  match layer_tag with
  | SNone => Contract_any tag1 tag2
  | _ => Contract_between tag1 tag2 layer_tag
  end.

(** The keywords that the absorption from a side gives to the sweep it
    calls. *)
Definition sweep_keywords (d : side) : list string :=
  match d with
  | From_bottom | From_top => ["i"; "sweep"]
  | From_left | From_right => ["j"; "sweep"]
  end.

(** The calls of the sweeps, as lists. *)
Definition canonize_row_script (i : Z) (sweep : string) (yr : Z * Z)
    (opts : kwargs) : list call :=
  if bool_decide (sweep = "right")
  then (fun j => Canonize_between (i, j) (i, j + 1) opts)
         <$> range (min2 yr) (max2 yr)
  else (fun j => Canonize_between (i, j) (i, j - 1) opts)
         <$> range_down (max2 yr) (min2 yr).

Definition canonize_column_script (j : Z) (sweep : string) (xr : Z * Z)
    (opts : kwargs) : list call :=
  if bool_decide (sweep = "up")
  then (fun i => Canonize_between (i, j) (i + 1, j) opts)
         <$> range (min2 xr) (max2 xr)
  else (fun i => Canonize_between (i, j) (i - 1, j) opts)
         <$> range_down (max2 xr) (min2 xr).

Definition compress_row_script (i : Z) (sweep : string) (yr : Z * Z)
    (opts : kwargs) : list call :=
  if bool_decide (sweep = "right")
  then (fun j => Compress_between (i, j) (i, j + 1)
                   (setdefault "absorb" (SStr "right") opts))
         <$> range (min2 yr) (max2 yr)
  else (fun j => Compress_between (i, j) (i, j - 1)
                   (setdefault "absorb" (SStr "right") opts))
         <$> range_down (max2 yr) (min2 yr).

Definition compress_column_script (j : Z) (sweep : string) (xr : Z * Z)
    (opts : kwargs) : list call :=
  if bool_decide (sweep = "up")
  then (fun i => Compress_between (i, j) (i + 1, j)
                   (setdefault "absorb" (SStr "right") opts))
         <$> range (min2 xr) (max2 xr)
  else (fun i => Compress_between (i - 1, j) (i, j)
                   (setdefault "absorb" (SStr "left") opts))
         <$> range_down (max2 xr) (min2 xr).

(** What the absorption of one line asks of the engine. *)
Definition line_script (L : lattice) (d : side) (across : Z * Z) (canonize : bool)
    (sweep opposite : string) (layer_tag : scalar) (opts : kwargs)
    (line : Z) : list call :=
  ((fun k => absorb_call layer_tag (tag_at L (site_of d line k))
                         (tag_at L (site_of d (inward d line) k)))
     <$> range (min2 across) (max2 across + 1))
  ++ (if canonize
      then match d with
           | From_bottom | From_top =>
               canonize_row_script line opposite across ∅
           | From_left | From_right =>
               canonize_column_script line opposite across ∅
           end
      else [])
  ++ match d with
     | From_bottom | From_top => compress_row_script line sweep across opts
     | From_left | From_right => compress_column_script line sweep across opts
     end.

End AbsorptionProps.
Import AbsorptionProps.

Module WindowProps.


(** The sites of the box around the protected region. *)
Definition in_box (box : stop_box) (coo : Z * Z) : Prop :=
  stop_i_min box ≤ coo.1 ≤ stop_i_max box
  ∧ stop_j_min box ≤ coo.2 ≤ stop_j_max box.


(** The borders of a frontier lie in the lattice. *)
Definition borders_in_lattice (L : lattice) (fs : frontier) : Prop :=
  0 ≤ f_bottom fs ∧ f_top fs ≤ Lx L - 1
  ∧ 0 ≤ f_left fs ∧ f_right fs ≤ Ly L - 1.

End WindowProps.
Import WindowProps.

Module SiteProps.

(** [ts] lists the elements of [l] once each, in the order in which
    they first occur in [l]: those that occur among the first [n]
    elements of [l] come before the others, for every [n]. *)
Definition first_occurrences (l ts : list string) : Prop :=
  NoDup ts
  ∧ (∀ x, x ∈ ts ↔ x ∈ l)
  ∧ ∀ n, ∃ m, ∀ x, x ∈ take m ts ↔ x ∈ take n l.

(** The tags that the constructor gives the tensor of a site: the global
    tags, then the tag of the site, of its row and of its column. *)
Definition site_tags_of (L : lattice) (tags : list string) (coo : Z * Z)
    (ts : list string) : Prop :=
  ∃ st rt ct,
    site_tag L (SInt coo.1) (SInt coo.2) = Ok st
    ∧ row_tag L (SInt coo.1) = Ok rt
    ∧ col_tag L (SInt coo.2) = Ok ct
    ∧ first_occurrences (tags ++ [st; rt; ct]) ts.

(** [shape] names the five axes up, right, down, left and physical, each
    once, in some order. *)
Definition axes_order (shape_ : string) : Prop :=
  list_ascii_of_string shape_ ≡ₚ list_ascii_of_string "urdlp".

(** The array [x] has one axis for each letter of the order of the axes
    at the site [(i, j)]. *)
Definition fits {X : Type} (L : lattice) (shape_ : string) (i j : Z)
    (x : array X) : Prop :=
  length (shape x) = String.length (array_order_at L shape_ i j).

(** The lattice that [PEPS.__init__] reads off its arguments. *)
Definition lattice_of {X : Type} (arrays : list (list (array X)))
    (site_tag_id row_tag_id col_tag_id : string) : lattice :=
  {| Lx := Z.of_nat (length arrays);
     Ly := Z.of_nat (length (default [] (head arrays)));
     site_tag_id := site_tag_id;
     row_tag_id := row_tag_id;
     col_tag_id := col_tag_id |}.

(** The number of columns that [PEPS.__init__] reads off its arguments:
    [len(arrays[0])]. *)
Definition width {X : Type} (arrays : list (list (array X))) : nat :=
  length (default [] (head arrays)).

(** No site tag is a global tag, a row tag or a column tag. *)
Definition site_tags_are_reserved (L : lattice) (tags : list string) : Prop :=
  ∀ i j k st,
    site_tag L (SInt i) (SInt j) = Ok st →
    (st ∉ tags) ∧ row_tag L (SInt k) ≠ Ok st ∧ col_tag L (SInt k) ≠ Ok st.

End SiteProps.
Import SiteProps.

(** ** Random PEPS ([PEPS.rand]) *)
Module Rand.
Section Rand.
Context {X G : Type}.

(** The random generator of [quimb.gen.rand], with its state [G], and
    [sensibly_scale] of [array_ops]: they are used as given. *)
Variable seed_rand : Z → G → G.
Variable randn : list nat → G → array X * G.
Variable sensibly_scale : array X → array X.





End Rand.
End Rand.
Import Rand.

Module EdgeProps.


(** The same for any [shape]. *)
Definition order_on_edges (shape_ : string)
    (edges : bool * bool * bool * bool) : string :=
  let '(top_, right_, bottom_, left_) := edges in
  let o := shape_ in
  let o := if top_ then remove_char "u" o else o in
  let o := if right_ then remove_char "r" o else o in
  let o := if bottom_ then remove_char "d" o else o in
  let o := if left_ then remove_char "l" o else o in
  o.

(** The sixteen ways in which a site can lie on the edges. *)
Definition all_edges : list (bool * bool * bool * bool) :=
  e1 ← [true; false]; e2 ← [true; false]; e3 ← [true; false];
  e4 ← [true; false]; [(e1, e2, e3, e4)].

(** The four bond letters that an order of axes holds. *)
Definition bond_letters (o : string) : list ascii :=
  filter (fun c => contains c o = true) (list_ascii_of_string "urdl").

(** An order of axes that the constructor can serve: one axis for each
    bond letter and one more, and a transposition that names each axis
    once. *)
Definition served (o : string) : Prop :=
  S (length (bond_letters o)) = String.length o
  ∧ axes_permutation (String.length o) (Z.to_nat <$> transpose_order o).

End EdgeProps.
Import EdgeProps.

(** ** Site indices of a vector ([TensorNetwork2DVector]) *)
Module Vector.



Section Vector.
Context {TN : Type}.
(** [reindex] of the generic engine. *)
Variable reindex : gmap string string → bool → TN → TN.



(** [site_inds]. *)
Definition site_inds (L : lattice) (site_ind_id : string)
  : result (list string) :=
  rmap (fun ij => site_ind L site_ind_id (SInt ij.1) (SInt ij.2))
       (gen_site_coos L).

End Vector.
End Vector.
Import Vector.

(** ** Physical dimensions of an operator ([TensorNetwork2DOperator]) *)
Module Operator.
Section Operator.
Context {T : Type}.
Variable int_of_str : string → option Z.
Variable L : lattice.
Variables upper_ind_id lower_ind_id : string.
(** [__getitem__] of the generic engine, and [ind_size] of what it gives. *)
Variable super_getitem : value → result T.
Variable ind_size : T → string → result Z.

Definition upper_ind (i j : scalar) : result string :=
  let* i := wrap i (Lx L) in
  let* j := wrap j (Ly L) in
  format upper_ind_id [i; j].

Definition lower_ind (i j : scalar) : result string :=
  let* i := wrap i (Lx L) in
  let* j := wrap j (Ly L) in
  format lower_ind_id [i; j].

(** A call [f( *args )] of a method with the two required parameters
    [i] and [j]: any other number of arguments is a [TypeError]. *)
Definition call_i_j {A} (f : scalar → scalar → result A)
    (args : list scalar) : result A :=
  match args with
  | [i; j] => f i j
  | _ => Raise TypeError
  end.

(** [phys_dim]: [None] is the result of falling off the end. *)
Definition phys_dim (i j : scalar) (which : string) : result (option Z) :=
  if bool_decide (which = "upper") then
    let* t := __getitem__ int_of_str super_getitem L (VTuple [i; j]) in
    let* ix := call_i_j upper_ind [i] in
    let* n := ind_size t ix in
    Ok (Some n)
  else if bool_decide (which = "lower") then
    let* t := __getitem__ int_of_str super_getitem L (VTuple [i; j]) in
    let* ix := call_i_j lower_ind [i] in
    let* n := ind_size t ix in
    Ok (Some n)
  else Ok None.

End Operator.
End Operator.

Module AxisProps.

(** The lengths of the axes of [x] in the order up, right, down, left,
    physical, when the axes of [x] stand in the order [array_order]. *)
Definition axes_in_order {X : Type} (array_order : string) (x : array X)
  : list nat :=
  (fun c => nth (Z.to_nat (find c array_order)) (shape x) 1%nat)
    <$> filter (fun c => contains c array_order = true)
               (list_ascii_of_string "urdlp").

End AxisProps.
Import AxisProps.

(** * Properties *)

(** A closed decidable proposition, settled by evaluating its decision. *)
Ltac by_decide :=
  match goal with |- ?P => exact (bool_decide_unpack P I) end.

(** ** Python builtins *)

Lemma mod_idempotent (i n : Z) :
  rbind (mod_ i n) (fun r => mod_ r n) = mod_ i n.
Proof.
  unfold mod_. destruct (decide (n = 0)) as [->|Hn]; simpl; [done|].
  destruct (decide (n = 0)); [done|]. by rewrite Z.mod_mod.
Qed.

Lemma wrap_int (i n : Z) :
  wrap (SInt (i `mod` n)) n = wrap (SInt i) n.
Proof.
  unfold wrap, smod, mod_. destruct (decide (n = 0)) as [->|Hn]; simpl; [done|].
  by rewrite Z.mod_mod.
Qed.

Lemma format_cons c c' rest args :
  format (String c (String c' rest)) args =
    if (bool_decide (c = "{"%char) && bool_decide (c' = "}"%char))%bool
    then match args with
         | x :: args' => rbind (format rest args') (fun s => Ok (str x ++ s)%string)
         | [] => Raise IndexError
         end
    else rbind (format (String c' rest) args) (fun s => Ok (String c s)).
Proof. reflexivity. Qed.

Lemma format_raises tpl args e :
  format tpl args = Raise e → e = IndexError.
Proof.
  remember (String.length tpl) as n eqn:Hn.
  revert tpl args Hn.
  induction (lt_wf n) as [n _ IH]. intros tpl args Hn.
  destruct tpl as [|c [|c' rest']]; [discriminate..|].
  rewrite format_cons.
  destruct (bool_decide (c = "{"%char) && bool_decide (c' = "}"%char)).
  - destruct args as [|x args']; [congruence|].
    destruct (format rest' args') eqn:Hf; simpl; [discriminate|].
    intros [= <-]. eapply (IH (String.length rest')); [|done|exact Hf].
    subst n. simpl. lia.
  - destruct (format (String c' rest') args) eqn:Hf; [discriminate|].
    cbn [rbind]. intros [= <-].
    eapply (IH (String.length (String c' rest'))); [|done|exact Hf].
    subst n. simpl. lia.
Qed.

Lemma site_tag_raises L (i j : Z) e :
  site_tag L (SInt i) (SInt j) = Raise e →
  e = IndexError ∨ e = ZeroDivisionError.
Proof.
  unfold site_tag, wrap, smod, mod_.
  destruct (decide (Lx L = 0)); simpl; [intros [= <-]; by right|].
  destruct (decide (Ly L = 0)); simpl; [intros [= <-]; by right|].
  intros H. left. by eapply format_raises.
Qed.

(** ** Lattice addressing *)

Section Addressing.
Variable int_of_str : string -> option Z.
Variable L : lattice.

Lemma int_raises x e :
  int int_of_str x = Raise e → e = ValueError ∨ e = TypeError.
Proof.
  destruct x as [z|s|]; simpl; [discriminate| |intros [= <-]; by right].
  destruct (int_of_str s); [discriminate|intros [= <-]; by left].
Qed.

Lemma unpack_coo_raises x e :
  unpack_coo int_of_str x = Raise e → e = ValueError ∨ e = TypeError.
Proof.
  destruct x as [s|[|u [|v rest]]]; simpl;
    try (intros [= <-]; by (left + right)).
  destruct (int int_of_str u) eqn:Hu; simpl;
    [|intros [= <-]; by eapply int_raises].
  destruct (int int_of_str v) eqn:Hv; simpl;
    [|intros [= <-]; by eapply int_raises].
  destruct rest as [|c rest]; [discriminate|].
  destruct (int int_of_str c) eqn:Hc; simpl;
    [intros [= <-]; by left|intros [= <-]; by eapply int_raises].
Qed.

(** What [maybe_convert_coo] computes, case by case. *)
Lemma maybe_convert_coo_spec x :
  maybe_convert_coo int_of_str L x =
    match x with
    | VScalar (SStr _) => Ok x
    | _ =>
        match unpack_coo int_of_str x with
        | Ok (i, j) =>
            let* t := site_tag L (SInt i) (SInt j) in Ok (VScalar (SStr t))
        | Raise _ => Ok x
        end
    end.
Proof.
  assert (Hgen :
    try_except_pass
      (let* ij := unpack_coo int_of_str x in
       let* t := site_tag L (SInt (fst ij)) (SInt (snd ij)) in
       Ok (VScalar (SStr t))) (Ok x) =
    match unpack_coo int_of_str x with
    | Ok (i, j) =>
        let* t := site_tag L (SInt i) (SInt j) in Ok (VScalar (SStr t))
    | Raise _ => Ok x
    end).
  { destruct (unpack_coo int_of_str x) as [[i j]|e] eqn:Hu; simpl.
    - destruct (site_tag L (SInt i) (SInt j)) as [t|e] eqn:Ht; simpl; [done|].
      by destruct (site_tag_raises _ _ _ _ Ht) as [-> | ->].
    - by destruct (unpack_coo_raises _ _ Hu) as [-> | ->]. }
  destruct x as [[z|s|]|l]; simpl; first [exact Hgen | reflexivity].
Qed.

End Addressing.

Lemma format_char (c : ascii) (tpl : string) (args : list scalar) :
  c ≠ "{"%char →
  format (String c tpl) args = let* s := format tpl args in Ok (String c s).
Proof.
  intros Hc. destruct tpl as [|c' rest]; [done|].
  rewrite format_cons. by rewrite (bool_decide_eq_false_2 (c = "{"%char)).
Qed.

Lemma format_literal (s tpl : string) (args : list scalar) :
  literal s = true →
  format (s ++ tpl) args = let* r := format tpl args in Ok (s ++ r)%string.
Proof.
  induction s as [|c s IH]; intros Hs.
  - change (format tpl args = let* r := format tpl args in Ok r).
    by destruct (format tpl args).
  - unfold literal in Hs. simpl in Hs.
    apply andb_true_iff in Hs as [Hc Hs].
    change (String c s ++ tpl)%string with (String c (s ++ tpl)).
    rewrite format_char, IH by
      (done || (intros ->; by vm_compute in Hc)).
    by destruct (format tpl args).
Qed.

Lemma format_field (tpl : string) (a : scalar) (args : list scalar) :
  format ("{}" ++ tpl) (a :: args)
  = let* r := format tpl args in Ok (str a ++ r)%string.
Proof. reflexivity. Qed.

Lemma string_app_nil_r (s : string) : (s ++ "")%string = s.
Proof.
  induction s as [|c s IH]; [done|].
  change (String c (s ++ "") = String c s)%string. by rewrite IH.
Qed.

Lemma format_literal_only (s : string) (args : list scalar) :
  literal s = true → format s args = Ok s.
Proof.
  intros Hs. rewrite <- (string_app_nil_r s) at 1.
  rewrite (format_literal s "" args Hs). cbn [format rbind].
  by rewrite string_app_nil_r.
Qed.

Lemma format_two (pre mid post : string) (a b : scalar) :
  literal pre = true → literal mid = true → literal post = true →
  format (pre ++ "{}" ++ mid ++ "{}" ++ post) [a; b]
  = Ok (pre ++ str a ++ mid ++ str b ++ post)%string.
Proof.
  intros Hpre Hmid Hpost.
  rewrite (format_literal pre), format_field, (format_literal mid),
    format_field, (format_literal_only post) by done.
  done.
Qed.

Lemma format_one (pre post : string) (a : scalar) :
  literal pre = true → literal post = true →
  format (pre ++ "{}" ++ post) [a] = Ok (pre ++ str a ++ post)%string.
Proof.
  intros Hpre Hpost.
  rewrite (format_literal pre), format_field, (format_literal_only post)
    by done.
  done.
Qed.

Lemma wrap_field_of (a : scalar) (n : Z) (u : string) :
  field_of a n = Some u → ∃ w, wrap a n = Ok w ∧ str w = u.
Proof.
  destruct a as [z|s|]; simpl; [|by intros [= <-]; eexists|done].
  unfold mod_. destruct (decide (n = 0)); [done|]. intros [= <-].
  by eexists.
Qed.

Section Conversion.
Variable int_of_str : string → option Z.
Variable L : lattice.

Lemma int_coerces (a : scalar) (z : Z) :
  int int_of_str a = Ok z ↔ coerces int_of_str a z.
Proof.
  destruct a as [i|s|]; simpl.
  - split; [by intros [= ->]|by intros ->].
  - destruct (int_of_str s); split; (done || by intros [= ->]).
  - done.
Qed.

Lemma unpack_coo_coordinate (x : value) (i j : Z) :
  unpack_coo int_of_str x = Ok (i, j) ↔ coordinate int_of_str x i j.
Proof.
  split.
  - destruct x as [s|[|a [|b rest]]]; simpl; try done.
    destruct (int int_of_str a) as [i'|] eqn:Ha; [|done]. cbn [rbind].
    destruct (int int_of_str b) as [j'|] eqn:Hb; [|done]. cbn [rbind].
    destruct rest as [|c rest].
    + intros [= <- <-]. exists a, b. by rewrite <- !int_coerces.
    + by destruct (int int_of_str c).
  - intros (a & b & -> & Ha%int_coerces & Hb%int_coerces). simpl.
    by rewrite Ha, Hb.
Qed.

Lemma maybe_convert_coo_coordinate (x : value) (i j : Z) :
  coordinate int_of_str x i j →
  maybe_convert_coo int_of_str L x
  = let* t := site_tag L (SInt i) (SInt j) in Ok (VScalar (SStr t)).
Proof.
  intros Hx. rewrite maybe_convert_coo_spec.
  apply unpack_coo_coordinate in Hx as Hu. rewrite Hu.
  by destruct Hx as (a & b & -> & _).
Qed.

Lemma maybe_convert_coo_other (x : value) :
  (∀ i j, ¬ coordinate int_of_str x i j) →
  maybe_convert_coo int_of_str L x = Ok x.
Proof.
  intros Hx. rewrite maybe_convert_coo_spec.
  destruct x as [[z|s|]|l]; try done;
    (destruct (unpack_coo int_of_str _) as [[i j]|e] eqn:Hu; [|done];
     by apply unpack_coo_coordinate, Hx in Hu).
Qed.

End Conversion.

(** C7. The addressing functions give the tag of the wrapped coordinate:
    [site_tag(i, j) = site_tag(i mod Lx, j mod Ly)], and the same for
    [row_tag] and [col_tag].  With a specifier made of literal text and
    [{}] fields, an integer argument fills its field with its value modulo
    the extent and a string argument with the string as it is.  The
    tag-based lookups ([_get_tids_from_tags], [__getitem__]) hand to the
    generic lookup the site tag of the coordinate when their argument is
    a sequence, not a string, of exactly two integer-coercible elements,
    and their argument as it came in every other case. *)
Theorem addressing_wraps_and_converts
    (int_of_str : string -> option Z) (L : lattice) :
  (∀ i j : Z,
     site_tag L (SInt i) (SInt j)
     = site_tag L (SInt (i `mod` Lx L)) (SInt (j `mod` Ly L)))
  ∧ (∀ i : Z, row_tag L (SInt i) = row_tag L (SInt (i `mod` Lx L)))
  ∧ (∀ j : Z, col_tag L (SInt j) = col_tag L (SInt (j `mod` Ly L)))
  ∧ (∀ (pre mid post : string) (a b : scalar) (u v : string),
       literal pre = true → literal mid = true → literal post = true →
       site_tag_id L = (pre ++ "{}" ++ mid ++ "{}" ++ post)%string →
       field_of a (Lx L) = Some u → field_of b (Ly L) = Some v →
       site_tag L a b = Ok (pre ++ u ++ mid ++ v ++ post)%string)
  ∧ (∀ (pre post : string) (a : scalar) (u : string),
       literal pre = true → literal post = true →
       row_tag_id L = (pre ++ "{}" ++ post)%string →
       field_of a (Lx L) = Some u →
       row_tag L a = Ok (pre ++ u ++ post)%string)
  ∧ (∀ (pre post : string) (b : scalar) (v : string),
       literal pre = true → literal post = true →
       col_tag_id L = (pre ++ "{}" ++ post)%string →
       field_of b (Ly L) = Some v →
       col_tag L b = Ok (pre ++ v ++ post)%string)
  ∧ (∀ (R : Type) (super_ : value → string → result R) x which i j,
       plain (site_tag_id L) = true → coordinate int_of_str x i j →
       _get_tids_from_tags int_of_str super_ L x which
       = let* t := site_tag L (SInt i) (SInt j) in
         super_ (VScalar (SStr t)) which)
  ∧ (∀ (R : Type) (super_ : value → string → result R) x which,
       (∀ i j, ¬ coordinate int_of_str x i j) →
       _get_tids_from_tags int_of_str super_ L x which = super_ x which)
  ∧ (∀ (R : Type) (super_ : value → result R) x i j,
       plain (site_tag_id L) = true → coordinate int_of_str x i j →
       __getitem__ int_of_str super_ L x
       = let* t := site_tag L (SInt i) (SInt j) in super_ (VScalar (SStr t)))
  ∧ (∀ (R : Type) (super_ : value → result R) x,
       (∀ i j, ¬ coordinate int_of_str x i j) →
       __getitem__ int_of_str super_ L x = super_ x).
Proof.
  split; [|split; [|split; [|split; [|split; [|split; [|split; [|split;
    [|split]]]]]]]].
  - intros i j. unfold site_tag. by rewrite !wrap_int.
  - intros i. unfold row_tag. by rewrite wrap_int.
  - intros j. unfold col_tag. by rewrite wrap_int.
  - intros pre mid post a b u v Hpre Hmid Hpost Hid
      (wa & Ha & <-)%wrap_field_of (wb & Hb & <-)%wrap_field_of.
    unfold site_tag. rewrite Ha, Hb, Hid. cbn [rbind].
    by apply format_two.
  - intros pre post a u Hpre Hpost Hid (wa & Ha & <-)%wrap_field_of.
    unfold row_tag. rewrite Ha, Hid. cbn [rbind]. by apply format_one.
  - intros pre post b v Hpre Hpost Hid (wb & Hb & <-)%wrap_field_of.
    unfold col_tag. rewrite Hb, Hid. cbn [rbind]. by apply format_one.
  - intros R super_ x which i j _ Hx. unfold _get_tids_from_tags.
    rewrite (maybe_convert_coo_coordinate _ _ _ _ _ Hx).
    by destruct (site_tag L (SInt i) (SInt j)).
  - intros R super_ x which Hx. unfold _get_tids_from_tags.
    by rewrite maybe_convert_coo_other.
  - intros R super_ x i j _ Hx. unfold __getitem__.
    rewrite (maybe_convert_coo_coordinate _ _ _ _ _ Hx).
    by destruct (site_tag L (SInt i) (SInt j)).
  - intros R super_ x Hx. unfold __getitem__.
    by rewrite maybe_convert_coo_other.
Qed.

Lemma addressing_wraps_and_converts_witness :
  site_tag (default_lattice 3 4) (SInt (-1)) (SStr "x") = Ok "I2,x"%string
  ∧ row_tag (default_lattice 3 4) (SInt 7) = Ok "ROW1"%string
  ∧ _get_tids_from_tags (fun s => if bool_decide (s = "5"%string) then Some 5 else None)
      (fun x _ => Ok x) (default_lattice 3 4)
      (VTuple [SInt (-1); SStr "5"]) "all"
    = Ok (VScalar (SStr "I2,1"))
  ∧ __getitem__ (fun s => if bool_decide (s = "5"%string) then Some 5 else None)
      (fun x => Ok x) (default_lattice 3 4)
      (VTuple [SInt (-1); SStr "five"])
    = Ok (VTuple [SInt (-1); SStr "five"]).
Proof.
  pose proof (addressing_wraps_and_converts
                (fun s => if bool_decide (s = "5"%string) then Some 5 else None)
                (default_lattice 3 4))
    as (_ & _ & _ & Hsite & Hrow & _ & Hget & _ & _ & Hitem).
  split; [|split; [|split]].
  - by apply (Hsite "I" "," "" (SInt (-1)) (SStr "x") "2" "x")%string.
  - by apply (Hrow "ROW" "" (SInt 7) "1")%string.
  - rewrite (Hget _ (fun x _ => Ok x) _ "all"%string (-1) 5 eq_refl); [done|].
    by exists (SInt (-1)), (SStr "5").
  - apply Hitem. intros i j (a & b & [= <- <-] & _ & Hb). by simpl in Hb.
Defined.

(** ** Running code on a network *)

Section Running.
Context {TN V : Type} `{!Engine TN V}.

Lemma events_of_app {A} (m : M TN A) (st : netstate TN) evs :
  trace (snd (m st)) = trace st ++ evs → events_of m st = evs.
Proof. unfold events_of. intros ->. by rewrite drop_app_length. Qed.

Lemma for_engine {A} (xs : list A) (f : A → call) (st : netstate TN) :
  for_ xs (fun x => engine (f x)) st
  = (Ok tt, {| net := foldl (fun n x => apply (f x) n) (net st) xs;
               trace := trace st ++ ((fun x => Call (f x)) <$> xs) |}).
Proof.
  revert st. induction xs as [|x xs IH]; intros [n tr]; simpl.
  - unfold ret. by rewrite app_nil_r.
  - unfold bind at 1. unfold engine at 1. simpl. rewrite IH. simpl.
    by rewrite <- app_assoc.
Qed.

Lemma range_empty (a : Z) : range a a = [].
Proof. unfold range. by rewrite Z.sub_diag. Qed.

Lemma range_down_empty (a : Z) : range_down a a = [].
Proof. unfold range_down. by rewrite Z.sub_diag. Qed.

Lemma min2_diag (j : Z) : min2 (j, j) = j.
Proof. unfold min2; simpl; lia. Qed.

Lemma max2_diag (j : Z) : max2 (j, j) = j.
Proof. unfold max2; simpl; lia. Qed.

Lemma check_opt_invalid name value valid :
  value ∉ valid → check_opt name value valid = Raise ValueError.
Proof. intros H. unfold check_opt. by rewrite bool_decide_eq_false_2. Qed.

Lemma check_opt_valid name value valid :
  value ∈ valid → check_opt name value valid = Ok tt.
Proof. intros H. unfold check_opt. by rewrite bool_decide_eq_true_2. Qed.

End Running.

(** ** Keyword options *)

Lemma passes_lookup (named : list string) (opts : kwargs) (k : string) :
  passes named opts → k ∈ named → opts !! k = None.
Proof. intros H Hk. by eapply Forall_forall in H. Qed.

Lemma passes_mono (named named' : list string) (opts : kwargs) :
  Forall (fun k => k ∈ named) named' → passes named opts →
  passes named' opts.
Proof.
  intros Hsub H. eapply Forall_impl; [exact Hsub|].
  intros k Hk. by eapply passes_lookup.
Qed.

Lemma passes_without_layer_tag (named : list string) (opts : kwargs) :
  passes named opts → passes named (without_layer_tag opts).
Proof.
  intros H. eapply Forall_impl; [exact H|]. intros k Hk.
  unfold without_layer_tag. apply lookup_delete_None. by right.
Qed.

Lemma check_keywords_ok (named : list string) (opts : kwargs) :
  passes named opts → check_keywords named opts = Ok tt.
Proof.
  intros H. unfold check_keywords.
  assert (existsb (fun k => has_key k opts) named = false) as ->; [|done].
  induction H as [|k named Hk H IH]; [done|]. simpl. rewrite IH, orb_false_r.
  unfold has_key. apply bool_decide_eq_false. rewrite Hk. by intros [? ?].
Qed.

Lemma check_keywords_clash (named : list string) (opts : kwargs)
    (k : string) :
  k ∈ named → is_Some (opts !! k) →
  check_keywords named opts = Raise TypeError.
Proof.
  intros Hk Hsome. unfold check_keywords.
  assert (existsb (fun k => has_key k opts) named = true) as ->; [|done].
  apply existsb_exists. exists k. split; [by apply list_elem_of_In|].
  by apply bool_decide_eq_true.
Qed.

(** ** The sweeps *)

Section Sweeps.
Context {TN V : Type} `{!Engine TN V}.
Variable L : lattice.

Lemma canonize_row_invalid i sweep yrange opts (st : netstate TN) :
  sweep ∉ row_sweeps →
  canonize_row L i sweep yrange opts st = (Raise ValueError, st).
Proof.
  intros H. unfold canonize_row, bind, lift.
  by rewrite (check_opt_invalid _ _ _ H).
Qed.

Lemma compress_row_invalid i sweep yrange opts (st : netstate TN) :
  sweep ∉ row_sweeps →
  compress_row L i sweep yrange opts st = (Raise ValueError, st).
Proof.
  intros H. unfold compress_row, bind, lift.
  by rewrite (check_opt_invalid _ _ _ H).
Qed.

Lemma canonize_column_invalid j sweep xrange opts (st : netstate TN) :
  sweep ∉ column_sweeps →
  canonize_column L j sweep xrange opts st = (Raise ValueError, st).
Proof.
  intros H. unfold canonize_column, bind, lift.
  by rewrite (check_opt_invalid _ _ _ H).
Qed.

Lemma compress_column_invalid j sweep xrange opts (st : netstate TN) :
  sweep ∉ column_sweeps →
  compress_column L j sweep xrange opts st = (Raise ValueError, st).
Proof.
  intros H. unfold compress_column, bind, lift.
  by rewrite (check_opt_invalid _ _ _ H).
Qed.

End Sweeps.

(** C9. On a single-element range [(j, j)] each of the four sweeps
    ([canonize_row], [canonize_column], [compress_row], [compress_column])
    does nothing to the network beyond checking its [sweep] argument: no
    call reaches the engine and the network it ends with is the
    network it started with. *)
Theorem single_element_range_is_noop
    {TN V : Type} `{!Engine TN V} (L : lattice)
    (line k : Z) (sweep : string) (opts : kwargs) (st : netstate TN) :
  canonize_row L line sweep (Some (k, k)) opts st
    = (check_opt "sweep" sweep row_sweeps, st)
  ∧ canonize_column L line sweep (Some (k, k)) opts st
    = (check_opt "sweep" sweep column_sweeps, st)
  ∧ compress_row L line sweep (Some (k, k)) opts st
    = (check_opt "sweep" sweep row_sweeps, st)
  ∧ compress_column L line sweep (Some (k, k)) opts st
    = (check_opt "sweep" sweep column_sweeps, st).
Proof.
  unfold canonize_row, canonize_column, compress_row, compress_column.
  unfold bind, lift, row_sweeps, column_sweeps. simpl.
  rewrite min2_diag, max2_diag, range_empty, range_down_empty.
  repeat split.
  - destruct (check_opt "sweep" sweep ["right"; "left"]) as [[]|e]; [|done].
    by case_bool_decide.
  - destruct (check_opt "sweep" sweep ["up"; "down"]) as [[]|e]; [|done].
    by case_bool_decide.
  - destruct (check_opt "sweep" sweep ["right"; "left"]) as [[]|e]; [|done].
    by case_bool_decide.
  - destruct (check_opt "sweep" sweep ["up"; "down"]) as [[]|e]; [|done].
    by case_bool_decide.
Qed.

Lemma elem_of_pair_other {A} (x a b : A) : x ∈ [a; b] → x ≠ a → x = b.
Proof.
  intros Hin Hne. apply elem_of_cons in Hin as [->|Hin]; [done|].
  by apply list_elem_of_singleton in Hin.
Qed.

Section Compression.
Context {TN V : Type} `{!Engine TN V}.
Variable L : lattice.

Lemma setdefault_absent (k : string) (v : scalar) (d : kwargs) :
  d !! k = None → setdefault k v d !! k = Some v.
Proof. intros H. unfold setdefault. rewrite H. apply lookup_insert_eq. Qed.

Lemma setdefault_present (k : string) (v w : scalar) (d : kwargs) :
  d !! k = Some w → setdefault k v d = d.
Proof. intros H. unfold setdefault. by rewrite H. Qed.

(** The calls of [compress_row], in order. *)
Lemma compress_row_events i sweep yrange opts (st : netstate TN) :
  sweep ∈ row_sweeps →
  events_of (compress_row L i sweep yrange opts) st =
    let opts' := setdefault "absorb" (SStr "right") opts in
    let yr := default (0, Ly L - 1) yrange in
    if bool_decide (sweep = "right")
    then (fun j => Call (Compress_between (i, j) (i, j + 1) opts'))
           <$> range (min2 yr) (max2 yr)
    else (fun j => Call (Compress_between (i, j) (i, j - 1) opts'))
           <$> range_down (max2 yr) (min2 yr).
Proof.
  intros Hs. apply events_of_app.
  unfold compress_row, bind, lift. rewrite (check_opt_valid _ _ _ Hs).
  cbv zeta. case_bool_decide; by rewrite for_engine.
Qed.

(** The calls of [compress_column], in order. *)
Lemma compress_column_events j sweep xrange opts (st : netstate TN) :
  sweep ∈ column_sweeps →
  events_of (compress_column L j sweep xrange opts) st =
    let xr := default (0, Lx L - 1) xrange in
    if bool_decide (sweep = "up")
    then (fun i => Call (Compress_between (i, j) (i + 1, j)
                           (setdefault "absorb" (SStr "right") opts)))
           <$> range (min2 xr) (max2 xr)
    else (fun i => Call (Compress_between (i - 1, j) (i, j)
                           (setdefault "absorb" (SStr "left") opts)))
           <$> range_down (max2 xr) (min2 xr).
Proof.
  intros Hs. apply events_of_app.
  unfold compress_column, bind, lift. rewrite (check_opt_valid _ _ _ Hs).
  cbv zeta. case_bool_decide; by rewrite for_engine.
Qed.

End Compression.

(** C5. When the caller gives no [absorb] option, [compress_row] and
    [compress_column] choose it by the sweep so that every compressed bond
    folds the discarded weight into the neighbour lying in the direction of
    the sweep: the right neighbour on a ['right'] sweep, the left one on a
    ['left'] sweep, the upper one on an ['up'] sweep and the lower one on a
    ['down'] sweep. *)
Theorem default_absorb_follows_sweep
    {TN V : Type} `{!Engine TN V} (L : lattice)
    (line : Z) (sweep : string) (range_ : option (Z * Z)) (opts : kwargs)
    (st : netstate TN) :
  opts !! "absorb" = None →
  (sweep ∈ row_sweeps →
     Forall (absorbs_along sweep)
            (events_of (compress_row L line sweep range_ opts) st))
  ∧ (sweep ∈ column_sweeps →
     Forall (absorbs_along sweep)
            (events_of (compress_column L line sweep range_ opts) st)).
Proof.
  intros Habs. split; intros Hs.
  - rewrite compress_row_events by done. cbv zeta.
    assert (Hr := setdefault_absent _ (SStr "right") _ Habs).
    case_bool_decide as Hsw; apply Forall_fmap, Forall_forall; intros j _.
    + subst sweep. eexists _, (line, j). split; [done|].
      unfold absorbed. by rewrite Hr.
    + assert (sweep = "left") as -> by by apply (elem_of_pair_other _ "right").
      eexists _, (line, j). split; [done|].
      unfold absorbed. by rewrite Hr.
  - rewrite compress_column_events by done. cbv zeta.
    case_bool_decide as Hsw; apply Forall_fmap, Forall_forall; intros i _.
    + subst sweep. eexists _, (i, line). split; [done|].
      unfold absorbed. by rewrite (setdefault_absent _ _ _ Habs).
    + assert (sweep = "down") as -> by by apply (elem_of_pair_other _ "up").
      eexists _, (i, line). split; [done|].
      unfold absorbed. by rewrite (setdefault_absent _ _ _ Habs).
Qed.

Lemma default_absorb_follows_sweep_witness :
  Forall (absorbs_along "left")
         (events_of (compress_row (Engine0 := recorder) (default_lattice 3 3)
                       1 "left" None ∅) fresh)
  ∧ Forall (absorbs_along "down")
           (events_of (compress_column (Engine0 := recorder)
                         (default_lattice 3 3) 1 "down" (Some (0, 2)) ∅)
                      fresh).
Proof.
  split.
  - apply (default_absorb_follows_sweep (Engine0 := recorder)
             (default_lattice 3 3) 1 "left" None ∅ fresh); [reflexivity|].
    unfold row_sweeps. by right; left.
  - apply (default_absorb_follows_sweep (Engine0 := recorder)
             (default_lattice 3 3) 1 "down" (Some (0, 2)) ∅ fresh);
      [reflexivity|].
    unfold column_sweeps. by right; left.
Defined.

(** ** Well-formed lattices *)

Lemma fields_cons c c' rest :
  fields (String c (String c' rest)) =
    if (bool_decide (c = "{"%char) && bool_decide (c' = "}"%char))%bool
    then S (fields rest)
    else fields (String c' rest).
Proof. reflexivity. Qed.

Lemma format_ok tpl args :
  (fields tpl ≤ length args)%nat → ∃ s, format tpl args = Ok s.
Proof.
  remember (String.length tpl) as n eqn:Hn.
  revert tpl args Hn.
  induction (lt_wf n) as [n _ IH]. intros tpl args Hn.
  destruct tpl as [|c [|c' rest']]; [by eexists..|].
  rewrite format_cons, fields_cons.
  destruct (bool_decide (c = "{"%char) && bool_decide (c' = "}"%char)).
  - destruct args as [|x args']; simpl; [lia|]. intros Hle.
    destruct (IH (String.length rest')) with (tpl := rest') (args := args')
      as [s ->]; [subst n; simpl; lia|done|lia|].
    by eexists.
  - intros Hle.
    destruct (IH (String.length (String c' rest')))
      with (tpl := String c' rest') (args := args) as [s ->];
      [subst n; simpl; lia|done|done|].
    by eexists.
Qed.

Lemma site_tag_ok L (i j : Z) :
  well_formed L → ∃ t, site_tag L (SInt i) (SInt j) = Ok t.
Proof.
  intros (Hx & Hy & _ & Hf). unfold site_tag, wrap, smod, mod_.
  destruct (decide (Lx L = 0)); [lia|].
  destruct (decide (Ly L = 0)); [lia|]. simpl.
  by apply format_ok.
Qed.

Lemma elem_of_range (a b k : Z) : k ∈ range a b ↔ a ≤ k < b.
Proof.
  unfold range. rewrite list_elem_of_fmap. split.
  - intros (n & -> & Hn). apply elem_of_seq in Hn. lia.
  - intros Hk. exists (Z.to_nat (k - a)). split; [lia|].
    apply elem_of_seq. lia.
Qed.

Lemma elem_of_range_down (a b k : Z) : k ∈ range_down a b ↔ b < k ≤ a.
Proof.
  unfold range_down. rewrite list_elem_of_fmap. split.
  - intros (n & -> & Hn). apply elem_of_seq in Hn. lia.
  - intros Hk. exists (Z.to_nat (a - k)). split; [lia|].
    apply elem_of_seq. lia.
Qed.

Lemma min2_le_max2 (r : Z * Z) : min2 r ≤ max2 r.
Proof. unfold min2, max2. lia. Qed.

(** ** Code that only calls the engine *)

Section CallsOnly.
Context {TN V : Type} `{!Engine TN V}.
Implicit Types Q : call → Prop.

Lemma calls_only_ret {A} Q (x : A) : calls_only (TN := TN) Q (ret x).
Proof.
  intros st. exists x, st, []. simpl. by rewrite app_nil_r.
Qed.

Lemma calls_only_lift {A} Q (r : result A) (x : A) :
  r = Ok x → calls_only (TN := TN) Q (lift r).
Proof.
  intros -> st. exists x, st, []. simpl. by rewrite app_nil_r.
Qed.

Lemma calls_only_bind_lift {A B} Q (r : result A) (x : A) (k : A → M TN B) :
  r = Ok x → calls_only Q (k x) → calls_only Q (bind (lift r) k).
Proof. intros -> Hk st. unfold bind, lift. apply Hk. Qed.

Lemma calls_only_bind {A B} Q (m : M TN A) (k : A → M TN B) :
  calls_only Q m → (∀ x, calls_only Q (k x)) → calls_only Q (bind m k).
Proof.
  intros Hm Hk st.
  destruct (Hm st) as (x & st1 & cs1 & E1 & T1 & Q1).
  destruct (Hk x st1) as (y & st2 & cs2 & E2 & T2 & Q2).
  exists y, st2, (cs1 ++ cs2). unfold bind. rewrite E1, E2.
  split; [done|]. split; [|by apply Forall_app].
  by rewrite T2, T1, fmap_app, app_assoc.
Qed.

Lemma calls_only_for {A} Q (xs : list A) (body : A → M TN unit) :
  (∀ x, x ∈ xs → calls_only Q (body x)) → calls_only Q (for_ xs body).
Proof.
  induction xs as [|x xs IH]; intros Hb; simpl.
  - apply calls_only_ret.
  - apply calls_only_bind; [apply Hb; by left|].
    intros _. apply IH. intros y Hy. apply Hb. by right.
Qed.

Lemma calls_only_engine Q (c : call) :
  Q c → calls_only (TN := TN) Q (engine c).
Proof.
  intros Hc st. exists tt, {| net := apply c (net st);
                              trace := trace st ++ [Call c] |}, [c].
  split; [done|]. split; [done|]. by apply Forall_singleton.
Qed.

Lemma calls_only_tag_count Q (t : string) :
  calls_only (TN := TN) Q (tag_count t).
Proof.
  intros st. exists (tag_map_len t (net st)), st, []. simpl.
  by rewrite app_nil_r.
Qed.

Lemma calls_only_mono {A} Q Q' (m : M TN A) :
  (∀ c, Q c → Q' c) → calls_only Q m → calls_only Q' m.
Proof.
  intros HQ Hm st. destruct (Hm st) as (x & st' & cs & E & T & F).
  exists x, st', cs. split; [done|]. split; [done|].
  eapply Forall_impl; eauto.
Qed.

End CallsOnly.

(** ** What the sweeps and the absorptions call *)

Section Confinement.
Context {TN V : Type} `{!Engine TN V}.
Variable L : lattice.
Hypothesis HL : well_formed L.
Implicit Types R : Z * Z → Prop.

Lemma opposite_row_sweep_ok sweep :
  sweep ∈ row_sweeps →
  ∃ o, getitem opposite_row_sweep sweep = Ok o ∧ o ∈ row_sweeps.
Proof.
  intros Hs. apply elem_of_cons in Hs as [->|Hs].
  - exists "left"%string. split; [reflexivity|]. by right; left.
  - apply list_elem_of_singleton in Hs as ->.
    exists "right"%string. split; [reflexivity|]. by left.
Qed.

Lemma opposite_column_sweep_ok sweep :
  sweep ∈ column_sweeps →
  ∃ o, getitem opposite_column_sweep sweep = Ok o ∧ o ∈ column_sweeps.
Proof.
  intros Hs. apply elem_of_cons in Hs as [->|Hs].
  - exists "down"%string. split; [reflexivity|]. by right; left.
  - apply list_elem_of_singleton in Hs as ->.
    exists "up"%string. split; [reflexivity|]. by left.
Qed.

Lemma canonize_row_calls R i sweep yr opts :
  sweep ∈ row_sweeps →
  (∀ j, min2 yr ≤ j ≤ max2 yr → R (i, j)) →
  calls_only (TN := TN) (confined L R)
             (canonize_row L i sweep (Some yr) opts).
Proof.
  intros Hs HR. unfold canonize_row.
  apply calls_only_bind; [by eapply calls_only_lift, check_opt_valid|].
  intros _. simpl.
  case_bool_decide; apply calls_only_for; intros j Hj;
    [apply elem_of_range in Hj|apply elem_of_range_down in Hj];
    apply calls_only_engine; split; apply HR; lia.
Qed.

Lemma compress_row_calls R i sweep yr opts :
  sweep ∈ row_sweeps →
  (∀ j, min2 yr ≤ j ≤ max2 yr → R (i, j)) →
  calls_only (TN := TN) (confined L R)
             (compress_row L i sweep (Some yr) opts).
Proof.
  intros Hs HR. unfold compress_row.
  apply calls_only_bind; [by eapply calls_only_lift, check_opt_valid|].
  intros _. simpl.
  case_bool_decide; apply calls_only_for; intros j Hj;
    [apply elem_of_range in Hj|apply elem_of_range_down in Hj];
    apply calls_only_engine; split; apply HR; lia.
Qed.

Lemma canonize_column_calls R j sweep xr opts :
  sweep ∈ column_sweeps →
  (∀ i, min2 xr ≤ i ≤ max2 xr → R (i, j)) →
  calls_only (TN := TN) (confined L R)
             (canonize_column L j sweep (Some xr) opts).
Proof.
  intros Hs HR. unfold canonize_column.
  apply calls_only_bind; [by eapply calls_only_lift, check_opt_valid|].
  intros _. simpl.
  case_bool_decide; apply calls_only_for; intros i Hi;
    [apply elem_of_range in Hi|apply elem_of_range_down in Hi];
    apply calls_only_engine; split; apply HR; lia.
Qed.

Lemma compress_column_calls R j sweep xr opts :
  sweep ∈ column_sweeps →
  (∀ i, min2 xr ≤ i ≤ max2 xr → R (i, j)) →
  calls_only (TN := TN) (confined L R)
             (compress_column L j sweep (Some xr) opts).
Proof.
  intros Hs HR. unfold compress_column.
  apply calls_only_bind; [by eapply calls_only_lift, check_opt_valid|].
  intros _. simpl.
  case_bool_decide; apply calls_only_for; intros i Hi;
    [apply elem_of_range in Hi|apply elem_of_range_down in Hi];
    apply calls_only_engine; split; apply HR; lia.
Qed.

(** The contraction of the site [(i, j)] into [(i', j')]. *)
Lemma absorb_pair_calls R (i j i' j' : Z) layer_tag :
  R (i, j) → R (i', j') →
  calls_only (TN := TN) (confined L R)
    (let+ tag1 := lift (site_tag L (SInt i) (SInt j)) in
     let+ tag2 := lift (site_tag L (SInt i') (SInt j')) in
     absorb_site tag1 tag2 layer_tag).
Proof.
  intros H1 H2.
  destruct (site_tag_ok L i j HL) as [t1 E1].
  destruct (site_tag_ok L i' j' HL) as [t2 E2].
  eapply calls_only_bind_lift; [exact E1|].
  eapply calls_only_bind_lift; [exact E2|].
  destruct layer_tag as [z|lt|]; apply calls_only_engine;
    (split; [by exists i, j|by exists i', j']).
Qed.

(** Dropping the inner site tag of [(i', j')] from the tensor at [(i, j)]. *)
Lemma drop_inner_calls R (i j i' j' : Z) :
  R (i, j) → R (i', j') →
  calls_only (TN := TN) (confined L R)
    (let+ inner_tag := lift (site_tag L (SInt i') (SInt j')) in
     let+ n := tag_count inner_tag in
     if (1 <? n)%nat then engine (Drop_tags (i, j) inner_tag) else ret tt).
Proof.
  intros H1 H2.
  destruct (site_tag_ok L i' j' HL) as [t E].
  eapply calls_only_bind_lift; [exact E|].
  apply calls_only_bind; [apply calls_only_tag_count|]. intros n.
  destruct (1 <? n)%nat; [|apply calls_only_ret].
  apply calls_only_engine. split; [done|by exists i', j'].
Qed.

End Confinement.

Section Absorptions.
Context {TN V : Type} `{!Engine TN V}.
Variable L : lattice.
Hypothesis HL : well_formed L.
Implicit Types R : Z * Z → Prop.

Ltac in_rect HR := apply HR; unfold rect, min2, max2 in *; simpl in *; lia.

Lemma bottom_single_calls R xr yr canonize sweep lt opts :
  sweep ∈ row_sweeps → passes ["i"; "sweep"] opts →
  (∀ coo, rect xr yr coo → R coo) →
  calls_only (TN := TN) (confined L R)
    (_contract_boundary_from_bottom_single L xr yr canonize sweep lt opts).
Proof.
  intros Hs Hopts HR.
  destruct (opposite_row_sweep_ok sweep Hs) as (o & Eo & Ho).
  unfold _contract_boundary_from_bottom_single.
  eapply calls_only_bind_lift; [exact Eo|].
  apply calls_only_for; intros i Hi%elem_of_range.
  apply calls_only_bind.
  { apply calls_only_for; intros j Hj%elem_of_range.
    apply absorb_pair_calls; [done|in_rect HR..]. }
  intros _. apply calls_only_bind.
  { destruct canonize; [|apply calls_only_ret].
    apply canonize_row_calls; [done..|]. intros j Hj. in_rect HR. }
  intros _. eapply calls_only_bind_lift; [by apply check_keywords_ok|].
  apply compress_row_calls; [done..|]. intros j Hj. in_rect HR.
Qed.

Lemma top_single_calls R xr yr canonize sweep lt opts :
  sweep ∈ row_sweeps → passes ["i"; "sweep"] opts →
  (∀ coo, rect xr yr coo → R coo) →
  calls_only (TN := TN) (confined L R)
    (_contract_boundary_from_top_single L xr yr canonize sweep lt opts).
Proof.
  intros Hs Hopts HR.
  destruct (opposite_row_sweep_ok sweep Hs) as (o & Eo & Ho).
  unfold _contract_boundary_from_top_single.
  eapply calls_only_bind_lift; [exact Eo|].
  apply calls_only_for; intros i Hi%elem_of_range_down.
  apply calls_only_bind.
  { apply calls_only_for; intros j Hj%elem_of_range.
    apply absorb_pair_calls; [done|in_rect HR..]. }
  intros _. apply calls_only_bind.
  { destruct canonize; [|apply calls_only_ret].
    apply canonize_row_calls; [done..|]. intros j Hj. in_rect HR. }
  intros _. eapply calls_only_bind_lift; [by apply check_keywords_ok|].
  apply compress_row_calls; [done..|]. intros j Hj. in_rect HR.
Qed.

Lemma left_single_calls R yr xr canonize sweep lt opts :
  sweep ∈ column_sweeps → passes ["j"; "sweep"] opts →
  (∀ coo, rect xr yr coo → R coo) →
  calls_only (TN := TN) (confined L R)
    (_contract_boundary_from_left_single L yr xr canonize sweep lt opts).
Proof.
  intros Hs Hopts HR.
  destruct (opposite_column_sweep_ok sweep Hs) as (o & Eo & Ho).
  unfold _contract_boundary_from_left_single.
  eapply calls_only_bind_lift; [exact Eo|].
  apply calls_only_for; intros j Hj%elem_of_range.
  apply calls_only_bind.
  { apply calls_only_for; intros i Hi%elem_of_range.
    apply absorb_pair_calls; [done|in_rect HR..]. }
  intros _. apply calls_only_bind.
  { destruct canonize; [|apply calls_only_ret].
    apply canonize_column_calls; [done..|]. intros i Hi. in_rect HR. }
  intros _. eapply calls_only_bind_lift; [by apply check_keywords_ok|].
  apply compress_column_calls; [done..|]. intros i Hi. in_rect HR.
Qed.

Lemma right_single_calls R yr xr canonize sweep lt opts :
  sweep ∈ column_sweeps → passes ["j"; "sweep"] opts →
  (∀ coo, rect xr yr coo → R coo) →
  calls_only (TN := TN) (confined L R)
    (_contract_boundary_from_right_single L yr xr canonize sweep lt opts).
Proof.
  intros Hs Hopts HR.
  destruct (opposite_column_sweep_ok sweep Hs) as (o & Eo & Ho).
  unfold _contract_boundary_from_right_single.
  eapply calls_only_bind_lift; [exact Eo|].
  apply calls_only_for; intros j Hj%elem_of_range_down.
  apply calls_only_bind.
  { apply calls_only_for; intros i Hi%elem_of_range.
    apply absorb_pair_calls; [done|in_rect HR..]. }
  intros _. apply calls_only_bind.
  { destruct canonize; [|apply calls_only_ret].
    apply canonize_column_calls; [done..|]. intros i Hi. in_rect HR. }
  intros _. eapply calls_only_bind_lift; [by apply check_keywords_ok|].
  apply compress_column_calls; [done..|]. intros i Hi. in_rect HR.
Qed.

Lemma bottom_multi_calls R xr yr lts canonize sweep opts :
  sweep ∈ row_sweeps → passes ["i"; "sweep"; "layer_tag"] opts →
  (∀ coo, rect xr yr coo → R coo) →
  calls_only (TN := TN) (confined L R)
    (_contract_boundary_from_bottom_multi L xr yr lts canonize sweep opts).
Proof.
  intros Hs Hopts HR. unfold _contract_boundary_from_bottom_multi.
  apply calls_only_for; intros i Hi%elem_of_range.
  apply calls_only_bind.
  { apply calls_only_for; intros j Hj%elem_of_range.
    apply calls_only_engine. in_rect HR. }
  intros _. apply calls_only_for; intros tag _.
  eapply calls_only_bind_lift.
  { apply check_keywords_ok. eapply passes_mono; [|exact Hopts]. by_decide. }
  apply calls_only_bind.
  { apply bottom_single_calls; [done| |].
    - eapply passes_mono; [|exact Hopts]. by_decide.
    - intros [x y] Hc. in_rect HR. }
  intros _. apply calls_only_for; intros j Hj%elem_of_range.
  apply drop_inner_calls; [done|in_rect HR..].
Qed.

Lemma top_multi_calls R xr yr lts canonize sweep opts :
  sweep ∈ row_sweeps → passes ["i"; "sweep"; "layer_tag"] opts →
  (∀ coo, rect xr yr coo → R coo) →
  calls_only (TN := TN) (confined L R)
    (_contract_boundary_from_top_multi L xr yr lts canonize sweep opts).
Proof.
  intros Hs Hopts HR. unfold _contract_boundary_from_top_multi.
  apply calls_only_for; intros i Hi%elem_of_range_down.
  apply calls_only_bind.
  { apply calls_only_for; intros j Hj%elem_of_range.
    apply calls_only_engine. in_rect HR. }
  intros _. apply calls_only_for; intros tag _.
  eapply calls_only_bind_lift.
  { apply check_keywords_ok. eapply passes_mono; [|exact Hopts]. by_decide. }
  apply calls_only_bind.
  { apply top_single_calls; [done| |].
    - eapply passes_mono; [|exact Hopts]. by_decide.
    - intros [x y] Hc. in_rect HR. }
  intros _. apply calls_only_for; intros j Hj%elem_of_range.
  apply drop_inner_calls; [done|in_rect HR..].
Qed.

Lemma left_multi_calls R yr xr lts canonize sweep opts :
  sweep ∈ column_sweeps → passes ["j"; "sweep"; "layer_tag"] opts →
  (∀ coo, rect xr yr coo → R coo) →
  calls_only (TN := TN) (confined L R)
    (_contract_boundary_from_left_multi L yr xr lts canonize sweep opts).
Proof.
  intros Hs Hopts HR. unfold _contract_boundary_from_left_multi.
  apply calls_only_for; intros j Hj%elem_of_range.
  apply calls_only_bind.
  { apply calls_only_for; intros i Hi%elem_of_range.
    apply calls_only_engine. in_rect HR. }
  intros _. apply calls_only_for; intros tag _.
  eapply calls_only_bind_lift.
  { apply check_keywords_ok. eapply passes_mono; [|exact Hopts]. by_decide. }
  apply calls_only_bind.
  { apply left_single_calls; [done| |].
    - eapply passes_mono; [|exact Hopts]. by_decide.
    - intros [x y] Hc. in_rect HR. }
  intros _. apply calls_only_for; intros i Hi%elem_of_range.
  apply drop_inner_calls; [done|in_rect HR..].
Qed.

Lemma right_multi_calls R yr xr lts canonize sweep opts :
  sweep ∈ column_sweeps → passes ["j"; "sweep"; "layer_tag"] opts →
  (∀ coo, rect xr yr coo → R coo) →
  calls_only (TN := TN) (confined L R)
    (_contract_boundary_from_right_multi L yr xr lts canonize sweep opts).
Proof.
  intros Hs Hopts HR. unfold _contract_boundary_from_right_multi.
  apply calls_only_for; intros j Hj%elem_of_range_down.
  apply calls_only_bind.
  { apply calls_only_for; intros i Hi%elem_of_range.
    apply calls_only_engine. in_rect HR. }
  intros _. apply calls_only_for; intros tag _.
  eapply calls_only_bind_lift.
  { apply check_keywords_ok. eapply passes_mono; [|exact Hopts]. by_decide. }
  apply calls_only_bind.
  { apply right_single_calls; [done| |].
    - eapply passes_mono; [|exact Hopts]. by_decide.
    - intros [x y] Hc. in_rect HR. }
  intros _. apply calls_only_for; intros i Hi%elem_of_range.
  apply drop_inner_calls; [done|in_rect HR..].
Qed.

(** An in-place directional contraction: one entry in the trace, then
    engine calls. *)
Lemma in_place_runs Q (d : side) xr yr (body : M TN unit) (tn : netstate TN) :
  calls_only Q body →
  ∃ tn' cs,
    on_self_or_copy true (enter d xr yr ;; body) tn = (Ok tn', tn')
    ∧ trace tn' = trace tn ++ Boundary_from d xr yr :: (Call <$> cs)
    ∧ Forall Q cs.
Proof.
  intros Hb. unfold on_self_or_copy, bind, enter.
  destruct (Hb {| net := net tn;
                  trace := trace tn ++ [Boundary_from d xr yr] |})
    as ([] & tn' & cs & E & T & F).
  rewrite E. exists tn', cs. split; [done|]. split; [|done].
  rewrite T. simpl. by rewrite <- app_assoc.
Qed.

Lemma from_bottom_runs R xr yr canonize sweep lts opts (tn : netstate TN) :
  sweep ∈ row_sweeps → forwardable opts →
  (∀ coo, rect xr yr coo → R coo) →
  ∃ tn' cs,
    contract_boundary_from_bottom_ L xr (Some yr) canonize sweep lts opts tn
      = (Ok tn', tn')
    ∧ trace tn' = trace tn ++ Boundary_from From_bottom xr yr :: (Call <$> cs)
    ∧ Forall (confined L R) cs.
Proof.
  intros Hs Hopts HR. apply in_place_runs.
  destruct lts.
  - apply bottom_multi_calls; [done| |done].
    eapply passes_mono; [|exact Hopts]. by_decide.
  - apply bottom_single_calls; [done| |done].
    apply passes_without_layer_tag.
    eapply passes_mono; [|exact Hopts]. by_decide.
Qed.

Lemma from_top_runs R xr yr canonize sweep lts opts (tn : netstate TN) :
  sweep ∈ row_sweeps → forwardable opts →
  (∀ coo, rect xr yr coo → R coo) →
  ∃ tn' cs,
    contract_boundary_from_top_ L xr (Some yr) canonize sweep lts opts tn
      = (Ok tn', tn')
    ∧ trace tn' = trace tn ++ Boundary_from From_top xr yr :: (Call <$> cs)
    ∧ Forall (confined L R) cs.
Proof.
  intros Hs Hopts HR. apply in_place_runs.
  destruct lts.
  - apply top_multi_calls; [done| |done].
    eapply passes_mono; [|exact Hopts]. by_decide.
  - apply top_single_calls; [done| |done].
    apply passes_without_layer_tag.
    eapply passes_mono; [|exact Hopts]. by_decide.
Qed.

Lemma from_left_runs R yr xr canonize sweep lts opts (tn : netstate TN) :
  sweep ∈ column_sweeps → forwardable opts →
  (∀ coo, rect xr yr coo → R coo) →
  ∃ tn' cs,
    contract_boundary_from_left_ L yr (Some xr) canonize sweep lts opts tn
      = (Ok tn', tn')
    ∧ trace tn' = trace tn ++ Boundary_from From_left xr yr :: (Call <$> cs)
    ∧ Forall (confined L R) cs.
Proof.
  intros Hs Hopts HR. apply in_place_runs.
  destruct lts.
  - apply left_multi_calls; [done| |done].
    eapply passes_mono; [|exact Hopts]. by_decide.
  - apply left_single_calls; [done| |done].
    apply passes_without_layer_tag.
    eapply passes_mono; [|exact Hopts]. by_decide.
Qed.

Lemma from_right_runs R yr xr canonize sweep lts opts (tn : netstate TN) :
  sweep ∈ column_sweeps → forwardable opts →
  (∀ coo, rect xr yr coo → R coo) →
  ∃ tn' cs,
    contract_boundary_from_right_ L yr (Some xr) canonize sweep lts opts tn
      = (Ok tn', tn')
    ∧ trace tn' = trace tn ++ Boundary_from From_right xr yr :: (Call <$> cs)
    ∧ Forall (confined L R) cs.
Proof.
  intros Hs Hopts HR. apply in_place_runs.
  destruct lts.
  - apply right_multi_calls; [done| |done].
    eapply passes_mono; [|exact Hopts]. by_decide.
  - apply right_single_calls; [done| |done].
    apply passes_without_layer_tag.
    eapply passes_mono; [|exact Hopts]. by_decide.
Qed.

End Absorptions.

(** ** One iteration of the scheduler *)

Lemma direction_cases (d : string) :
  d ∈ directions → d = "b"%string ∨ d = "l"%string ∨ d = "t"%string ∨ d = "r"%string.
Proof.
  unfold directions. rewrite !elem_of_cons, elem_of_nil. tauto.
Qed.

Section Iteration.
Context {TN V : Type} `{!Engine TN V}.
Variable L : lattice.
Variable a : cb_args.

Lemma advance_invalid stop d fs (tn : netstate TN) :
  d ∉ directions → advance L a stop d fs tn = (Raise ValueError, tn).
Proof.
  intros Hd. unfold advance.
  rewrite !bool_decide_eq_false_2; [done|..];
    intros ->; apply Hd; unfold directions; set_solver.
Qed.

Lemma advance_stops stop d fs (tn : netstate TN) :
  d ∈ directions → can_advance stop d fs = false →
  advance L a stop d fs tn = (Ok (reach d fs), tn).
Proof.
  intros Hd. unfold advance, can_advance.
  destruct (direction_cases d Hd) as [-> | [-> | [-> | ->]]]; simpl;
    by intros ->.
Qed.

Lemma advance_moves R stop d fs (tn : netstate TN) :
  well_formed L → forwardable (compress_opts a) →
  d ∈ directions → can_advance stop d fs = true →
  (∀ coo, slab d fs coo → R coo) →
  ∃ tn' sd xr yr cs,
    advance L a stop d fs tn = (Ok (move d fs), tn')
    ∧ trace tn' = trace tn ++ Boundary_from sd xr yr :: (Call <$> cs)
    ∧ Forall (confined L R) cs.
Proof.
  intros HL Hopts Hd.
  assert (Hk : check_keywords ["xrange"; "yrange"; "compress_sweep"]
                 (compress_opts a) = Ok tt).
  { apply check_keywords_ok. eapply passes_mono; [|exact Hopts]. by_decide. }
  unfold advance, can_advance, slab, move.
  destruct (direction_cases d Hd) as [-> | [-> | [-> | ->]]]; simpl;
    intros -> HR.
  - destruct (from_bottom_runs L HL R (f_bottom fs, f_bottom fs + 1)
                (f_left fs, f_right fs) (default true (canonize a)) "left"
                (layer_tags a) (compress_opts a) tn)
      as (tn' & cs & E & T & F); [by right; left|done|done|].
    exists tn', From_bottom, (f_bottom fs, f_bottom fs + 1),
      (f_left fs, f_right fs), cs.
    unfold bind, lift. by rewrite Hk, E.
  - destruct (from_left_runs L HL R (f_left fs, f_left fs + 1)
                (f_bottom fs, f_top fs) (default true (canonize a)) "up"
                (layer_tags a) (compress_opts a) tn)
      as (tn' & cs & E & T & F); [by left|done|done|].
    exists tn', From_left, (f_bottom fs, f_top fs),
      (f_left fs, f_left fs + 1), cs.
    unfold bind, lift. by rewrite Hk, E.
  - destruct (from_top_runs L HL R (f_top fs, f_top fs - 1)
                (f_left fs, f_right fs) (default true (canonize a)) "right"
                (layer_tags a) (compress_opts a) tn)
      as (tn' & cs & E & T & F); [by left|done|done|].
    exists tn', From_top, (f_top fs, f_top fs - 1),
      (f_left fs, f_right fs), cs.
    unfold bind, lift. by rewrite Hk, E.
  - destruct (from_right_runs L HL R (f_right fs, f_right fs - 1)
                (f_bottom fs, f_top fs) (default true (canonize a)) "down"
                (layer_tags a) (compress_opts a) tn)
      as (tn' & cs & E & T & F); [by right; left|done|done|].
    exists tn', From_right, (f_bottom fs, f_top fs),
      (f_right fs, f_right fs - 1), cs.
    unfold bind, lift. by rewrite Hk, E.
Qed.

End Iteration.

(** ** The loop *)

Section Loop.
Context {TN V : Type} `{!Engine TN V}.
Variable L : lattice.
Variable a : cb_args.

Lemma loop_exited n stop how fs (tn : netstate TN) :
  loop L a n stop (Exited how fs) tn = (Ok (Exited (V := V) how fs), tn).
Proof. by destruct n. Qed.

Lemma loop_succ n stop pending fs (tn : netstate TN) :
  loop L a (S n) stop (Running pending fs) tn
  = bind (iteration L a stop pending fs) (loop L a n stop) tn.
Proof. reflexivity. Qed.

Lemma loop_add n m stop ls (tn : netstate TN) :
  loop L a (n + m) stop ls tn
  = bind (loop L a n stop ls) (loop L a m stop) tn.
Proof.
  revert ls tn. induction n as [|n IH]; intros ls tn; [done|].
  destruct ls as [pending fs|how fs].
  - change (S n + m)%nat with (S (n + m)).
    rewrite loop_succ. unfold bind. rewrite loop_succ. unfold bind.
    destruct (iteration L a stop pending fs tn) as [[ls'|e] tn']; [|done].
    rewrite IH. done.
  - rewrite loop_exited. unfold bind. rewrite loop_exited.
    by rewrite loop_exited.
Qed.

(** Once the loop has ended, more fuel changes nothing. *)
Lemma loop_enough n fuel stop ls how fs (tn tn' : netstate TN) :
  loop L a n stop ls tn = (Ok (Exited how fs), tn') → (n ≤ fuel)%nat →
  loop L a fuel stop ls tn = (Ok (Exited how fs), tn').
Proof.
  intros E Hle. replace fuel with (n + (fuel - n))%nat by lia.
  rewrite loop_add. unfold bind. rewrite E. apply loop_exited.
Qed.

Lemma next_direction_valid (pending : list string) :
  sequence a ≠ [] →
  Forall (fun d => d ∈ directions) (sequence a) →
  Forall (fun d => d ∈ directions) pending →
  ∃ d rest,
    next_direction (sequence a) pending = Some (d, rest)
    ∧ d ∈ directions ∧ Forall (fun d => d ∈ directions) rest.
Proof.
  intros Hne Hseq Hp. unfold next_direction.
  destruct pending as [|d rest].
  - destruct (sequence a) as [|d rest]; [done|].
    exists d, rest. apply Forall_cons in Hseq as [? ?]. done.
  - exists d, rest. apply Forall_cons in Hp as [? ?]. done.
Qed.

Lemma can_advance_free d fs :
  d ∈ directions → can_advance None d fs = true.
Proof.
  intros Hd. unfold can_advance.
  by destruct (direction_cases d Hd) as [-> | [-> | [-> | ->]]].
Qed.

(** An iteration without protected region: one absorption, then the
    thinness test. *)
Lemma iteration_free pending d rest fs (tn : netstate TN) :
  well_formed L → forwardable (compress_opts a) →
  next_direction (sequence a) pending = Some (d, rest) →
  d ∈ directions →
  ∃ tn' evs,
    trace tn' = trace tn ++ evs ∧ absorptions evs = 1%nat
    ∧ iteration L a None pending fs tn
      = (Ok (if thin_strip (max_separation a) (move d fs)
             then Exited (Returned (contract_all (net tn'))) (move d fs)
             else Running rest (move d fs)), tn').
Proof.
  intros HL Hopts Hn Hd.
  destruct (advance_moves L a (fun _ => True) None d fs tn HL Hopts Hd
              (can_advance_free d fs Hd))
    as (tn' & sd & xr & yr & cs & E & T & F); [done|].
  exists tn', (Boundary_from sd xr yr :: (Call <$> cs)).
  split; [done|]. split.
  - unfold absorptions. rewrite filter_cons_True by done. simpl. f_equal.
    clear. induction cs as [|c cs IH]; [done|].
    simpl. by rewrite filter_cons_False by done.
  - unfold iteration. rewrite Hn. unfold bind. rewrite E.
    by destruct (thin_strip (max_separation a) (move d fs)).
Qed.

Lemma absorptions_app evs evs' :
  absorptions (evs ++ evs') = (absorptions evs + absorptions evs')%nat.
Proof. unfold absorptions. by rewrite filter_app, length_app. Qed.

Lemma budget_move d fs :
  d ∈ directions →
  thin_strip (max_separation a) (move d fs) = false →
  budget (max_separation a) fs
  = S (budget (max_separation a) (move d fs)).
Proof.
  intros Hd. unfold thin_strip, budget, move.
  destruct (direction_cases d Hd) as [-> | [-> | [-> | ->]]]; simpl;
    intros [H1 H2]%orb_false_elim;
    apply Z.leb_gt in H1; apply Z.leb_gt in H2; lia.
Qed.

(** A sweep without protected region, from any frontier: it ends by the
    [return] in the loop, at the first iteration that leaves the
    frontier thin, within [budget] iterations, one absorption each. *)
Lemma free_sweep (m : nat) :
  well_formed L → forwardable (compress_opts a) → sequence a ≠ [] →
  Forall (fun d => d ∈ directions) (sequence a) →
  ∀ pending fs (tn : netstate TN),
    Forall (fun d => d ∈ directions) pending →
    (budget (max_separation a) fs ≤ m)%nat →
    ∃ n fs' tn' evs,
      (1 ≤ n ≤ budget (max_separation a) fs)%nat
      ∧ loop L a n None (Running pending fs) tn
        = (Ok (Exited (Returned (contract_all (net tn'))) fs'), tn')
      ∧ thin_strip (max_separation a) fs' = true
      ∧ trace tn' = trace tn ++ evs
      ∧ absorptions evs = n
      ∧ ∀ k, (k < n)%nat →
          ∃ p fs_k tn_k,
            loop L a k None (Running pending fs) tn
            = (Ok (Running p fs_k), tn_k)
            ∧ ((1 ≤ k)%nat → thin_strip (max_separation a) fs_k = false).
Proof.
  intros HL Hopts Hne Hseq.
  induction m as [|m IH]; intros pending fs tn Hp Hm.
  { unfold budget in Hm. lia. }
  destruct (next_direction_valid pending Hne Hseq Hp)
    as (d & rest & Hn & Hd & Hrest).
  destruct (iteration_free pending d rest fs tn HL Hopts Hn Hd)
    as (tn1 & evs1 & T1 & A1 & E1).
  destruct (thin_strip (max_separation a) (move d fs)) eqn:Hthin.
  - exists 1%nat, (move d fs), tn1, evs1.
    split; [unfold budget; lia|].
    split; [by rewrite loop_succ; unfold bind; rewrite E1|].
    split; [done|]. split; [done|]. split; [done|].
    intros k Hk. assert (k = 0)%nat as -> by lia.
    exists pending, fs, tn. split; [done|lia].
  - pose proof (budget_move d fs Hd Hthin) as Hb.
    destruct (IH rest (move d fs) tn1 Hrest)
      as (n & fs' & tn' & evs & Hn' & E & Hthin' & T & A & Hk); [lia|].
    exists (S n), fs', tn', (evs1 ++ evs).
    split; [lia|].
    split; [by rewrite loop_succ; unfold bind; rewrite E1|].
    split; [done|].
    split; [by rewrite T, T1, app_assoc|].
    split; [rewrite absorptions_app; lia|].
    intros [|k] Hlt.
    + exists pending, fs, tn. split; [done|lia].
    + rewrite loop_succ. unfold bind. rewrite E1.
      destruct (Hk k) as (p & fs_k & tn_k & Ek & Hthin_k); [lia|].
      exists p, fs_k, tn_k. split; [done|]. intros _.
      destruct k as [|k]; [|apply Hthin_k; lia].
      simpl in Ek. injection Ek as <- <- <-. done.
Qed.

End Loop.

(** ** Sweeps without protected region *)

Section FreeSweep.
Context {TN V : Type} `{!Engine TN V}.
Variable L : lattice.
Variable a : cb_args.

(** [contract_boundary] once the loop is known to end by its [return]. *)
Lemma contract_boundary_returned n fuel stop v fs (self tn' : netstate TN) :
  stop_region a = Ok stop →
  loop L a n stop (Running (sequence a) (initial L a)) (working a self)
    = (Ok (Exited (Returned v) fs), tn') →
  (n ≤ fuel)%nat →
  contract_boundary L a fuel self
    = Some (Ok (Contraction v), if inplace a then tn' else self).
Proof.
  intros Hs E Hle. unfold contract_boundary. rewrite Hs.
  fold (working a self). by rewrite (loop_enough L a n fuel _ _ _ _ _ _ E Hle).
Qed.

(** ... by its [break], or because [cycle] had nothing to give. *)
Lemma contract_boundary_broke n fuel stop how fs (self tn' : netstate TN) :
  stop_region a = Ok stop →
  loop L a n stop (Running (sequence a) (initial L a)) (working a self)
    = (Ok (Exited how fs), tn') →
  (∀ v, how ≠ Returned v) →
  (n ≤ fuel)%nat →
  contract_boundary L a fuel self
    = Some (Ok (Network tn'), if inplace a then tn' else self).
Proof.
  intros Hs E Hhow Hle. unfold contract_boundary. rewrite Hs.
  fold (working a self). rewrite (loop_enough L a n fuel _ _ _ _ _ _ E Hle).
  destruct how; [by destruct (Hhow v)|done..].
Qed.

Lemma stop_region_free : around a = None → stop_region a = Ok None.
Proof. intros H. unfold stop_region. by rewrite H. Qed.

End FreeSweep.

(** C1. Without a protected region ([around=None]), on a lattice whose
    site tags can be formed, for a non-empty sequence of direction
    letters and keyword options that get through to the engine,
    [contract_boundary] performs directional absorptions, one per
    iteration, until for the first time the frontier left by an absorption
    is thin ([top - bottom <= s] or [right - left <= s]); at that iteration
    it stops sweeping and returns the contraction of all the tensors that
    remain, not the network.  This holds for every [max_separation], in
    particular for every [s >= 0]. *)
Theorem free_sweep_returns_contraction
    {TN V : Type} `{!Engine TN V} (L : lattice) (a : cb_args)
    (self : netstate TN) :
  well_formed L → forwardable (compress_opts a) → around a = None →
  sequence a ≠ [] → Forall (fun d => d ∈ directions) (sequence a) →
  ∃ (n : nat) (fs : frontier) (tn' : netstate TN),
    (1 ≤ n)%nat
    ∧ loop L a n None (Running (sequence a) (initial L a)) (working a self)
      = (Ok (Exited (Returned (contract_all (net tn'))) fs), tn')
    ∧ thin_strip (max_separation a) fs = true
    ∧ (∀ k, (1 ≤ k < n)%nat →
         ∃ p fs_k tn_k,
           loop L a k None (Running (sequence a) (initial L a))
                (working a self)
           = (Ok (Running p fs_k), tn_k)
           ∧ thin_strip (max_separation a) fs_k = false)
    ∧ absorptions (drop (length (trace (working a self))) (trace tn')) = n
    ∧ ∀ fuel, (n ≤ fuel)%nat →
        contract_boundary L a fuel self
        = Some (Ok (Contraction (contract_all (net tn'))),
                if inplace a then tn' else self).
Proof.
  intros HL Hopts Ha Hne Hseq.
  destruct (free_sweep L a _ HL Hopts Hne Hseq (sequence a) (initial L a)
              (working a self) Hseq (le_n _))
    as (n & fs & tn' & evs & Hn & E & Hthin & T & A & Hk).
  exists n, fs, tn'. split; [lia|]. split; [done|]. split; [done|].
  split.
  { intros k Hlt. destruct (Hk k) as (p & fs_k & tn_k & Ek & Ht); [lia|].
    exists p, fs_k, tn_k. split; [done|]. apply Ht. lia. }
  split; [by rewrite T, drop_app_length|].
  intros fuel Hle.
  apply (contract_boundary_returned L a n fuel None _ fs); [|done..].
  by apply stop_region_free.
Qed.

Lemma free_sweep_returns_contraction_witness :
  ∃ (n : nat) (fs : frontier) (tn' : netstate (list call)),
    (1 ≤ n)%nat
    ∧ loop (Engine0 := recorder) (default_lattice 4 4) (args_free 1) n None
        (Running directions (initial (default_lattice 4 4) (args_free 1)))
        fresh
      = (Ok (Exited (Returned (length (net tn'))) fs), tn')
    ∧ thin_strip 1 fs = true
    ∧ (∀ k, (1 ≤ k < n)%nat →
         ∃ p fs_k tn_k,
           loop (Engine0 := recorder) (default_lattice 4 4) (args_free 1) k
             None
             (Running directions
                (initial (default_lattice 4 4) (args_free 1)))
             fresh
           = (Ok (Running p fs_k), tn_k)
           ∧ thin_strip 1 fs_k = false)
    ∧ absorptions (drop 0 (trace tn')) = n
    ∧ ∀ fuel, (n ≤ fuel)%nat →
        contract_boundary (Engine0 := recorder) (default_lattice 4 4)
          (args_free 1) fuel fresh
        = Some (Ok (Contraction (length (net tn'))), fresh).
Proof.
  apply (free_sweep_returns_contraction (Engine0 := recorder)
           (default_lattice 4 4) (args_free 1) fresh).
  - repeat split; simpl; first [done | lia].
  - by_decide.
  - reflexivity.
  - discriminate.
  - unfold directions. repeat constructor.
Defined.

(** The bound [(Lx - s) + (Ly - s)] of C4 as it is stated fails where the
    lattice is thin from the start: the loop tests thinness only after an
    absorption, so a 2 x 2 lattice with [max_separation = 2] takes one
    absorption although [(2 - 2) + (2 - 2) = 0]. *)
Lemma step_bound_exceeded_on_thin_lattice :
  ∃ (v : nat) (fs : frontier) (tn' : netstate (list call)),
    loop (Engine0 := recorder) (default_lattice 2 2) (args_free 2) 1 None
      (Running directions (initial (default_lattice 2 2) (args_free 2)))
      fresh
    = (Ok (Exited (Returned v) fs), tn')
    ∧ absorptions (trace tn') = 1%nat
    ∧ 1 ≤ max_separation (args_free 2)
    ∧ (Lx (default_lattice 2 2) - 2) + (Ly (default_lattice 2 2) - 2)
      < Z.of_nat (absorptions (trace tn')).
Proof.
  eexists _, _, _. split; [vm_compute; reflexivity|].
  split; [vm_compute; reflexivity|]. split; [simpl; lia|].
  vm_compute. reflexivity.
Qed.

(** C4 (amended). Without a protected region, from the default borders of
    an [Lx] x [Ly] lattice, for a non-empty sequence of direction letters
    and keyword options that get through to the engine,
    [contract_boundary] terminates, and the number of directional
    absorptions it performs is at least one and at most
    [max 1 (Lx + Ly - 2 s - 3)], hence at most
    [max 1 ((Lx - s) + (Ly - s))]. *)
Theorem free_sweep_step_bound
    {TN V : Type} `{!Engine TN V} (L : lattice) (a : cb_args)
    (self : netstate TN) :
  well_formed L → forwardable (compress_opts a) → around a = None →
  sequence a ≠ [] → Forall (fun d => d ∈ directions) (sequence a) →
  bottom a = None → top a = None → left a = None → right a = None →
  ∃ (n : nat) (fs : frontier) (tn' : netstate TN),
    (1 ≤ n)%nat
    ∧ Z.of_nat n ≤ Z.max 1 (Lx L + Ly L - 2 * max_separation a - 3)
    ∧ Z.of_nat n
      ≤ Z.max 1 ((Lx L - max_separation a) + (Ly L - max_separation a))
    ∧ loop L a n None (Running (sequence a) (initial L a)) (working a self)
      = (Ok (Exited (Returned (contract_all (net tn'))) fs), tn')
    ∧ absorptions (drop (length (trace (working a self))) (trace tn')) = n
    ∧ ∀ fuel, (n ≤ fuel)%nat →
        contract_boundary L a fuel self
        = Some (Ok (Contraction (contract_all (net tn'))),
                if inplace a then tn' else self).
Proof.
  intros HL Hopts Ha Hne Hseq Hb Ht Hl Hr.
  destruct (free_sweep L a _ HL Hopts Hne Hseq (sequence a) (initial L a)
              (working a self) Hseq (le_n _))
    as (n & fs & tn' & evs & Hn & E & Hthin & T & A & Hk).
  assert (Hbudget : Z.of_nat (budget (max_separation a) (initial L a))
                    = Z.max 1 (Lx L + Ly L - 2 * max_separation a - 3)).
  { unfold budget, initial. rewrite Hb, Ht, Hl, Hr. simpl. lia. }
  exists n, fs, tn'. split; [lia|]. split; [lia|]. split; [lia|].
  split; [done|]. split; [by rewrite T, drop_app_length|].
  intros fuel Hle.
  apply (contract_boundary_returned L a n fuel None _ fs); [|done..].
  by apply stop_region_free.
Qed.

Lemma free_sweep_step_bound_witness :
  ∃ (n : nat) (fs : frontier) (tn' : netstate (list call)),
    (1 ≤ n)%nat
    ∧ Z.of_nat n ≤ Z.max 1 (6 + 6 - 2 * 1 - 3)
    ∧ Z.of_nat n ≤ Z.max 1 ((6 - 1) + (6 - 1))
    ∧ loop (Engine0 := recorder) (default_lattice 6 6) (args_free 1) n None
        (Running directions (initial (default_lattice 6 6) (args_free 1)))
        fresh
      = (Ok (Exited (Returned (length (net tn'))) fs), tn')
    ∧ absorptions (drop 0 (trace tn')) = n
    ∧ ∀ fuel, (n ≤ fuel)%nat →
        contract_boundary (Engine0 := recorder) (default_lattice 6 6)
          (args_free 1) fuel fresh
        = Some (Ok (Contraction (length (net tn'))), fresh).
Proof.
  apply (free_sweep_step_bound (Engine0 := recorder)
           (default_lattice 6 6) (args_free 1) fresh);
    try reflexivity.
  - repeat split; simpl; first [done | lia].
  - by_decide.
  - discriminate.
  - unfold directions. repeat constructor.
Defined.

(** ** Configuration errors *)

Section Rejection.
Context {TN V : Type} `{!Engine TN V}.
Variable L : lattice.
Variable a : cb_args.

Lemma iteration_invalid stop pending d rest fs (tn : netstate TN) :
  d ∉ directions →
  next_direction (sequence a) pending = Some (d, rest) →
  iteration L a stop pending fs tn = (Raise ValueError, tn).
Proof.
  intros Hd Hn. unfold iteration. rewrite Hn. unfold bind.
  by rewrite advance_invalid.
Qed.

Lemma contract_boundary_invalid stop k fuel pending d rest fs
    (self tn : netstate TN) :
  d ∉ directions →
  stop_region a = Ok stop →
  loop L a k stop (Running (sequence a) (initial L a)) (working a self)
    = (Ok (Running pending fs), tn) →
  next_direction (sequence a) pending = Some (d, rest) →
  (k < fuel)%nat →
  contract_boundary L a fuel self
    = Some (Raise ValueError, if inplace a then tn else self).
Proof.
  intros Hd Hs E Hn Hlt. unfold contract_boundary. rewrite Hs.
  fold (working a self).
  replace fuel with (k + S (fuel - k - 1))%nat by lia.
  rewrite loop_add. unfold bind at 1. rewrite E, loop_succ.
  unfold bind. by rewrite (iteration_invalid _ _ d rest).
Qed.

End Rejection.

(** C6. A sweep direction outside the recognised set (['right'], ['left']
    for [canonize_row] and [compress_row]; ['up'], ['down'] for
    [canonize_column] and [compress_column]) raises [ValueError] and leaves
    the network exactly as it was; and [contract_boundary] raises
    [ValueError] at the iteration that takes from the sequence a letter
    outside ['b'], ['l'], ['t'], ['r'], keeping what the earlier iterations
    did to the working network. *)
Theorem invalid_direction_is_rejected
    {TN V : Type} `{!Engine TN V} (L : lattice) (a : cb_args)
    (sweep direction : string) :
  (sweep ∉ row_sweeps →
     ∀ i yrange opts (st : netstate TN),
       canonize_row L i sweep yrange opts st = (Raise ValueError, st)
       ∧ compress_row L i sweep yrange opts st = (Raise ValueError, st))
  ∧ (sweep ∉ column_sweeps →
     ∀ j xrange opts (st : netstate TN),
       canonize_column L j sweep xrange opts st = (Raise ValueError, st)
       ∧ compress_column L j sweep xrange opts st = (Raise ValueError, st))
  ∧ (direction ∉ directions →
     ∀ stop pending rest fs (tn : netstate TN),
       next_direction (sequence a) pending = Some (direction, rest) →
       iteration L a stop pending fs tn = (Raise ValueError, tn))
  ∧ (direction ∉ directions →
     ∀ stop k fuel pending rest fs (self tn : netstate TN),
       stop_region a = Ok stop →
       loop L a k stop (Running (sequence a) (initial L a)) (working a self)
         = (Ok (Running pending fs), tn) →
       next_direction (sequence a) pending = Some (direction, rest) →
       (k < fuel)%nat →
       contract_boundary L a fuel self
         = Some (Raise ValueError, if inplace a then tn else self)).
Proof.
  split; [|split; [|split]].
  - intros Hs i yrange opts st.
    by rewrite canonize_row_invalid, compress_row_invalid.
  - intros Hs j xrange opts st.
    by rewrite canonize_column_invalid, compress_column_invalid.
  - intros Hd stop pending rest fs tn Hn. by eapply iteration_invalid.
  - intros Hd stop k fuel pending rest fs self tn Hs E Hn Hlt.
    by eapply contract_boundary_invalid.
Qed.

Lemma invalid_direction_is_rejected_witness :
  (compress_row (Engine0 := recorder) (default_lattice 3 3) 1 "up"
     None ∅ fresh = (Raise ValueError, fresh))
  ∧ (canonize_column (Engine0 := recorder) (default_lattice 3 3) 1 "left"
       None ∅ fresh = (Raise ValueError, fresh))
  ∧ (contract_boundary (Engine0 := recorder) (default_lattice 4 4)
       (args_sequence ["b"; "x"]) 5 fresh
     = Some (Raise ValueError, fresh)).
Proof.
  pose proof (invalid_direction_is_rejected (Engine0 := recorder)
                (default_lattice 3 3) (args_sequence ["b"; "x"]) "up" "x")
    as (Hrow & _ & _ & _).
  pose proof (invalid_direction_is_rejected (Engine0 := recorder)
                (default_lattice 3 3) (args_sequence ["b"; "x"]) "left" "x")
    as (_ & Hcol & _ & _).
  pose proof (invalid_direction_is_rejected (Engine0 := recorder)
                (default_lattice 4 4) (args_sequence ["b"; "x"]) "up" "x")
    as (_ & _ & _ & Hseq).
  split; [|split].
  - apply Hrow. by_decide.
  - apply Hcol. by_decide.
  - eapply (Hseq ltac:(by_decide) None 1%nat 5%nat).
    + reflexivity.
    + vm_compute. reflexivity.
    + reflexivity.
    + lia.
Defined.

(** ** The frontier along a sweep *)

Lemma foldl_min_le (x : Z) (xs : list Z) : foldl Z.min x xs ≤ x.
Proof.
  revert x. induction xs as [|y xs IH]; intros x; simpl; [lia|].
  specialize (IH (Z.min x y)). lia.
Qed.

Lemma foldl_max_ge (x : Z) (xs : list Z) : x ≤ foldl Z.max x xs.
Proof.
  revert x. induction xs as [|y xs IH]; intros x; simpl; [lia|].
  specialize (IH (Z.max x y)). lia.
Qed.

Lemma min_of_le_max_of (xs : list Z) (lo hi : Z) :
  min_of xs = Ok lo → max_of xs = Ok hi → lo ≤ hi.
Proof.
  destruct xs as [|x xs]; simpl; [discriminate|].
  intros [= <-] [= <-].
  pose proof (foldl_min_le x xs). pose proof (foldl_max_ge x xs). lia.
Qed.

Lemma stop_of_ordered (coos : list (Z * Z)) (box : stop_box) :
  stop_of coos = Ok box →
  stop_i_min box ≤ stop_i_max box ∧ stop_j_min box ≤ stop_j_max box.
Proof.
  unfold stop_of.
  destruct (min_of (fst <$> coos)) as [i_min|] eqn:E1; simpl; [|discriminate].
  destruct (max_of (fst <$> coos)) as [i_max|] eqn:E2; simpl; [|discriminate].
  destruct (min_of (snd <$> coos)) as [j_min|] eqn:E3; simpl; [|discriminate].
  destruct (max_of (snd <$> coos)) as [j_max|] eqn:E4; simpl; [|discriminate].
  intros [= <-]. simpl.
  split; eapply min_of_le_max_of; eauto.
Qed.

Lemma moved_inward_move (d : string) (fs : frontier) :
  d ∈ directions → moved_inward fs (move d fs).
Proof.
  intros Hd. unfold moved_inward, move.
  destruct (direction_cases d Hd) as [-> | [-> | [-> | ->]]]; simpl; tauto.
Qed.

Lemma encloses_move (box : stop_box) (d : string) (fs : frontier) :
  can_advance (Some box) d fs = true →
  encloses box fs → encloses box (move d fs).
Proof.
  unfold can_advance, encloses, move. simpl.
  repeat case_bool_decide; subst; simpl; try discriminate;
    intros Hc%Z.ltb_lt; lia.
Qed.

Section Frontier.
Context {TN V : Type} `{!Engine TN V}.
Variable L : lattice.
Variable a : cb_args.

(** Whatever the absorption does to the network, an iteration that does
    not raise leaves the borders moved by one step, or only sets a flag. *)
Lemma advance_result stop d fs fs' (tn tn' : netstate TN) :
  advance L a stop d fs tn = (Ok fs', tn') →
  d ∈ directions
  ∧ ((can_advance stop d fs = true ∧ fs' = move d fs)
     ∨ (can_advance stop d fs = false ∧ fs' = reach d fs ∧ tn' = tn)).
Proof.
  destruct (decide (d ∈ directions)) as [Hd|Hd];
    [|by rewrite advance_invalid].
  intros E. split; [done|].
  destruct (can_advance stop d fs) eqn:Hc.
  - left. split; [done|]. revert E Hc.
    unfold advance, can_advance, move, bind, lift.
    destruct (direction_cases d Hd) as [-> | [-> | [-> | ->]]]; simpl;
      intros E Hc; rewrite Hc in E;
      (destruct (check_keywords _ _); [|by inversion E]).
    + destruct (contract_boundary_from_bottom_ _ _ _ _ _ _ _ _) as [[x|e] t];
        by inversion E.
    + destruct (contract_boundary_from_left_ _ _ _ _ _ _ _ _) as [[x|e] t];
        by inversion E.
    + destruct (contract_boundary_from_top_ _ _ _ _ _ _ _ _) as [[x|e] t];
        by inversion E.
    + destruct (contract_boundary_from_right_ _ _ _ _ _ _ _ _) as [[x|e] t];
        by inversion E.
  - right. split; [done|]. rewrite advance_stops in E by done.
    by inversion E.
Qed.

Lemma iteration_running_free pending fs p fs' (tn tn' : netstate TN) :
  iteration L a None pending fs tn = (Ok (Running p fs'), tn') →
  thin_strip (max_separation a) fs' = false.
Proof.
  unfold iteration.
  destruct (next_direction (sequence a) pending) as [[d rest]|]; [|done].
  unfold bind.
  destruct (advance L a None d fs tn) as [[fs1|e] tn1]; [|done].
  destruct (thin_strip (max_separation a) fs1) eqn:Hthin; [done|].
  by intros [= _ <- _].
Qed.

(** Without protected region the loop goes on only from a frontier that
    is not thin. *)
Lemma loop_running_free n ls (tn : netstate TN) p fs tn' :
  (match ls with
   | Running _ fs0 => True
   | Exited _ _ => False
   end) →
  loop L a (S n) None ls tn = (Ok (Running p fs), tn') →
  thin_strip (max_separation a) fs = false.
Proof.
  revert ls tn. induction n as [|n IH]; intros [pending fs0|how fs0] tn Hls;
    try done.
  - rewrite loop_succ. unfold bind.
    destruct (iteration L a None pending fs0 tn) as [[ls1|e] tn1] eqn:E;
      [|done].
    simpl. intros [= -> ->]. by eapply iteration_running_free.
  - rewrite loop_succ. unfold bind.
    destruct (iteration L a None pending fs0 tn) as [[ls1|e] tn1] eqn:E;
      [|done].
    destruct ls1 as [p1 fs1|how1 fs1].
    + by apply IH.
    + by rewrite loop_exited.
Qed.

Lemma iteration_encloses box pending fs ls (tn tn' : netstate TN) :
  iteration L a (Some box) pending fs tn = (Ok ls, tn') →
  encloses box fs → encloses box (frontier_of ls).
Proof.
  unfold iteration.
  destruct (next_direction (sequence a) pending) as [[d rest]|];
    [|by intros [= <- _]].
  unfold bind.
  destruct (advance L a (Some box) d fs tn) as [[fs1|e] tn1] eqn:E; [|done].
  apply advance_result in E as [Hd [[Hc ->]|(Hc & -> & ->)]]; intros E Henc.
  - assert (encloses box (move d fs)) by by apply encloses_move.
    destruct (all_reached (move d fs)); by inversion E.
  - destruct (all_reached (reach d fs)); by inversion E.
Qed.

(** With a protected region between the borders at the start, it stays
    between them. *)
Lemma loop_encloses box n ls ls' (tn tn' : netstate TN) :
  loop L a n (Some box) ls tn = (Ok ls', tn') →
  encloses box (frontier_of ls) → encloses box (frontier_of ls').
Proof.
  revert ls tn. induction n as [|n IH]; intros ls tn.
  { destruct ls; simpl; by intros [= <- _]. }
  destruct ls as [pending fs|how fs]; [|rewrite loop_exited; by intros [= <- _]].
  rewrite loop_succ. unfold bind.
  destruct (iteration L a (Some box) pending fs tn) as [[ls1|e] tn1] eqn:E;
    [|done].
  intros E' Henc. eapply IH; [exact E'|]. by eapply iteration_encloses.
Qed.

End Frontier.

Lemma absorptions_entry (sd : side) (xr yr : Z * Z) (cs : list call) :
  absorptions (Boundary_from sd xr yr :: (Call <$> cs)) = 1%nat.
Proof.
  unfold absorptions. rewrite filter_cons_True by done. simpl. f_equal.
  induction cs as [|c cs IH]; [done|].
  simpl. by rewrite filter_cons_False by done.
Qed.

(** C3 as it is stated fails at the iteration that ends a sweep: on a
    lattice with a single row the first absorption from the bottom takes
    [bottom] to 1 while [top] is 0, and the sweep ends there. *)
Lemma frontier_crosses_on_single_row :
  ∃ (v : nat) (fs : frontier) (tn' : netstate (list call)),
    loop (Engine0 := recorder) (default_lattice 1 3) (args_free 1) 1 None
      (Running directions (initial (default_lattice 1 3) (args_free 1)))
      fresh
    = (Ok (Exited (Returned v) fs), tn')
    ∧ f_top fs < f_bottom fs.
Proof.
  eexists _, _, _. split; [vm_compute; reflexivity|]. simpl. lia.
Qed.

(** C3 (amended). On a lattice whose site tags can be formed and with
    keyword options that get through to the engine, an iteration of the
    scheduler at a direction letter either performs one directional
    absorption and moves exactly one of the four borders by exactly one
    towards the interior, or performs none and leaves the four borders and
    the network as they were.  Without a protected region and with
    [max_separation >= 0], [bottom < top] and [left < right] hold after
    every iteration after which the sweep goes on (the iteration that ends
    the sweep may leave a border one past the opposite one).  With a
    protected region that lies between the initial borders,
    [bottom <= top] and [left <= right] hold after every iteration, the
    last one included. *)
Theorem frontier_moves_one_step_and_stays_ordered
    {TN V : Type} `{!Engine TN V} (L : lattice) (a : cb_args) :
  well_formed L →
  (forwardable (compress_opts a) →
   ∀ stop d fs (tn : netstate TN),
     d ∈ directions →
     ∃ fs' tn' evs,
       advance L a stop d fs tn = (Ok fs', tn')
       ∧ trace tn' = trace tn ++ evs
       ∧ ((absorptions evs = 1%nat ∧ moved_inward fs fs')
          ∨ (evs = [] ∧ tn' = tn ∧ same_borders fs fs')))
  ∧ (around a = None → 0 ≤ max_separation a →
     ∀ n p fs (tn tn' : netstate TN),
       loop L a (S n) None (Running (sequence a) (initial L a)) tn
       = (Ok (Running p fs), tn') →
       f_bottom fs < f_top fs ∧ f_left fs < f_right fs)
  ∧ (∀ coos box,
       around a = Some coos → stop_of coos = Ok box →
       encloses box (initial L a) →
       ∀ n ls (tn tn' : netstate TN),
         loop L a n (Some box) (Running (sequence a) (initial L a)) tn
         = (Ok ls, tn') →
         ordered (frontier_of ls)).
Proof.
  intros HL. split; [|split].
  - intros Hopts stop d fs tn Hd.
    destruct (can_advance stop d fs) eqn:Hc.
    + destruct (advance_moves L a (fun _ => True) stop d fs tn HL Hopts Hd Hc)
        as (tn' & sd & xr & yr & cs & E & T & _); [done|].
      exists (move d fs), tn', (Boundary_from sd xr yr :: (Call <$> cs)).
      split; [done|]. split; [done|]. left.
      split; [apply absorptions_entry|by apply moved_inward_move].
    + exists (reach d fs), tn, []. rewrite advance_stops by done.
      split; [done|]. split; [by rewrite app_nil_r|]. right.
      by repeat split.
  - intros _ Hs n p fs tn tn' E.
    apply loop_running_free in E; [|done].
    unfold thin_strip in E. apply orb_false_elim in E as [H1 H2].
    apply Z.leb_gt in H1. apply Z.leb_gt in H2. lia.
  - intros coos box _ Hbox Henc n ls tn tn' E.
    apply loop_encloses in E; [|done].
    destruct (stop_of_ordered _ _ Hbox). unfold encloses, ordered in *. lia.
Qed.

Lemma frontier_moves_one_step_and_stays_ordered_witness :
  (∃ fs' tn' evs,
     advance (Engine0 := recorder) (default_lattice 4 4) (args_free 1) None
       "l" (initial (default_lattice 4 4) (args_free 1)) fresh
     = (Ok fs', tn')
     ∧ trace tn' = trace fresh ++ evs
     ∧ ((absorptions evs = 1%nat
         ∧ moved_inward (initial (default_lattice 4 4) (args_free 1)) fs')
        ∨ (evs = [] ∧ tn' = fresh
           ∧ same_borders (initial (default_lattice 4 4) (args_free 1)) fs')))
  ∧ (∃ p fs tn',
       loop (Engine0 := recorder) (default_lattice 4 4) (args_free 1) 2 None
         (Running directions (initial (default_lattice 4 4) (args_free 1)))
         fresh
       = (Ok (Running p fs), tn')
       ∧ f_bottom fs < f_top fs ∧ f_left fs < f_right fs)
  ∧ (∃ ls tn',
       loop (Engine0 := recorder) (default_lattice 5 5)
         (args_around [(2, 2)]) 6
         (Some {| stop_i_min := 2; stop_i_max := 2;
                  stop_j_min := 2; stop_j_max := 2 |})
         (Running directions
            (initial (default_lattice 5 5) (args_around [(2, 2)])))
         fresh
       = (Ok ls, tn')
       ∧ ordered (frontier_of ls)).
Proof.
  assert (H4 : well_formed (default_lattice 4 4))
    by (repeat split; simpl; first [done | lia]).
  assert (H5 : well_formed (default_lattice 5 5))
    by (repeat split; simpl; first [done | lia]).
  pose proof (frontier_moves_one_step_and_stays_ordered
                (Engine0 := recorder) (default_lattice 4 4) (args_free 1) H4)
    as (Hstep & Hfree & _).
  pose proof (frontier_moves_one_step_and_stays_ordered
                (Engine0 := recorder) (default_lattice 5 5)
                (args_around [(2, 2)]) H5)
    as (_ & _ & Hbox).
  split; [|split].
  - apply Hstep; by_decide.
  - eexists _, _, _. split; [vm_compute; reflexivity|].
    eapply (Hfree eq_refl ltac:(simpl; lia) 1%nat _ _ fresh).
    vm_compute. reflexivity.
  - eexists _, _. split; [vm_compute; reflexivity|].
    eapply (Hbox [(2, 2)] _ eq_refl eq_refl) with (n := 6%nat) (tn := fresh).
    + unfold encloses. simpl. lia.
    + vm_compute. reflexivity.
Defined.

(** ** Sweeps around a protected region *)

Lemma can_advance_dist (box : stop_box) (d : string) (fs : frontier) :
  can_advance (Some box) d fs = true ↔ (0 < dist box d fs)%nat.
Proof.
  unfold can_advance, dist. simpl.
  repeat case_bool_decide; rewrite ?Z.ltb_lt; lia.
Qed.

Lemma potential_move (box : stop_box) (d : string) (fs : frontier) :
  can_advance (Some box) d fs = true →
  S (potential box (move d fs)) = potential box fs.
Proof.
  unfold can_advance, potential, owed, dist, move. simpl.
  repeat case_bool_decide; subst; simpl; try discriminate;
    intros Hc%Z.ltb_lt; lia.
Qed.

Lemma reach_settled (d : string) (fs : frontier) :
  reached_stop fs !! d = Some true → reach d fs = fs.
Proof.
  intros H. unfold reach. destruct fs as [b t l r m]; simpl in *.
  f_equal. by apply insert_id.
Qed.

Lemma potential_reach (box : stop_box) (d : string) (fs : frontier) :
  d ∈ directions → reached_stop fs !! d = Some false →
  S (potential box (reach d fs)) = potential box fs.
Proof.
  intros Hd Hf. unfold potential, owed, dist, reach. simpl.
  destruct (direction_cases d Hd) as [-> | [-> | [-> | ->]]];
    rewrite Hf, lookup_insert_eq, !lookup_insert_ne by done; simpl; lia.
Qed.

Lemma can_advance_reach (stop : option stop_box) (d d' : string)
    (fs : frontier) :
  can_advance stop d' (reach d fs) = can_advance stop d' fs.
Proof. reflexivity. Qed.

Lemma can_advance_move_other (box : stop_box) (d d' : string)
    (fs : frontier) :
  can_advance (Some box) d fs = true →
  can_advance (Some box) d' fs = false →
  can_advance (Some box) d' (move d fs) = false.
Proof.
  unfold can_advance, move. simpl. intros Hc Hc'.
  repeat case_bool_decide; subst; simpl in *; try done; congruence.
Qed.

Lemma all_reached_false (fs : frontier) :
  all_reached fs = false → ∃ d, reached_stop fs !! d = Some false.
Proof.
  unfold all_reached. intros H%bool_decide_eq_false.
  apply map_not_Forall in H as (d & v & Hd & Hv); [|apply _].
  exists d. by destruct v.
Qed.

Lemma all_reached_true (fs : frontier) (d : string) :
  all_reached fs = true → is_Some (reached_stop fs !! d) →
  reached_stop fs !! d = Some true.
Proof.
  unfold all_reached. intros H%bool_decide_eq_true [v Hv].
  by rewrite Hv, (H d v Hv).
Qed.

Lemma initial_flags (seq : list string) (d : string) :
  (list_to_map ((fun d => (d, false)) <$> seq) : gmap string bool) !! d
  = if decide (d ∈ seq) then Some false else None.
Proof.
  induction seq as [|x seq IH].
  - simpl. rewrite lookup_empty.
    destruct (decide (d ∈ [])) as [H|]; [by apply elem_of_nil in H|done].
  - rewrite fmap_cons, list_to_map_cons.
    destruct (decide (d ∈ x :: seq)) as [Hin|Hnin];
      destruct (decide (x = d)) as [->|Hne];
      rewrite ?lookup_insert_eq, ?lookup_insert_ne by done; try done.
    + rewrite IH. apply elem_of_cons in Hin as [->|Hin]; [done|].
      by rewrite decide_True.
    + destruct Hnin. by left.
    + rewrite IH. rewrite decide_False; [done|].
      intros ?. apply Hnin. by right.
Qed.

Lemma guarded_move (box : stop_box) (seq : list string) (fs0 fs : frontier)
    (d : string) :
  can_advance (Some box) d fs = true →
  guarded box seq fs0 fs → guarded box seq fs0 (move d fs).
Proof.
  intros Hc (Hkeys & Hset & Henc & Hb & Ht & Hl & Hr).
  split; [done|]. split.
  { intros d' Hd'. apply can_advance_move_other; [done|]. by apply Hset. }
  split; [by apply encloses_move|].
  revert Hc. unfold can_advance, move, encloses in *. simpl.
  repeat case_bool_decide; subst; simpl; try discriminate;
    intros Hc%Z.ltb_lt; lia.
Qed.

Lemma guarded_reach (box : stop_box) (seq : list string) (fs0 fs : frontier)
    (d : string) :
  d ∈ seq → can_advance (Some box) d fs = false →
  guarded box seq fs0 fs → guarded box seq fs0 (reach d fs).
Proof.
  intros Hd Hc (Hkeys & Hset & Henc & Hb & Ht & Hl & Hr).
  split.
  { intros d'. unfold reach. simpl. rewrite lookup_insert_is_Some.
    rewrite Hkeys. split.
    - intros H. destruct (decide (d = d')); [by left|by right].
    - intros [<-|[_ H]]; [by apply Hkeys|done]. }
  split; [|done].
  intros d'. unfold reach at 1. simpl.
  destruct (decide (d = d')) as [<-|Hne].
  - by rewrite can_advance_reach.
  - rewrite lookup_insert_ne by done. rewrite can_advance_reach. apply Hset.
Qed.

Lemma slab_outside (box : stop_box) (seq : list string) (fs0 fs : frontier)
    (d : string) (coo : Z * Z) :
  stop_i_min box ≤ stop_i_max box → stop_j_min box ≤ stop_j_max box →
  guarded box seq fs0 fs →
  d ∈ directions → can_advance (Some box) d fs = true →
  slab d fs coo → outside box fs0 coo.
Proof.
  intros Hi Hj (Hkeys & Hset & Henc & Hb & Ht & Hl & Hr) Hd.
  unfold can_advance, slab, outside, rect, min2, max2, encloses in *.
  destruct (direction_cases d Hd) as [-> | [-> | [-> | ->]]]; simpl;
    intros Hc%Z.ltb_lt; lia.
Qed.

Section Guarded.
Context {TN V : Type} `{!Engine TN V}.
Variable L : lattice.
Variable a : cb_args.
Variable box : stop_box.
Variable fs0 : frontier.
Hypothesis HL : well_formed L.
Hypothesis Hopts : forwardable (compress_opts a).
Hypothesis Hseq : Forall (fun d => d ∈ directions) (sequence a).
Hypothesis Hi : stop_i_min box ≤ stop_i_max box.
Hypothesis Hj : stop_j_min box ≤ stop_j_max box.

Lemma sequence_valid (d : string) : d ∈ sequence a → d ∈ directions.
Proof. intros Hd. by eapply Forall_forall in Hseq. Qed.

(** An iteration at a direction whose flag is set changes nothing. *)
Lemma iteration_settled d rest fs (tn : netstate TN) :
  guarded box (sequence a) fs0 fs → all_reached fs = false →
  reached_stop fs !! d = Some true →
  iteration L a (Some box) (d :: rest) fs tn = (Ok (Running rest fs), tn).
Proof.
  intros Hg Hall Hf. unfold iteration. simpl. unfold bind.
  assert (Hd : d ∈ sequence a) by (apply Hg; by rewrite Hf).
  rewrite advance_stops; [|by apply sequence_valid|by apply Hg].
  rewrite reach_settled by done. by rewrite Hall.
Qed.

(** An iteration at a direction whose flag is not set moves its border or
    sets the flag; it touches only sites outside the box. *)
Lemma iteration_pending d rest fs (tn : netstate TN) :
  guarded box (sequence a) fs0 fs →
  reached_stop fs !! d = Some false →
  ∃ tn1 evs1 fs1,
    trace tn1 = trace tn ++ evs1
    ∧ Forall (within L (outside box fs0)) evs1
    ∧ guarded box (sequence a) fs0 fs1
    ∧ S (potential box fs1) = potential box fs
    ∧ iteration L a (Some box) (d :: rest) fs tn
      = (Ok (if all_reached fs1 then Exited Broke fs1 else Running rest fs1),
         tn1).
Proof.
  intros Hg Hf.
  assert (Hd : d ∈ sequence a) by (apply Hg; by rewrite Hf).
  assert (Hv : d ∈ directions) by by apply sequence_valid.
  unfold iteration. simpl. unfold bind.
  destruct (can_advance (Some box) d fs) eqn:Hc.
  - destruct (advance_moves L a (outside box fs0) (Some box) d fs tn HL Hopts
                Hv Hc)
      as (tn1 & sd & xr & yr & cs & E & T & F).
    { intros coo. by eapply slab_outside. }
    exists tn1, (Boundary_from sd xr yr :: (Call <$> cs)), (move d fs).
    split; [done|]. split.
    { constructor; [done|]. by apply Forall_fmap. }
    split; [by apply guarded_move|]. split; [by apply potential_move|].
    rewrite E. by destruct (all_reached (move d fs)).
  - exists tn, [], (reach d fs).
    split; [by rewrite app_nil_r|]. split; [constructor|].
    split; [by apply guarded_reach|]. split; [by apply potential_reach|].
    rewrite advance_stops by done. by destruct (all_reached (reach d fs)).
Qed.

Lemma iteration_refill fs (tn : netstate TN) :
  iteration L a (Some box) [] fs tn
  = iteration L a (Some box) (sequence a) fs tn.
Proof. unfold iteration, next_direction. by destruct (sequence a). Qed.

(** The sweep around a box ends by its [break], with every flag set. *)
Lemma guarded_sweep (m : nat) :
  ∀ pending fs (tn : netstate TN),
    guarded box (sequence a) fs0 fs →
    all_reached fs = false →
    (potential box fs ≤ m)%nat →
    (∀ d, d ∈ pending → d ∈ sequence a) →
    ∃ n fs' tn' evs,
      loop L a n (Some box) (Running pending fs) tn
      = (Ok (Exited Broke fs'), tn')
      ∧ guarded box (sequence a) fs0 fs'
      ∧ all_reached fs' = true
      ∧ trace tn' = trace tn ++ evs
      ∧ Forall (within L (outside box fs0)) evs.
Proof.
  induction m as [|m IH]; intros pending fs tn Hg Hall Hm Hsub.
  { (* a flag is unset, so something is owed *)
    destruct (all_reached_false fs Hall) as [d Hd].
    assert (Hin : d ∈ directions).
    { apply sequence_valid, Hg. by rewrite Hd. }
    exfalso. revert Hm. unfold potential, owed.
    destruct (direction_cases d Hin) as [-> | [-> | [-> | ->]]];
      rewrite Hd; lia. }
  (* from a list that holds a direction with an unset flag *)
  assert (Hfind : ∀ pending,
    (∃ d, d ∈ pending ∧ reached_stop fs !! d = Some false) →
    (∀ d, d ∈ pending → d ∈ sequence a) →
    ∃ n fs' tn' evs,
      loop L a (S n) (Some box) (Running pending fs) tn
      = (Ok (Exited Broke fs'), tn')
      ∧ guarded box (sequence a) fs0 fs'
      ∧ all_reached fs' = true
      ∧ trace tn' = trace tn ++ evs
      ∧ Forall (within L (outside box fs0)) evs).
  { clear pending Hsub. intros pending.
    induction pending as [|d rest IHp].
    { intros (d & Hd & _). by apply elem_of_nil in Hd. }
    intros (d' & Hd' & Hf') Hsub.
    assert (Hd : is_Some (reached_stop fs !! d)).
    { apply Hg, Hsub. by left. }
    destruct Hd as [[|] Hf].
    - (* settled: skip it *)
      destruct IHp as (n & fs' & tn' & evs & E & ?).
      { exists d'. split; [|done].
        apply elem_of_cons in Hd' as [->|Hd']; [congruence|done]. }
      { intros x Hx. apply Hsub. by right. }
      exists (S n), fs', tn', evs. split; [|done].
      rewrite loop_succ. unfold bind.
      by rewrite (iteration_settled d rest fs tn Hg Hall Hf).
    - (* owed: progress *)
      destruct (iteration_pending d rest fs tn Hg Hf)
        as (tn1 & evs1 & fs1 & T1 & F1 & Hg1 & Hpot & E1).
      destruct (all_reached fs1) eqn:Hall1.
      + exists 0%nat, fs1, tn1, evs1. rewrite loop_succ. unfold bind.
        rewrite E1. split; [done|]. split; [done|]. split; [done|]. done.
      + destruct (IH rest fs1 tn1 Hg1 Hall1)
          as (n & fs' & tn' & evs & E & Hg' & Hall' & T & F); [lia|..].
        { intros x Hx. apply Hsub. by right. }
        destruct n as [|n]; [done|].
        exists (S n), fs', tn', (evs1 ++ evs).
        rewrite loop_succ. unfold bind. rewrite E1.
        split; [done|]. split; [done|]. split; [done|].
        split; [by rewrite T, T1, app_assoc|by apply Forall_app]. }
  (* the pending list first, then the sequence again *)
  assert (Hseqrun :
    ∃ n fs' tn' evs,
      loop L a (S n) (Some box) (Running (sequence a) fs) tn
      = (Ok (Exited Broke fs'), tn')
      ∧ guarded box (sequence a) fs0 fs'
      ∧ all_reached fs' = true
      ∧ trace tn' = trace tn ++ evs
      ∧ Forall (within L (outside box fs0)) evs).
  { apply Hfind; [|done].
    destruct (all_reached_false fs Hall) as [d Hd].
    exists d. split; [|done]. apply Hg. by rewrite Hd. }
  clear IH. induction pending as [|d rest IHp].
  - destruct Hseqrun as (n & fs' & tn' & evs & E & ?).
    exists (S n), fs', tn', evs. split; [|done].
    rewrite loop_succ, <- E, loop_succ. unfold bind.
    by rewrite iteration_refill.
  - assert (Hd : is_Some (reached_stop fs !! d)).
    { apply Hg, Hsub. by left. }
    destruct Hd as [[|] Hf].
    + destruct IHp as (n & fs' & tn' & evs & E & ?).
      { intros x Hx. apply Hsub. by right. }
      exists (S n), fs', tn', evs. split; [|done].
      rewrite loop_succ. unfold bind.
      by rewrite (iteration_settled d rest fs tn Hg Hall Hf).
    + destruct (Hfind (d :: rest)) as (n & fs' & tn' & evs & E & ?);
        [|done|by exists (S n), fs', tn', evs].
      exists d. split; [by left|done].
Qed.

End Guarded.

(** ** Sites and their tags *)

Lemma rmap_lookup {A B} (f : A → result B) (xs : list A) (ys : list B)
    (k : nat) (x : A) :
  rmap f xs = Ok ys → xs !! k = Some x →
  ∃ y, ys !! k = Some y ∧ f x = Ok y.
Proof.
  revert ys k. induction xs as [|x' xs IH]; intros ys k; [done|].
  simpl. destruct (f x') as [y'|] eqn:Ey; simpl; [|done].
  destruct (rmap f xs) as [ys'|] eqn:Er; simpl; [|done].
  intros [= <-]. destruct k as [|k]; simpl.
  - intros [= <-]. by exists y'.
  - intros Hk. by apply IH.
Qed.

Lemma elem_of_gen_site_coos (L : lattice) (coo : Z * Z) :
  coo ∈ gen_site_coos L ↔ in_lattice L coo.
Proof.
  unfold gen_site_coos, in_lattice. destruct coo as [i j]. simpl.
  rewrite list_elem_of_bind. split.
  - intros (i' & Hj & Hi%elem_of_range).
    apply list_elem_of_bind in Hj as (j' & Hij & Hj%elem_of_range).
    apply list_elem_of_singleton in Hij as [= -> ->]. lia.
  - intros [Hi Hj]. exists i. split; [|apply elem_of_range; lia].
    apply list_elem_of_bind. exists j.
    split; [by apply list_elem_of_singleton|apply elem_of_range; lia].
Qed.

(** On a lattice with pairwise different site tags, a site tag names one
    site. *)
Lemma site_tag_inj (L : lattice) (c1 c2 : Z * Z) (t : string) :
  distinct_site_tags L = true →
  in_lattice L c1 → in_lattice L c2 →
  is_site_tag L c1 t → is_site_tag L c2 t → c1 = c2.
Proof.
  unfold distinct_site_tags, site_tags, is_site_tag.
  destruct (rmap _ (gen_site_coos L)) as [tags|] eqn:Er; [|done].
  intros Hnd%bool_decide_eq_true H1 H2 E1 E2.
  apply elem_of_gen_site_coos, list_elem_of_lookup in H1 as [k1 Hk1].
  apply elem_of_gen_site_coos, list_elem_of_lookup in H2 as [k2 Hk2].
  destruct (rmap_lookup _ _ _ _ _ Er Hk1) as (y1 & Hy1 & F1).
  destruct (rmap_lookup _ _ _ _ _ Er Hk2) as (y2 & Hy2 & F2).
  simpl in F1, F2. rewrite E1 in F1. rewrite E2 in F2.
  injection F1 as <-. injection F2 as <-.
  assert (k1 = k2) by by eapply NoDup_lookup.
  subst k2. congruence.
Qed.

Lemma wrapped_in_lattice (L : lattice) (coo : Z * Z) :
  in_lattice L coo → wrapped L coo = coo.
Proof.
  destruct coo as [i j]. unfold in_lattice, wrapped. simpl. intros [Hi Hj].
  by rewrite !Z.mod_small by lia.
Qed.

(** A call confined to sites of the lattice other than [target] does not
    address [target]. *)
Lemma confined_not_addresses (L : lattice) (R : Z * Z → Prop)
    (target : Z * Z) (c : call) :
  distinct_site_tags L = true → in_lattice L target →
  (∀ coo, R coo → in_lattice L coo ∧ coo ≠ target) →
  confined L R c → ¬ addresses L c target.
Proof.
  intros Hd Ht HR.
  assert (Hcoo : ∀ coo, R coo → wrapped L coo ≠ target).
  { intros coo [Hin Hne]%HR. by rewrite wrapped_in_lattice. }
  assert (Htag : ∀ t, site_tag_in L R t → ¬ is_site_tag L target t).
  { intros t (i & j & [Hin Hne]%HR & E) Htt. apply Hne.
    by apply (site_tag_inj L (i, j) target t). }
  destruct c as [c1 c2 o|c1 c2 o|t1 t2|t1 t2 lt|c1|c1 t]; simpl;
    intros Hc Ha.
  - destruct Hc as [H1 H2], Ha as [Ha|Ha];
      [exact (Hcoo _ H1 Ha)|exact (Hcoo _ H2 Ha)].
  - destruct Hc as [H1 H2], Ha as [Ha|Ha];
      [exact (Hcoo _ H1 Ha)|exact (Hcoo _ H2 Ha)].
  - destruct Hc as [H1 H2], Ha as [Ha|Ha];
      [exact (Htag _ H1 Ha)|exact (Htag _ H2 Ha)].
  - destruct Hc as [H1 H2], Ha as [Ha|Ha];
      [exact (Htag _ H1 Ha)|exact (Htag _ H2 Ha)].
  - exact (Hcoo _ Hc Ha).
  - destruct Hc as [H1 H2], Ha as [Ha|Ha];
      [exact (Hcoo _ H1 Ha)|exact (Htag _ H2 Ha)].
Qed.

Lemma guarded_initial (L : lattice) (a : cb_args) (box : stop_box) :
  encloses box (initial L a) →
  guarded box (sequence a) (initial L a) (initial L a).
Proof.
  intros Henc. split.
  { intros d. unfold initial. simpl. rewrite initial_flags.
    destruct (decide (d ∈ sequence a)); split; try done; by intros [? ?]. }
  split.
  { intros d. unfold initial. simpl. rewrite initial_flags.
    by destruct (decide (d ∈ sequence a)). }
  split; [done|]. lia.
Qed.

Lemma all_reached_initial (L : lattice) (a : cb_args) :
  sequence a ≠ [] → all_reached (initial L a) = false.
Proof.
  intros Hne. unfold all_reached. apply bool_decide_eq_false. intros H.
  destruct (sequence a) as [|d rest] eqn:Hs; [done|].
  specialize (H d false). unfold initial in H. simpl in H.
  rewrite Hs, initial_flags, decide_True in H by by left.
  by specialize (H eq_refl).
Qed.

(** C2 as it is stated fails for a protected site on the edge of the
    lattice: around [(0, 0)] of a 3 x 3 lattice the bottom and the left
    borders never move, so the sweep ends with [bottom = 0] and [left = 0],
    not one step away at [-1]. *)
Lemma frontier_stays_on_edge_of_lattice :
  ∃ (fs : frontier) (tn' : netstate (list call)),
    loop (Engine0 := recorder) (default_lattice 3 3) (args_around [(0, 0)])
      8 (Some {| stop_i_min := 0; stop_i_max := 0;
                 stop_j_min := 0; stop_j_max := 0 |})
      (Running directions
         (initial (default_lattice 3 3) (args_around [(0, 0)])))
      fresh
    = (Ok (Exited Broke fs), tn')
    ∧ contract_boundary (Engine0 := recorder) (default_lattice 3 3)
        (args_around [(0, 0)]) 8 fresh
      = Some (Ok (Network tn'), fresh)
    ∧ 0 - 1 < f_bottom fs ∧ 0 - 1 < f_left fs
    ∧ f_top fs = 0 + 1 ∧ f_right fs = 0 + 1.
Proof.
  eexists _, _. split; [vm_compute; reflexivity|].
  split; [vm_compute; reflexivity|]. simpl. lia.
Qed.

(** C2 (amended). On a lattice whose site tags can be formed and are
    pairwise different, [contract_boundary] with [around] set to one site
    [(i0, j0)] of the lattice, the default sequence of the four
    directions, the default initial borders and keyword options that get
    through to the engine ends by its [break] and
    returns the network, with each border one step away from [(i0, j0)]
    where the lattice has room for it and on the edge of the lattice
    otherwise ([bottom = max 0 (i0 - 1)], [top = min (Lx - 1) (i0 + 1)],
    [left = max 0 (j0 - 1)], [right = min (Ly - 1) (j0 + 1)]); and no call
    made to the engine during the sweep addresses the site [(i0, j0)], so
    its tensor is in the returned network as it was. *)
Theorem guarded_sweep_surrounds_site
    {TN V : Type} `{!Engine TN V} (L : lattice) (a : cb_args)
    (i0 j0 : Z) (self : netstate TN) :
  well_formed L → forwardable (compress_opts a) →
  distinct_site_tags L = true → in_lattice L (i0, j0) →
  around a = Some [(i0, j0)] → sequence a = directions →
  bottom a = None → top a = None → left a = None → right a = None →
  ∃ (n : nat) (fs : frontier) (tn' : netstate TN) (evs : list event),
    loop L a n
      (Some {| stop_i_min := i0; stop_i_max := i0;
               stop_j_min := j0; stop_j_max := j0 |})
      (Running (sequence a) (initial L a)) (working a self)
    = (Ok (Exited Broke fs), tn')
    ∧ f_bottom fs = Z.max 0 (i0 - 1)
    ∧ f_top fs = Z.min (Lx L - 1) (i0 + 1)
    ∧ f_left fs = Z.max 0 (j0 - 1)
    ∧ f_right fs = Z.min (Ly L - 1) (j0 + 1)
    ∧ trace tn' = trace (working a self) ++ evs
    ∧ (∀ c, Call c ∈ evs → ¬ addresses L c (i0, j0))
    ∧ ∀ fuel, (n ≤ fuel)%nat →
        contract_boundary L a fuel self
        = Some (Ok (Network tn'), if inplace a then tn' else self).
Proof.
  intros HL Hopts Hdist Hin Ha Hseq Hb Ht Hl Hr.
  set (box := {| stop_i_min := i0; stop_i_max := i0;
                 stop_j_min := j0; stop_j_max := j0 |}).
  assert (Hstop : stop_region a = Ok (Some box)).
  { unfold stop_region. by rewrite Ha. }
  assert (Hbottom : f_bottom (initial L a) = 0) by (unfold initial; by rewrite Hb).
  assert (Htop : f_top (initial L a) = Lx L - 1) by (unfold initial; by rewrite Ht).
  assert (Hleft : f_left (initial L a) = 0) by (unfold initial; by rewrite Hl).
  assert (Hright : f_right (initial L a) = Ly L - 1)
    by (unfold initial; by rewrite Hr).
  destruct Hin as [Hi Hj]. simpl in Hi, Hj.
  assert (Henc : encloses box (initial L a)).
  { unfold encloses. rewrite Hbottom, Htop, Hleft, Hright. simpl. lia. }
  assert (Hvalid : Forall (fun d => d ∈ directions) (sequence a)).
  { rewrite Hseq. by apply Forall_forall. }
  destruct (guarded_sweep L a box (initial L a) HL Hopts Hvalid
              ltac:(simpl; lia) ltac:(simpl; lia) _
              (sequence a) (initial L a) (working a self)
              (guarded_initial L a box Henc)
              (all_reached_initial L a ltac:(by rewrite Hseq))
              (le_n _) ltac:(done))
    as (n & fs & tn' & evs & E & Hg & Hall & T & F).
  exists n, fs, tn', evs. split; [done|].
  destruct Hg as (Hkeys & Hset & _ & Bb & Bt & Bl & Br).
  assert (Hflag : ∀ d, d ∈ directions →
                       can_advance (Some box) d fs = false).
  { intros d Hd. apply Hset, all_reached_true; [done|].
    apply Hkeys. by rewrite Hseq. }
  pose proof (Hflag "b" ltac:(by_decide)) as Fb.
  pose proof (Hflag "t" ltac:(by_decide)) as Ft.
  pose proof (Hflag "l" ltac:(by_decide)) as Fl.
  pose proof (Hflag "r" ltac:(by_decide)) as Fr.
  unfold can_advance in Fb, Ft, Fl, Fr. simpl in Fb, Ft, Fl, Fr.
  apply Z.ltb_ge in Fb, Ft, Fl, Fr.
  rewrite Hbottom, Htop, Hleft, Hright in *. simpl in *.
  split; [lia|]. split; [lia|]. split; [lia|]. split; [lia|].
  split; [done|]. split.
  - intros c Hc. eapply Forall_forall in F; [|exact Hc]. simpl in F.
    eapply (confined_not_addresses L (outside box (initial L a)));
      [done|by split|..|exact F].
    intros [x y] [[Hx Hy] Hout]. simpl in *.
    rewrite Hbottom, Htop in Hx. rewrite Hleft, Hright in Hy.
    split; [split; simpl; lia|]. intros [= -> ->]. apply Hout. lia.
  - intros fuel Hle.
    by apply (contract_boundary_broke L a n fuel (Some box) Broke fs).
Qed.

Lemma guarded_sweep_surrounds_site_witness :
  ∃ (n : nat) (fs : frontier) (tn' : netstate (list call))
    (evs : list event),
    loop (Engine0 := recorder) (default_lattice 5 5) (args_around [(2, 3)])
      n
      (Some {| stop_i_min := 2; stop_i_max := 2;
               stop_j_min := 3; stop_j_max := 3 |})
      (Running directions
         (initial (default_lattice 5 5) (args_around [(2, 3)])))
      fresh
    = (Ok (Exited Broke fs), tn')
    ∧ f_bottom fs = Z.max 0 (2 - 1)
    ∧ f_top fs = Z.min (5 - 1) (2 + 1)
    ∧ f_left fs = Z.max 0 (3 - 1)
    ∧ f_right fs = Z.min (5 - 1) (3 + 1)
    ∧ trace tn' = trace fresh ++ evs
    ∧ (∀ c, Call c ∈ evs → ¬ addresses (default_lattice 5 5) c (2, 3))
    ∧ ∀ fuel, (n ≤ fuel)%nat →
        contract_boundary (Engine0 := recorder) (default_lattice 5 5)
          (args_around [(2, 3)]) fuel fresh
        = Some (Ok (Network tn'), fresh).
Proof.
  apply (guarded_sweep_surrounds_site (Engine0 := recorder)
           (default_lattice 5 5) (args_around [(2, 3)]) 2 3 fresh);
    try reflexivity.
  - repeat split; simpl; first [done | lia].
  - by_decide.
  - unfold in_lattice. simpl. lia.
Defined.

(** ** The PEPS constructor *)

Lemma contains_remove_same (c : ascii) (s : string) :
  contains c (remove_char c s) = false.
Proof.
  induction s as [|c' s IH]; simpl; [done|].
  case_bool_decide as Hc; [done|]. simpl.
  by rewrite bool_decide_eq_false_2.
Qed.

Lemma contains_remove_other (c c' : ascii) (s : string) :
  c ≠ c' → contains c (remove_char c' s) = contains c s.
Proof.
  intros Hne. induction s as [|x s IH]; simpl; [done|].
  case_bool_decide as Hx.
  - subst x. by rewrite (bool_decide_eq_false_2 (c' = c)) by done.
  - simpl. by rewrite IH.
Qed.

(** With the four bond letters in [shape], a site has the bond of a
    direction exactly when it has a neighbour there. *)
Lemma array_order_letters (L : lattice) (shape_ : string) (i j : Z) :
  contains "u" shape_ = true → contains "r" shape_ = true →
  contains "d" shape_ = true → contains "l" shape_ = true →
  contains "u" (array_order_at L shape_ i j)
    = negb (bool_decide (i = Lx L - 1))
  ∧ contains "r" (array_order_at L shape_ i j)
    = negb (bool_decide (j = Ly L - 1))
  ∧ contains "d" (array_order_at L shape_ i j) = negb (bool_decide (i = 0))
  ∧ contains "l" (array_order_at L shape_ i j) = negb (bool_decide (j = 0)).
Proof.
  intros Hu Hr Hd Hl. unfold array_order_at.
  repeat case_bool_decide; simpl;
    rewrite ?contains_remove_same, ?contains_remove_other by done;
    rewrite ?contains_remove_same, ?contains_remove_other by done;
    rewrite ?contains_remove_same, ?contains_remove_other by done;
    rewrite ?contains_remove_same, ?contains_remove_other by done;
    done.
Qed.

Lemma ix_get_spec (uuid0 : nat) (key : Z * Z * (Z * Z)) (s : ix_state) :
  ix_ok uuid0 s → (uuid0 ≤ next_uuid s)%nat →
  ix_ok uuid0 (ix_get key s).2
  ∧ ix s ⊆ ix (ix_get key s).2
  ∧ ix (ix_get key s).2 !! key = Some (ix_get key s).1
  ∧ (next_uuid s ≤ next_uuid (ix_get key s).2)%nat.
Proof.
  intros [Hran Hinj] Hle. unfold ix_get.
  destruct (ix s !! key) as [v|] eqn:Hk; simpl; [done|].
  unfold ix_ok. simpl. split; [split|].
  - intros k v. rewrite lookup_insert. case_decide as Hkk.
    + intros [= <-]. exists (next_uuid s). split; [done|lia].
    + intros (n & -> & Hn)%Hran. exists n. split; [done|lia].
  - intros k1 k2 v. rewrite !lookup_insert.
    repeat case_decide; try congruence.
    + intros [= <-] (n & [= <-] & Hn)%Hran. lia.
    + intros (n & -> & Hn)%Hran [= <-]. lia.
    + apply Hinj.
  - split; [by apply insert_subseteq|].
    split; [by rewrite lookup_insert_eq|lia].
Qed.

Lemma bond_inds_spec (uuid0 : nat) (array_order : string)
    (pairs : list (ascii * (Z * Z * (Z * Z))))
    (inds : list ind) (s : ix_state) :
  ix_ok uuid0 s → (uuid0 ≤ next_uuid s)%nat →
  let acc := bond_inds array_order pairs (inds, s) in
  ix_ok uuid0 acc.2
  ∧ ix s ⊆ ix acc.2
  ∧ (next_uuid s ≤ next_uuid acc.2)%nat
  ∧ ∃ bonds,
      acc.1 = inds ++ bonds
      ∧ Forall2 (fun k v => ix acc.2 !! k = Some v)
          (snd <$> filter (fun p => contains p.1 array_order = true) pairs)
          bonds.
Proof.
  revert inds s. induction pairs as [|[letter key] pairs IH];
    intros inds s Hok Hle; cbv zeta.
  { simpl. split; [done|]. split; [done|]. split; [done|].
    exists []. by rewrite app_nil_r. }
  change (bond_inds array_order ((letter, key) :: pairs) (inds, s))
    with (bond_inds array_order pairs
            (bond_ind array_order letter key (inds, s))).
  assert (Hstep : bond_ind array_order letter key (inds, s)
                  = if contains letter array_order
                    then (inds ++ [(ix_get key s).1], (ix_get key s).2)
                    else (inds, s)).
  { unfold bond_ind. simpl.
    destruct (contains letter array_order); [|done].
    by destruct (ix_get key s). }
  rewrite Hstep. clear Hstep.
  destruct (contains letter array_order) eqn:Hc.
  - destruct (ix_get_spec uuid0 key s Hok Hle) as (Hok1 & Hsub1 & Hk1 & Hle1).
    destruct (IH (inds ++ [(ix_get key s).1]) (ix_get key s).2 Hok1
                ltac:(lia))
      as (Hok2 & Hsub2 & Hle2 & bonds & E & F).
    split; [done|]. split; [by etrans|]. split; [lia|].
    exists ((ix_get key s).1 :: bonds).
    split; [by rewrite E, <- app_assoc|].
    rewrite filter_cons_True by done. simpl. constructor; [|done].
    by eapply lookup_weaken.
  - destruct (IH inds s Hok Hle) as (Hok2 & Hsub2 & Hle2 & bonds & E & F).
    split; [done|]. split; [done|]. split; [done|].
    exists bonds. split; [done|].
    rewrite filter_cons_False; [done|]. simpl. by rewrite Hc.
Qed.

(** *** Tags without repetition *)

Lemma elem_of_unique_from (seen l : list string) (x : string) :
  x ∈ unique_from seen l ↔ x ∈ l ∧ x ∉ seen.
Proof.
  revert seen. induction l as [|y l IH]; intros seen; simpl.
  - rewrite elem_of_nil. tauto.
  - case_bool_decide as Hy.
    + rewrite IH, elem_of_cons. split; [tauto|].
      intros [[-> | H] Hn]; [done|tauto].
    + rewrite !elem_of_cons, IH, not_elem_of_cons. split.
      * intros [-> | [H1 [H2 H3]]]; [tauto|tauto].
      * intros [[-> | H1] H2]; [by left|].
        destruct (decide (x = y)) as [->|Hne]; [by left|]. right. tauto.
Qed.

Lemma NoDup_unique_from (seen l : list string) : NoDup (unique_from seen l).
Proof.
  revert seen. induction l as [|y l IH]; intros seen; simpl; [constructor|].
  case_bool_decide as Hy; [apply IH|].
  constructor; [|apply IH].
  rewrite elem_of_unique_from, not_elem_of_cons. tauto.
Qed.

Lemma unique_from_ext (seen seen' l : list string) :
  (∀ x, x ∈ seen ↔ x ∈ seen') → unique_from seen l = unique_from seen' l.
Proof.
  revert seen seen'. induction l as [|y l IH]; intros seen seen' Hs; [done|].
  simpl. rewrite (bool_decide_ext _ _ (Hs y)).
  case_bool_decide; [by apply IH|]. f_equal. apply IH.
  intros x. rewrite !elem_of_cons, Hs. done.
Qed.

Lemma unique_from_app (seen l1 l2 : list string) :
  unique_from seen (l1 ++ l2)
  = unique_from seen l1 ++ unique_from (l1 ++ seen) l2.
Proof.
  revert seen. induction l1 as [|y l1 IH]; intros seen; [done|].
  simpl. case_bool_decide as Hy.
  - rewrite IH. f_equal. apply unique_from_ext. intros x.
    rewrite elem_of_cons, !elem_of_app. split; [tauto|].
    intros [-> | ?]; tauto.
  - rewrite IH. simpl. do 2 f_equal. apply unique_from_ext. intros x.
    rewrite !elem_of_cons, !elem_of_app, elem_of_cons. tauto.
Qed.

Lemma unique_from_idemp (seen l : list string) :
  unique_from seen (unique_from seen l) = unique_from seen l.
Proof.
  revert seen. induction l as [|y l IH]; intros seen; [done|].
  simpl. case_bool_decide as Hy; [apply IH|].
  simpl. rewrite bool_decide_eq_false_2 by done. f_equal. apply IH.
Qed.

Lemma unique_unique_app (l1 l2 : list string) :
  unique (unique l1 ++ l2) = unique (l1 ++ l2).
Proof.
  unfold unique. rewrite !unique_from_app, unique_from_idemp. f_equal.
  apply unique_from_ext. intros x.
  rewrite !elem_of_app, elem_of_unique_from. rewrite elem_of_nil. tauto.
Qed.

Lemma first_occurrences_unique (l : list string) :
  first_occurrences l (unique l).
Proof.
  split; [apply NoDup_unique_from|]. split.
  - intros x. unfold unique. rewrite elem_of_unique_from, elem_of_nil. tauto.
  - intros n. exists (length (unique (take n l))). intros x.
    assert (Hsplit : unique l
                     = unique (take n l)
                       ++ unique_from (take n l ++ []) (drop n l)).
    { unfold unique. by rewrite <- unique_from_app, take_drop. }
    rewrite Hsplit, take_app_length. unfold unique.
    rewrite elem_of_unique_from, elem_of_nil. tauto.
Qed.

(** *** Orders of the axes *)

Lemma array_order_on_edges (L : lattice) (shape_ : string) (i j : Z) :
  array_order_at L shape_ i j
  = order_on_edges shape_
      (bool_decide (i = Lx L - 1), bool_decide (j = Ly L - 1),
       bool_decide (i = 0), bool_decide (j = 0)).
Proof. done. Qed.

Lemma length_bond_pairs (o : string) (i j : Z) :
  length (filter (fun p : ascii * (Z * Z * (Z * Z)) => contains p.1 o = true)
                 (bond_pairs i j))
  = length (bond_letters o).
Proof.
  unfold bond_pairs, bond_letters. simpl list_ascii_of_string.
  rewrite !filter_cons, !filter_nil. simpl.
  by repeat case_decide.
Qed.

Lemma elem_of_all_edges (e : bool * bool * bool * bool) : e ∈ all_edges.
Proof. destruct e as [[[[] []] []] []]; by_decide. Qed.

Lemma served_orders :
  Forall (fun l => Forall (fun e => served (order_on_edges
                                             (string_of_list_ascii l) e))
                          all_edges)
         (permutations (list_ascii_of_string "urdlp")).
Proof.
  apply (bool_decide_unpack _). vm_compute. exact I.
Qed.

Lemma contains_elem_of (c : ascii) (s : string) :
  contains c s = true ↔ c ∈ list_ascii_of_string s.
Proof.
  induction s as [|c' s IH]; simpl.
  - split; [done|by intros ?%elem_of_nil].
  - split.
    + intros [Hc%bool_decide_eq_true | Hc]%orb_true_iff;
        [subst; by left|right; by apply IH].
    + intros [-> | Hc]%elem_of_cons; apply orb_true_iff;
        [left; by apply bool_decide_eq_true|right; by apply IH].
Qed.

Lemma axes_order_contains (shape_ : string) (c : ascii) :
  axes_order shape_ → c ∈ list_ascii_of_string "urdlp" →
  contains c shape_ = true.
Proof.
  intros Hp Hc. apply contains_elem_of. unfold axes_order in Hp.
  by rewrite Hp.
Qed.

(** Whatever edges a site lies on, an order that names the five axes
    leaves it an order that the constructor can serve. *)
Lemma axes_order_served (L : lattice) (shape_ : string) (i j : Z) :
  axes_order shape_ → served (array_order_at L shape_ i j).
Proof.
  intros Hp. rewrite array_order_on_edges.
  rewrite <- (string_of_list_ascii_of_string shape_).
  pose proof served_orders as H.
  eapply Forall_forall in H; [|apply permutations_Permutation; symmetry;
                                 exact Hp].
  eapply Forall_forall in H; [exact H|apply elem_of_all_edges].
Qed.

(** *** The array and the tensor of a site *)

Lemma length_bond_inds (o : string)
    (pairs : list (ascii * (Z * Z * (Z * Z)))) (acc : list ind * ix_state) :
  length (bond_inds o pairs acc).1
  = (length acc.1
     + length (filter (fun p => contains p.1 o = true) pairs))%nat.
Proof.
  revert acc. induction pairs as [|[c key] pairs IH]; intros acc.
  - simpl. lia.
  - unfold bond_inds in *. cbn [foldl]. rewrite IH.
    rewrite filter_cons. unfold bond_ind. cbn [fst snd].
    destruct (contains c o) eqn:Hc.
    + rewrite decide_True by done.
      destruct (ix_get key acc.2) as [b s]. cbn [fst length].
      rewrite length_app. simpl. lia.
    + rewrite decide_False by done. lia.
Qed.

Lemma fmap_nth_seq {A} (l : list A) (d : A) :
  (fun k => nth k l d) <$> seq 0 (length l) = l.
Proof.
  apply list_eq. intros k. rewrite list_lookup_fmap.
  destruct (l !! k) as [a|] eqn:Hk.
  - rewrite lookup_seq_lt by (by eapply lookup_lt_Some).
    simpl. by rewrite nth_lookup, Hk.
  - rewrite lookup_seq_ge by (apply lookup_ge_None in Hk; lia). done.
Qed.

Section SiteArray.
Context {X : Type}.
Variable L : lattice.
Variable shape_ : string.

Lemma transpose_shape (x y : array X) (perm : list nat) :
  transpose x perm = Ok y →
  axes_permutation (length (shape x)) perm
  ∧ shape y = (fun p => nth p (shape x) 1%nat) <$> perm.
Proof.
  unfold transpose. case_bool_decide as Hp; [|done]. by intros [= <-].
Qed.

Lemma transpose_ok (x : array X) (perm : list nat) :
  axes_permutation (length (shape x)) perm → ∃ y, transpose x perm = Ok y.
Proof.
  intros Hp. unfold transpose. rewrite bool_decide_eq_true_2 by done.
  by eexists.
Qed.

(** An array with one axis per letter of the order at its site is not
    squeezed, and is stored with the axes that the letters name. *)
Lemma site_array_shape (i j : Z) (x y : array X) :
  fits L shape_ i j x → site_array L shape_ i j x = Ok y →
  shape y = axes_in_order (array_order_at L shape_ i j) x.
Proof.
  intros Hlen. unfold fits in Hlen. unfold site_array, axes_in_order.
  cbv zeta.
  rewrite (bool_decide_eq_false_2 (length (shape x) ≠ _)) by (by intros ?).
  set (o := array_order_at L shape_ i j) in *.
  rewrite (list_fmap_compose (fun c => find c o)
             (fun z => nth (Z.to_nat z) (shape x) 1%nat)).
  fold (transpose_order o). case_bool_decide as Hord.
  - intros (_ & ->)%transpose_shape. by rewrite <- list_fmap_compose.
  - intros [= <-]. rewrite Hord, <- list_fmap_compose, <- Hlen.
    etrans; [symmetry; apply (fmap_nth_seq (shape x) 1%nat)|].
    apply list_fmap_ext. intros _ k _. simpl. by rewrite Nat2Z.id.
Qed.

Lemma site_array_fits (i j : Z) (x : array X) :
  served (array_order_at L shape_ i j) → fits L shape_ i j x →
  ∃ y, site_array L shape_ i j x = Ok y
       ∧ S (length (bond_letters (array_order_at L shape_ i j)))
         = length (shape y).
Proof.
  intros (Hcount & Hperm) Hlen.
  assert (Hy : ∃ y, site_array L shape_ i j x = Ok y).
  { unfold site_array. cbv zeta. unfold fits in Hlen.
    rewrite (bool_decide_eq_false_2 (length (shape x) ≠ _)) by (by intros ?).
    case_bool_decide; [|by eexists].
    apply transpose_ok. by rewrite Hlen. }
  destruct Hy as (y & Hy). exists y. split; [done|].
  rewrite (site_array_shape i j x y Hlen Hy). unfold axes_in_order.
  rewrite length_fmap. destruct Hperm as (Hp & _).
  unfold transpose_order in Hp. rewrite !length_fmap in Hp.
  by rewrite Hp.
Qed.

Lemma Tensor_ok (x : array X) (inds : list ind) (tags : list string) :
  length (shape x) = length inds →
  Tensor x inds tags = Ok {| t_data := x; t_inds := inds; t_tags := tags |}.
Proof. intros H. unfold Tensor. by rewrite bool_decide_eq_true_2. Qed.

Lemma Tensor_inv (x : array X) (inds : list ind) (tags : list string)
    (t : tensor X) :
  Tensor x inds tags = Ok t →
  length (shape x) = length inds
  ∧ t = {| t_data := x; t_inds := inds; t_tags := tags |}.
Proof. unfold Tensor. case_bool_decide; [|done]. by intros [= <-]. Qed.

End SiteArray.

Section PepsBuild.
Context {X : Type}.
Variable L : lattice.
Variables site_ind_id shape_ : string.
Variable tags : list string.
Variable arrays : list (list (array X)).
Variable uuid0 : nat.
Hypothesis HLx : 0 < Lx L.
Hypothesis HLy : 0 < Ly L.
Hypothesis Harrays :
  ∀ i j, in_lattice L (i, j) →
         ∃ x, array_at arrays i j = Ok x ∧ fits L shape_ i j x.
Hypothesis Hserved :
  ∀ i j, in_lattice L (i, j) → served (array_order_at L shape_ i j).
Hypothesis Hsite_ind : (fields site_ind_id ≤ 2)%nat.
Hypothesis Hsite_tag : (fields (site_tag_id L) ≤ 2)%nat.
Hypothesis Hrow_tag : (fields (row_tag_id L) ≤ 1)%nat.
Hypothesis Hcol_tag : (fields (col_tag_id L) ≤ 1)%nat.

Lemma site_ind_ok (i j : Z) :
  ∃ p, site_ind L site_ind_id (SInt i) (SInt j) = Ok p.
Proof.
  unfold site_ind, wrap, smod, mod_.
  destruct (decide (Lx L = 0)); [lia|].
  destruct (decide (Ly L = 0)); [lia|]. simpl.
  by apply format_ok.
Qed.

Lemma site_tag_formed (i j : Z) :
  ∃ t, site_tag L (SInt i) (SInt j) = Ok t.
Proof.
  unfold site_tag, wrap, smod, mod_.
  destruct (decide (Lx L = 0)); [lia|].
  destruct (decide (Ly L = 0)); [lia|]. simpl.
  by apply format_ok.
Qed.

Lemma row_tag_ok (i : Z) : ∃ t, row_tag L (SInt i) = Ok t.
Proof.
  unfold row_tag, wrap, smod, mod_.
  destruct (decide (Lx L = 0)); [lia|]. simpl. by apply format_ok.
Qed.

Lemma col_tag_ok (j : Z) : ∃ t, col_tag L (SInt j) = Ok t.
Proof.
  unfold col_tag, wrap, smod, mod_.
  destruct (decide (Ly L = 0)); [lia|]. simpl. by apply format_ok.
Qed.

(** The tensor of one site: nothing raises, and [Tensor] accepts the
    array with its indices. *)
Lemma site_tensor_eq (i j : Z) (s : ix_state) :
  in_lattice L (i, j) →
  ∃ d p tgs,
    site_ind L site_ind_id (SInt i) (SInt j) = Ok p
    ∧ site_tensor L site_ind_id shape_ tags arrays (i, j) s
      = Ok ({| t_data := d;
               t_inds :=
                 (bond_inds (array_order_at L shape_ i j) (bond_pairs i j)
                    ([], s)).1 ++ [Name p];
               t_tags := tgs |},
            (bond_inds (array_order_at L shape_ i j) (bond_pairs i j)
               ([], s)).2).
Proof.
  intros Hin.
  destruct (Harrays i j Hin) as (x & Hx & Hfit).
  destruct (site_array_fits L shape_ i j x (Hserved i j Hin) Hfit)
    as (y & Hy & Hlen).
  destruct (site_ind_ok i j) as [p Hp].
  destruct (site_tag_formed i j) as [st Hst].
  destruct (row_tag_ok i) as [rt Hrt].
  destruct (col_tag_ok j) as [ct Hct].
  unfold site_tensor. rewrite Hx. cbn [rbind]. rewrite Hy. cbn [rbind].
  rewrite Hp, Hst, Hrt, Hct. cbn [rbind].
  change (bond_ind (array_order_at L shape_ i j) "l" (i, j - 1, (i, j))
            (bond_ind (array_order_at L shape_ i j) "d" (i, j, (i - 1, j))
               (bond_ind (array_order_at L shape_ i j) "r" (i, j, (i, j + 1))
                  (bond_ind (array_order_at L shape_ i j) "u"
                     (i + 1, j, (i, j)) ([], s)))))
    with (bond_inds (array_order_at L shape_ i j) (bond_pairs i j) ([], s)).
  rewrite Tensor_ok.
  - cbn [rbind]. eexists _, p, _. split; [done|]. reflexivity.
  - rewrite length_app, length_bond_inds, length_bond_pairs. simpl. lia.
Qed.

Lemma site_tensor_ok (i j : Z) (s : ix_state) :
  ix_ok uuid0 s → (uuid0 ≤ next_uuid s)%nat → in_lattice L (i, j) →
  ∃ t s',
    site_tensor L site_ind_id shape_ tags arrays (i, j) s = Ok (t, s')
    ∧ ix_ok uuid0 s' ∧ ix s ⊆ ix s'
    ∧ (next_uuid s ≤ next_uuid s')%nat
    ∧ site_inds_ok L site_ind_id shape_ (ix s') (i, j) t.
Proof.
  intros Hok Hle Hin.
  destruct (site_tensor_eq i j s Hin) as (d & p & tgs & Hp & E).
  destruct (bond_inds_spec uuid0 (array_order_at L shape_ i j)
              (bond_pairs i j) [] s Hok Hle)
    as (Hok' & Hsub & Hle' & bonds & Eb & F).
  eexists _, _. split; [exact E|].
  split; [done|]. split; [done|]. split; [done|].
  exists bonds, p. split; [|split; [exact F|done]].
  cbn [t_inds]. by rewrite Eb.
Qed.

Lemma site_inds_ok_weaken (m m' : gmap (Z * Z * (Z * Z)) ind)
    (coo : Z * Z) (t : tensor X) :
  m ⊆ m' →
  site_inds_ok L site_ind_id shape_ m coo t →
  site_inds_ok L site_ind_id shape_ m' coo t.
Proof.
  intros Hsub (bonds & p & E & F & Hp). exists bonds, p.
  split; [done|]. split; [|done].
  eapply Forall2_impl; [exact F|]. intros k v Hk.
  exact (lookup_weaken _ _ _ _ Hk Hsub).
Qed.

(** The loop over the sites: one tensor per site, in order, with the
    indices that the final dictionary gives its bond keys. *)
Lemma build_spec (coos : list (Z * Z)) (s : ix_state)
    (done_ : list (tensor X)) :
  ix_ok uuid0 s → (uuid0 ≤ next_uuid s)%nat →
  Forall (in_lattice L) coos →
  ∃ new s',
    build L site_ind_id shape_ tags arrays coos s done_
      = Ok (done_ ++ new, s')
    ∧ ix_ok uuid0 s' ∧ ix s ⊆ ix s'
    ∧ (next_uuid s ≤ next_uuid s')%nat
    ∧ Forall2 (site_inds_ok L site_ind_id shape_ (ix s')) coos new.
Proof.
  revert s done_. induction coos as [|[i j] coos IH];
    intros s done_ Hok Hle Hin.
  { exists [], s. simpl. by rewrite app_nil_r. }
  apply Forall_cons in Hin as [Hij Hin].
  destruct (site_tensor_ok i j s Hok Hle Hij)
    as (t & s1 & E1 & Hok1 & Hsub1 & Hle1 & Ht).
  destruct (IH s1 (done_ ++ [t]) Hok1 ltac:(lia) Hin)
    as (new & s' & E & Hok' & Hsub' & Hle' & F).
  exists (t :: new), s'.
  change (build L site_ind_id shape_ tags arrays ((i, j) :: coos) s done_)
    with (rbind (site_tensor L site_ind_id shape_ tags arrays (i, j) s)
            (fun ts => build L site_ind_id shape_ tags arrays coos ts.2
                         (done_ ++ [ts.1]))).
  rewrite E1. cbn [rbind fst snd]. rewrite E.
  split; [by rewrite <- app_assoc|].
  split; [done|]. split; [by etrans|]. split; [lia|].
  constructor; [by eapply site_inds_ok_weaken|done].
Qed.

End PepsBuild.


(** The bond keys of a site: one for each neighbour it has. *)
Lemma keys_of_spec (L : lattice) (shape_ : string) (i j : Z)
    (key : Z * Z * (Z * Z)) :
  contains "u" shape_ = true → contains "r" shape_ = true →
  contains "d" shape_ = true → contains "l" shape_ = true →
  key ∈ keys_of L shape_ i j ↔
    (key = ((i + 1, j), (i, j)) ∧ i ≠ Lx L - 1)
    ∨ (key = ((i, j), (i, j + 1)) ∧ j ≠ Ly L - 1)
    ∨ (key = ((i, j), (i - 1, j)) ∧ i ≠ 0)
    ∨ (key = ((i, j - 1), (i, j)) ∧ j ≠ 0).
Proof.
  intros Hu Hr Hd Hl.
  destruct (array_order_letters L shape_ i j Hu Hr Hd Hl)
    as (Eu & Er & Ed & El).
  unfold keys_of, bond_pairs.
  rewrite list_elem_of_fmap. split.
  - intros ([c k] & -> & Hin). apply list_elem_of_filter in Hin as [Hc Hin].
    simpl in Hc |- *.
    rewrite !elem_of_cons, elem_of_nil in Hin.
    destruct Hin as [[= -> ->]|[[= -> ->]|[[= -> ->]|[[= -> ->]|[]]]]].
    + left. split; [done|]. rewrite Eu in Hc. by case_bool_decide.
    + right; left. split; [done|]. rewrite Er in Hc. by case_bool_decide.
    + right; right; left. split; [done|]. rewrite Ed in Hc.
      by case_bool_decide.
    + right; right; right. split; [done|]. rewrite El in Hc.
      by case_bool_decide.
  - intros [[-> H]|[[-> H]|[[-> H]|[-> H]]]].
    + exists ("u"%char, (i + 1, j, (i, j))). split; [done|].
      apply list_elem_of_filter. split; [|by left].
      simpl. rewrite Eu. by rewrite bool_decide_eq_false_2.
    + exists ("r"%char, (i, j, (i, j + 1))). split; [done|].
      apply list_elem_of_filter. split; [|by right; left].
      simpl. rewrite Er. by rewrite bool_decide_eq_false_2.
    + exists ("d"%char, (i, j, (i - 1, j))). split; [done|].
      apply list_elem_of_filter. split; [|by right; right; left].
      simpl. rewrite Ed. by rewrite bool_decide_eq_false_2.
    + exists ("l"%char, (i, j - 1, (i, j))). split; [done|].
      apply list_elem_of_filter. split; [|by right; right; right; left].
      simpl. rewrite El. by rewrite bool_decide_eq_false_2.
Qed.

(** The indices of the tensor of a site. *)
Lemma site_inds_ok_elem {X : Type} (L : lattice) (site_ind_id shape_ : string)
    (final : gmap (Z * Z * (Z * Z)) ind) (coo : Z * Z) (t : tensor X)
    (x : ind) :
  site_inds_ok L site_ind_id shape_ final coo t →
  x ∈ t_inds t ↔
    (∃ key, key ∈ keys_of L shape_ coo.1 coo.2 ∧ final !! key = Some x)
    ∨ (∃ p, site_ind L site_ind_id (SInt coo.1) (SInt coo.2) = Ok p
            ∧ x = Name p).
Proof.
  intros (bonds & p & E & F & Hp). rewrite E, elem_of_app. split.
  - intros [Hx|Hx].
    + left. apply list_elem_of_lookup in Hx as [k Hk].
      destruct (Forall2_lookup_r _ _ _ _ _ F Hk) as (key & Hkey & Hf).
      exists key. split; [|done]. by eapply list_elem_of_lookup_2.
    + right. apply list_elem_of_singleton in Hx. by exists p.
  - intros [(key & Hkey & Hf)|(p' & Hp' & ->)].
    + left. apply list_elem_of_lookup in Hkey as [k Hk].
      destruct (Forall2_lookup_l _ _ _ _ _ F Hk) as (v & Hv & Hf').
      rewrite Hf in Hf'. injection Hf' as <-.
      by eapply list_elem_of_lookup_2.
    + right. rewrite Hp in Hp'. injection Hp' as <-.
      by apply list_elem_of_singleton.
Qed.

(** On a lattice with pairwise different site indices, a site index names
    one site. *)
Lemma site_ind_inj (L : lattice) (site_ind_id : string) (c1 c2 : Z * Z)
    (p : string) :
  distinct_site_inds L site_ind_id = true →
  in_lattice L c1 → in_lattice L c2 →
  site_ind L site_ind_id (SInt c1.1) (SInt c1.2) = Ok p →
  site_ind L site_ind_id (SInt c2.1) (SInt c2.2) = Ok p →
  c1 = c2.
Proof.
  unfold distinct_site_inds.
  destruct (rmap _ (gen_site_coos L)) as [names|] eqn:Er; [|done].
  intros Hnd%bool_decide_eq_true H1 H2 E1 E2.
  apply elem_of_gen_site_coos, list_elem_of_lookup in H1 as [k1 Hk1].
  apply elem_of_gen_site_coos, list_elem_of_lookup in H2 as [k2 Hk2].
  destruct (rmap_lookup _ _ _ _ _ Er Hk1) as (y1 & Hy1 & F1).
  destruct (rmap_lookup _ _ _ _ _ Er Hk2) as (y2 & Hy2 & F2).
  simpl in F1, F2. rewrite E1 in F1. rewrite E2 in F2.
  injection F1 as <-. injection F2 as <-.
  assert (k1 = k2) by by eapply NoDup_lookup.
  subst k2. congruence.
Qed.

Lemma array_at_rectangular {X : Type} (arrays : list (list (array X)))
    (lx ly : nat) (i j : Z) :
  rectangular arrays lx ly →
  0 ≤ i < Z.of_nat lx → 0 ≤ j < Z.of_nat ly →
  ∃ x, array_at arrays i j = Ok x.
Proof.
  intros [Hlen Hrows] Hi Hj. unfold array_at.
  destruct (lookup_lt_is_Some_2 arrays (Z.to_nat i)) as [row Hrow]; [lia|].
  rewrite Hrow.
  assert (length row = ly).
  { eapply Forall_forall in Hrows; [exact Hrows|].
    by eapply list_elem_of_lookup_2. }
  destruct (lookup_lt_is_Some_2 row (Z.to_nat j)) as [x Hx]; [lia|].
  rewrite Hx. by exists x.
Qed.

(** What the constructor builds, in terms of its final [ix] dictionary. *)
Lemma PEPS_init_spec {X : Type} (arrays : list (list (array X)))
    (shape_ : string) (tags : list string)
    (site_ind_id site_tag_id row_tag_id col_tag_id : string)
    (uuid0 lx ly : nat) :
  rectangular arrays lx ly → (0 < lx)%nat → (0 < ly)%nat →
  (fields site_ind_id ≤ 2)%nat → (fields site_tag_id ≤ 2)%nat →
  (fields row_tag_id ≤ 1)%nat → (fields col_tag_id ≤ 1)%nat →
  let L := {| Lx := Z.of_nat lx; Ly := Z.of_nat ly;
              site_tag_id := site_tag_id; row_tag_id := row_tag_id;
              col_tag_id := col_tag_id |} in
  axes_order shape_ →
  (∀ i j x, in_lattice L (i, j) → array_at arrays i j = Ok x →
            fits L shape_ i j x) →
  ∃ (ts : list (tensor X)) (n' : nat) (final : gmap (Z * Z * (Z * Z)) ind),
    PEPS_init arrays shape_ tags site_ind_id site_tag_id row_tag_id
      col_tag_id uuid0
    = Ok ({| peps_lattice := L; Peps.site_ind_id := site_ind_id;
             tensors := ts |}, n')
    ∧ (∀ k v, final !! k = Some v →
              ∃ n, v = Uuid n ∧ (uuid0 ≤ n < n')%nat)
    ∧ (∀ k1 k2 v, final !! k1 = Some v → final !! k2 = Some v → k1 = k2)
    ∧ Forall2 (site_inds_ok L site_ind_id shape_ final)
              (gen_site_coos L) ts.
Proof.
  intros Hrect Hlx Hly Hsi Hst Hrt Hct L Hshape Hfits.
  assert (Hfirst : ∃ r rest, arrays = r :: rest ∧ length r = ly).
  { destruct Hrect as [Hlen Hrows]. destruct arrays as [|r rest];
      [simpl in Hlen; lia|].
    exists r, rest. split; [done|]. by apply Forall_cons in Hrows as [? _]. }
  destruct Hfirst as (r & rest & Harr & Hr).
  assert (HL : Lx L = Z.of_nat (length arrays) ∧ Ly L = Z.of_nat (length r)).
  { destruct Hrect as [Hlen _]. simpl. by rewrite Hlen, Hr. }
  assert (Harr' : ∀ i j, in_lattice L (i, j) →
             ∃ x, array_at arrays i j = Ok x ∧ fits L shape_ i j x).
  { intros i j Hin. pose proof Hin as [Hi Hj].
    destruct (array_at_rectangular arrays lx ly i j Hrect Hi Hj) as (x & Hx).
    exists x. split; [done|]. by apply Hfits. }
  destruct (build_spec (X := X) L site_ind_id shape_ (tags_to_utup tags)
              arrays uuid0 ltac:(simpl; lia) ltac:(simpl; lia) Harr'
              ltac:(intros i j _; by apply axes_order_served)
              Hsi Hst Hrt Hct (gen_site_coos L)
              {| ix := ∅; next_uuid := uuid0 |} [])
    as (new & s' & E & [Hran Hinj] & _ & _ & F).
  { split; simpl; intros *; by rewrite lookup_empty. }
  { simpl. lia. }
  { apply Forall_forall. intros c. by apply elem_of_gen_site_coos. }
  exists new, (next_uuid s'), (ix s').
  split; [|done].
  unfold PEPS_init. rewrite Harr. cbn [rbind].
  destruct Hrect as [Hlen _]. rewrite <- Harr, Hlen, Hr.
  fold L. rewrite E. reflexivity.
Qed.

Section BondKeys.
Variable L : lattice.
Variable shape_ : string.
Hypothesis Hu : contains "u" shape_ = true.
Hypothesis Hr : contains "r" shape_ = true.
Hypothesis Hd : contains "d" shape_ = true.
Hypothesis Hl : contains "l" shape_ = true.

(** Two adjacent sites look up one key in common, and no other site looks
    that key up. *)
Lemma shared_key (c1 c2 : Z * Z) :
  in_lattice L c1 → in_lattice L c2 → adjacent c1 c2 →
  ∃ key0,
    key0 ∈ keys_of L shape_ c1.1 c1.2
    ∧ key0 ∈ keys_of L shape_ c2.1 c2.2
    ∧ (∀ key, key ∈ keys_of L shape_ c1.1 c1.2 →
              key ∈ keys_of L shape_ c2.1 c2.2 → key = key0)
    ∧ (∀ c, key0 ∈ keys_of L shape_ c.1 c.2 → c = c1 ∨ c = c2).
Proof.
  destruct c1 as [i j], c2 as [i2 j2]. unfold in_lattice, adjacent. simpl.
  intros [Hi Hj] [Hi2 Hj2] [[= -> ->]|[= -> ->]].
  - exists ((i + 1, j), (i, j)). repeat split.
    + apply keys_of_spec; try done. left. split; [done|lia].
    + apply keys_of_spec; try done. right; right; left.
      split; [f_equal; f_equal; lia|lia].
    + intros key H1 H2.
      apply keys_of_spec in H1; try done. apply keys_of_spec in H2; try done.
      destruct H1 as [[-> ?]|[[-> ?]|[[-> ?]|[-> ?]]]]; [done|exfalso..];
        destruct H2 as [[[=] ?]|[[[=] ?]|[[[=] ?]|[[=] ?]]]]; lia.
    + intros [i' j'] H. simpl in H. apply keys_of_spec in H; try done.
      destruct H as [[[=] ?]|[[[=] ?]|[[[=] ?]|[[=] ?]]]];
        first [left; f_equal; lia|right; f_equal; lia|lia].
  - exists ((i, j), (i, j + 1)). repeat split.
    + apply keys_of_spec; try done. right; left. split; [done|lia].
    + apply keys_of_spec; try done. right; right; right.
      split; [f_equal; f_equal; lia|lia].
    + intros key H1 H2.
      apply keys_of_spec in H1; try done. apply keys_of_spec in H2; try done.
      destruct H1 as [[-> ?]|[[-> ?]|[[-> ?]|[-> ?]]]];
        [exfalso|done|exfalso..];
        destruct H2 as [[[=] ?]|[[[=] ?]|[[[=] ?]|[[=] ?]]]]; lia.
    + intros [i' j'] H. simpl in H. apply keys_of_spec in H; try done.
      destruct H as [[[=] ?]|[[[=] ?]|[[[=] ?]|[[=] ?]]]];
        first [left; f_equal; lia|right; f_equal; lia|lia].
Qed.

(** Every key that a site looks up is shared with a neighbour. *)
Lemma key_has_neighbour (c : Z * Z) (key : Z * Z * (Z * Z)) :
  in_lattice L c → key ∈ keys_of L shape_ c.1 c.2 →
  ∃ c', in_lattice L c' ∧ (adjacent c c' ∨ adjacent c' c)
        ∧ key ∈ keys_of L shape_ c'.1 c'.2.
Proof.
  destruct c as [i j]. unfold in_lattice, adjacent. simpl.
  intros [Hi Hj] H. apply keys_of_spec in H; try done.
  destruct H as [[-> ?]|[[-> ?]|[[-> ?]|[-> ?]]]].
  - exists (i + 1, j). simpl. split; [lia|]. split; [by left; left|].
    apply keys_of_spec; try done. right; right; left.
    split; [f_equal; f_equal; lia|lia].
  - exists (i, j + 1). simpl. split; [lia|]. split; [by left; right|].
    apply keys_of_spec; try done. right; right; right.
    split; [f_equal; f_equal; lia|lia].
  - exists (i - 1, j). simpl. split; [lia|].
    split; [right; left; f_equal; lia|].
    apply keys_of_spec; try done. left.
    split; [f_equal; f_equal; lia|lia].
  - exists (i, j - 1). simpl. split; [lia|].
    split; [right; right; f_equal; lia|].
    apply keys_of_spec; try done. right; left.
    split; [f_equal; f_equal; lia|lia].
Qed.

End BondKeys.

(** C8. [PEPS.__init__] on [lx] rows of [ly] arrays each, with a [shape]
    that names the five axes, arrays that have one axis for each letter of
    the order at their site, specifiers of literal text and [{}] fields
    that can be formatted, and pairwise different site indices, makes a
    PEPS in which two lattice-adjacent
    sites have exactly one index in common; that index is an identifier
    the generator handed out during this construction; it is on the
    tensors of those two sites and of no other; and every generated
    identifier on a tensor is such a bond with a neighbouring site. *)
Theorem peps_bonds_are_fresh_and_shared
    {X : Type} (arrays : list (list (array X)))
    (shape_ : string) (tags : list string)
    (site_ind_id site_tag_id row_tag_id col_tag_id : string)
    (uuid0 lx ly : nat) :
  rectangular arrays lx ly → (0 < lx)%nat → (0 < ly)%nat →
  axes_order shape_ →
  (∀ i j x,
     0 ≤ i < Z.of_nat lx → 0 ≤ j < Z.of_nat ly →
     array_at arrays i j = Ok x →
     fits {| Lx := Z.of_nat lx; Ly := Z.of_nat ly;
             site_tag_id := site_tag_id; row_tag_id := row_tag_id;
             col_tag_id := col_tag_id |} shape_ i j x) →
  plain site_ind_id = true → plain site_tag_id = true →
  plain row_tag_id = true → plain col_tag_id = true →
  (fields site_ind_id ≤ 2)%nat → (fields site_tag_id ≤ 2)%nat →
  (fields row_tag_id ≤ 1)%nat → (fields col_tag_id ≤ 1)%nat →
  distinct_site_inds
    {| Lx := Z.of_nat lx; Ly := Z.of_nat ly; site_tag_id := site_tag_id;
       row_tag_id := row_tag_id; col_tag_id := col_tag_id |}
    site_ind_id = true →
  ∃ (p : peps X) (n' : nat),
    PEPS_init arrays shape_ tags site_ind_id site_tag_id row_tag_id
      col_tag_id uuid0 = Ok (p, n')
    ∧ Lx (peps_lattice p) = Z.of_nat lx ∧ Ly (peps_lattice p) = Z.of_nat ly
    ∧ (∀ c1 c2,
         in_lattice (peps_lattice p) c1 → in_lattice (peps_lattice p) c2 →
         adjacent c1 c2 →
         ∃ t1 t2 k,
           tensor_of p c1 t1 ∧ tensor_of p c2 t2
           ∧ (∀ x, x ∈ t_inds t1 ∧ x ∈ t_inds t2 ↔ x = Uuid k)
           ∧ (uuid0 ≤ k < n')%nat
           ∧ (∀ c t, tensor_of p c t → Uuid k ∈ t_inds t →
                     c = c1 ∨ c = c2))
    ∧ (∀ c t k,
         tensor_of p c t → Uuid k ∈ t_inds t →
         ∃ c' t',
           in_lattice (peps_lattice p) c'
           ∧ (adjacent c c' ∨ adjacent c' c)
           ∧ tensor_of p c' t' ∧ Uuid k ∈ t_inds t').
Proof.
  intros Hrect Hlx Hly Hshape Hfits _ _ _ _ Hsi Hst Hrt Hct Hdist.
  assert (Hu : contains "u" shape_ = true)
    by (apply axes_order_contains; [done|by_decide]).
  assert (Hr : contains "r" shape_ = true)
    by (apply axes_order_contains; [done|by_decide]).
  assert (Hd : contains "d" shape_ = true)
    by (apply axes_order_contains; [done|by_decide]).
  assert (Hl : contains "l" shape_ = true)
    by (apply axes_order_contains; [done|by_decide]).
  destruct (PEPS_init_spec arrays shape_ tags site_ind_id site_tag_id
              row_tag_id col_tag_id uuid0 lx ly Hrect Hlx Hly Hsi Hst Hrt Hct
              Hshape)
    as (ts & n' & final & E & Hran & Hinj & F).
  { intros i j x [Hi Hj]. by apply Hfits. }
  set (L := {| Lx := Z.of_nat lx; Ly := Z.of_nat ly;
               site_tag_id := site_tag_id; row_tag_id := row_tag_id;
               col_tag_id := col_tag_id |}) in *.
  set (p := {| peps_lattice := L; Peps.site_ind_id := site_ind_id;
               tensors := ts |}) in *.
  (* the tensor of a site and its indices *)
  assert (Hhas : ∀ c, in_lattice L c →
            ∃ t, tensor_of p c t
                 ∧ site_inds_ok L site_ind_id shape_ final c t).
  { intros c [k Hk]%elem_of_gen_site_coos%list_elem_of_lookup.
    destruct (Forall2_lookup_l _ _ _ _ _ F Hk) as (t & Ht & Hok).
    exists t. split; [by exists k|done]. }
  assert (Hof : ∀ c (t : tensor X), tensor_of p c t →
            in_lattice L c ∧ site_inds_ok L site_ind_id shape_ final c t).
  { intros c t (k & Hk & Ht). split.
    - apply elem_of_gen_site_coos. by eapply list_elem_of_lookup_2.
    - by eapply Forall2_lookup_lr. }
  assert (Hkey : ∀ c (t : tensor X) key,
            site_inds_ok L site_ind_id shape_ final c t →
            key ∈ keys_of L shape_ c.1 c.2 →
            ∃ n, final !! key = Some (Uuid n) ∧ (uuid0 ≤ n < n')%nat
                 ∧ Uuid n ∈ t_inds t).
  { intros c t key Hok Hin.
    destruct Hok as (bonds & q & Ei & Fb & Hq).
    apply list_elem_of_lookup in Hin as [k Hk].
    destruct (Forall2_lookup_l _ _ _ _ _ Fb Hk) as (v & Hv & Hf).
    destruct (Hran _ _ Hf) as (n & -> & Hn).
    exists n. split; [done|]. split; [done|].
    rewrite Ei. apply elem_of_app. left. by eapply list_elem_of_lookup_2. }
  exists p, n'. split; [exact E|]. split; [done|]. split; [done|].
  split.
  - intros c1 c2 Hc1 Hc2 Hadj.
    destruct (Hhas c1 Hc1) as (t1 & Ht1 & Hok1).
    destruct (Hhas c2 Hc2) as (t2 & Ht2 & Hok2).
    destruct (shared_key L shape_ Hu Hr Hd Hl c1 c2 Hc1 Hc2 Hadj)
      as (key0 & Hk1 & Hk2 & Honly & Hsites).
    destruct (Hkey c1 t1 key0 Hok1 Hk1) as (k & Hf & Hk & Hin1).
    destruct (Hkey c2 t2 key0 Hok2 Hk2) as (k' & Hf' & _ & Hin2).
    rewrite Hf in Hf'. injection Hf' as <-.
    exists t1, t2, k. split; [done|]. split; [done|]. split.
    { intros x. split; [|by intros ->].
      intros [Hx1 Hx2].
      apply (site_inds_ok_elem L site_ind_id shape_ final c1 t1 x Hok1) in Hx1.
      apply (site_inds_ok_elem L site_ind_id shape_ final c2 t2 x Hok2) in Hx2.
      destruct Hx1 as [(key1 & Hkey1 & Hx1)|(q1 & Hq1 & ->)],
               Hx2 as [(key2 & Hkey2 & Hx2)|(q2 & Hq2 & Hx2)].
      - assert (key1 = key2) as <- by by eapply Hinj.
        rewrite (Honly key1 Hkey1 Hkey2) in Hx1. congruence.
      - subst x. by destruct (Hran _ _ Hx1) as (n & [=] & _).
      - by destruct (Hran _ _ Hx2) as (n & [=] & _).
      - injection Hx2 as ->. exfalso.
        assert (c1 = c2) by by eapply site_ind_inj.
        subst c2. destruct c1 as [i j], Hadj as [[=]|[=]]; lia. }
    split; [done|].
    intros c t Ht Hin.
    destruct (Hof c t Ht) as [Hc Hok].
    apply (site_inds_ok_elem L site_ind_id shape_ final c t _ Hok) in Hin.
    destruct Hin as [(key & Hkeyc & Hx)|(q & _ & [=])].
    assert (key = key0) as -> by by eapply Hinj.
    by apply Hsites.
  - intros c t k Ht Hin.
    destruct (Hof c t Ht) as [Hc Hok].
    apply (site_inds_ok_elem L site_ind_id shape_ final c t _ Hok) in Hin.
    destruct Hin as [(key & Hkeyc & Hx)|(q & _ & [=])].
    destruct (key_has_neighbour L shape_ Hu Hr Hd Hl c key Hc Hkeyc)
      as (c' & Hc' & Hadj & Hkey').
    destruct (Hhas c' Hc') as (t' & Ht' & Hok').
    destruct (Hkey c' t' key Hok' Hkey') as (n & Hf & _ & Hin').
    rewrite Hx in Hf. injection Hf as <-.
    by exists c', t'.
Qed.

Lemma peps_bonds_are_fresh_and_shared_witness :
  ∃ (p : peps Z) (n' : nat),
    PEPS_init (uniform 2 2 [2; 2; 3]%nat) "urdlp" [] "k{},{}" "I{},{}"
      "ROW{}" "COL{}" 7 = Ok (p, n')
    ∧ Lx (peps_lattice p) = 2 ∧ Ly (peps_lattice p) = 2
    ∧ (∃ t1 t2 k,
         tensor_of p (0, 1) t1 ∧ tensor_of p (1, 1) t2
         ∧ (∀ x, x ∈ t_inds t1 ∧ x ∈ t_inds t2 ↔ x = Uuid k)
         ∧ (7 ≤ k < n')%nat
         ∧ (∀ c t, tensor_of p c t → Uuid k ∈ t_inds t →
                   c = (0, 1) ∨ c = (1, 1))).
Proof.
  destruct (peps_bonds_are_fresh_and_shared (uniform 2 2 [2; 2; 3]%nat)
              "urdlp" [] "k{},{}" "I{},{}" "ROW{}" "COL{}" 7 2 2)
    as (p & n' & E & Hx & Hy & Hadj & _);
    try reflexivity; try (simpl; lia).
  { split; [reflexivity|]. unfold uniform. simpl. by repeat constructor. }
  { unfold axes_order. reflexivity. }
  { intros i j x Hi Hj.
    assert (Hij : (i = 0 ∨ i = 1) ∧ (j = 0 ∨ j = 1)) by lia.
    destruct Hij as [[-> | ->] [-> | ->]]; by intros [= <-]. }
  exists p, n'. split; [exact E|]. split; [exact Hx|]. split; [exact Hy|].
  apply Hadj.
  - unfold in_lattice. rewrite Hx, Hy. simpl. lia.
  - unfold in_lattice. rewrite Hx, Hy. simpl. lia.
  - by left.
Defined.

(** ** Singleton dimensions in the arrays of a PEPS *)

Lemma filter_length_eq {A} (P : A → Prop) `{!∀ x, Decision (P x)}
    (l : list A) :
  length (filter P l) = length l → filter P l = l.
Proof.
  induction l as [|x l IH]; [done|].
  destruct (decide (P x)) as [Hx|Hx].
  - rewrite filter_cons_True by done. simpl. intros [= Hlen].
    by rewrite IH.
  - rewrite filter_cons_False by done. simpl. intros Hlen.
    pose proof (length_filter P l). lia.
Qed.

(** Where the array of a site has as many axes as the site has indices
    and none of length one, giving it with further axes of length one
    changes nothing: the squeeze takes them away again. *)
Lemma padded_site_gives_same_tensor {X : Type} (L : lattice)
    (site_ind_id shape_ : string) (tags : list string)
    (arrays arrays' : list (list (array X))) (i j : Z) (s : ix_state)
    (x x' : array X) :
  array_at arrays i j = Ok x → array_at arrays' i j = Ok x' →
  entries x' = entries x →
  filter (fun d => d ≠ 1%nat) (shape x') = shape x →
  length (shape x) = String.length (array_order_at L shape_ i j) →
  site_tensor L site_ind_id shape_ tags arrays' (i, j) s
  = site_tensor L site_ind_id shape_ tags arrays (i, j) s.
Proof.
  intros Hx Hx' He Hs Hlen.
  assert (Hprep :
    (if bool_decide (length (shape x')
                     ≠ String.length (array_order_at L shape_ i j))
     then squeeze x' else x')
    = (if bool_decide (length (shape x)
                       ≠ String.length (array_order_at L shape_ i j))
       then squeeze x else x)).
  { rewrite (bool_decide_eq_false_2 (length (shape x) ≠ _)) by by intros ?.
    case_bool_decide as Hne.
    - unfold squeeze. rewrite Hs, He. by destruct x.
    - assert (shape x' = shape x).
      { rewrite <- Hs. symmetry. apply filter_length_eq.
        rewrite Hs. lia. }
      destruct x, x'. simpl in *. congruence. }
  unfold site_tensor. rewrite Hx, Hx'. cbn [rbind]. cbv zeta.
  unfold site_array. cbv zeta. by rewrite Hprep.
Qed.

(** C10 at bond dimension one.  On a 2 x 2 lattice the arrays of shape
    [(1, 1, 2)] (two bonds of dimension one and the physical axis) give
    tensors with three axes for their three indices; the same arrays with
    the two missing bonds written as axes of length one, of shape
    [(1, 1, 1, 1, 2)], are squeezed down to the physical axis alone at
    every site, while the site has the same three indices, so that
    [Tensor] refuses them: the two forms do not give the same network. *)
Lemma squeeze_takes_bonds_of_dimension_one :
  ∃ (short : peps Z) (n1 : nat),
    PEPS_init (uniform 2 2 [1; 1; 2]%nat) "urdlp" [] "k{},{}" "I{},{}"
      "ROW{}" "COL{}" 0 = Ok (short, n1)
    ∧ (fun t => shape (t_data t)) <$> tensors short
      = repeat [1; 1; 2]%nat 4
    ∧ (fun t => length (t_inds t)) <$> tensors short = repeat 3%nat 4
    ∧ Forall (fun coo =>
                ∃ y, site_array (peps_lattice short) "urdlp" coo.1 coo.2
                       (zeros [1; 1; 1; 1; 2]%nat) = Ok y
                     ∧ shape y = [2%nat])
             (gen_site_coos (peps_lattice short))
    ∧ PEPS_init (uniform 2 2 [1; 1; 1; 1; 2]%nat) "urdlp" [] "k{},{}"
        "I{},{}" "ROW{}" "COL{}" 0 = Raise ValueError.
Proof.
  eexists _, _. split; [vm_compute; reflexivity|].
  split; [reflexivity|]. split; [reflexivity|].
  split; [|vm_compute; reflexivity].
  repeat constructor; by eexists.
Qed.

(** * Further properties *)

(** ** Bond coordinates *)

Lemma elem_of_yield_if {A} (test : bool) (x y : A) :
  y ∈ yield_if test x ↔ test = true ∧ y = x.
Proof.
  unfold yield_if. destruct test.
  - rewrite list_elem_of_singleton. split; [by intros ->|by intros [_ ->]].
  - rewrite elem_of_nil. split; [done|by intros [? _]].
Qed.

Lemma elem_of_gen_2d_bond_pairs (lx ly : Z) (cyclic : bool * bool) b :
  b ∈ gen_2d_bond_pairs lx ly cyclic ↔
    ∃ i j, 0 ≤ i < lx ∧ 0 ≤ j < ly
      ∧ ((i + 1 < lx ∧ b = ((i, j), (i + 1, j)))
         ∨ (j + 1 < ly ∧ b = ((i, j), (i, j + 1)))
         ∨ (cyclic.1 = true ∧ i = lx - 1 ∧ b = ((0, j), (i, j)))
         ∨ (cyclic.2 = true ∧ j = ly - 1 ∧ b = ((i, 0), (i, j)))).
Proof.
  unfold gen_2d_bond_pairs. rewrite list_elem_of_bind. split.
  - intros (i & Hb & Hi). apply list_elem_of_bind in Hb as (j & Hb & Hj).
    apply elem_of_range in Hi, Hj. exists i, j.
    repeat split; try lia.
    rewrite !elem_of_app, !elem_of_yield_if in Hb.
    rewrite !andb_true_iff, !bool_decide_eq_true in Hb. tauto.
  - intros (i & j & Hi & Hj & Hb). exists i. split; [|by apply elem_of_range].
    apply list_elem_of_bind. exists j. split; [|by apply elem_of_range].
    rewrite !elem_of_app, !elem_of_yield_if.
    rewrite !andb_true_iff, !bool_decide_eq_true. tauto.
Qed.

(** X1.  The pairs that [gen_2d_bond_pairs] yields are the bonds of the
    lattice: a site with its upper or right neighbour, both in the
    lattice, and with periodic boundaries the pairs that close a column
    or a row. *)
Theorem bond_pairs_are_lattice_bonds (L : lattice) (cyclic : bool * bool)
    (b : (Z * Z) * (Z * Z)) :
  b ∈ gen_2d_bond_pairs (Lx L) (Ly L) cyclic ↔
    in_lattice L b.1 ∧ in_lattice L b.2
    ∧ (adjacent b.1 b.2
       ∨ (cyclic.1 = true ∧ wraps_rows (Lx L) b)
       ∨ (cyclic.2 = true ∧ wraps_columns (Ly L) b)).
Proof.
  rewrite elem_of_gen_2d_bond_pairs.
  unfold in_lattice, adjacent, wraps_rows, wraps_columns.
  destruct b as [[i1 j1] [i2 j2]]. simpl. split.
  - intros (i & j & Hi & Hj & [(? & ?) | [(? & ?) | [(? & ? & ?) | (? & ? & ?)]]]);
      simplify_eq; repeat split; try lia.
    + by left; left.
    + by left; right.
    + right. left. repeat split; first [done | lia].
    + right. right. repeat split; first [done | lia].
  - intros ((? & ?) & (? & ?) & [[? | ?] | [(? & ? & ? & ?) | (? & ? & ? & ?)]]);
      simplify_eq.
    + exists i1, j1. repeat split; try lia. left. split; [lia|done].
    + exists i1, j1. repeat split; try lia. right. left. split; [lia|done].
    + exists (Lx L - 1), j2. repeat split; try lia.
      right. right. left. repeat split; done.
    + exists i2, (Ly L - 1). repeat split; try lia.
      right. right. right. repeat split; done.
Qed.

Lemma range_cons (a b : Z) : a < b → range a b = a :: range (a + 1) b.
Proof.
  intros Hab. unfold range.
  replace (Z.to_nat (b - a)) with (S (Z.to_nat (b - (a + 1)))) by lia.
  rewrite <- cons_seq. simpl. f_equal; [lia|].
  rewrite <- seq_shift, map_map. apply map_ext. intros k. lia.
Qed.

Lemma range_snoc (a b : Z) : a ≤ b → range a (b + 1) = range a b ++ [b].
Proof.
  intros Hab. unfold range.
  replace (Z.to_nat (b + 1 - a)) with (Z.to_nat (b - a) + 1)%nat by lia.
  rewrite seq_app, map_app. simpl. do 2 f_equal. lia.
Qed.

Lemma NoDup_range (a b : Z) : NoDup (range a b).
Proof.
  unfold range.
  assert (Hinj : Inj (=) (=) (fun k : nat => a + Z.of_nat k))
    by (intros x y ?; lia).
  apply (NoDup_fmap_2 (fun k : nat => a + Z.of_nat k)), NoDup_seq.
Qed.

Lemma length_range (a b : Z) : length (range a b) = Z.to_nat (b - a).
Proof. unfold range. by rewrite length_map, length_seq. Qed.

(** Without repetition in a comprehension, an element comes from one
    place only. *)
Lemma NoDup_bind_source {A B} (f : A → list B) (l : list A) x1 x2 y :
  NoDup l → NoDup (l ≫= f) →
  x1 ∈ l → x2 ∈ l → y ∈ f x1 → y ∈ f x2 → x1 = x2.
Proof.
  induction l as [|x l IH]; intros Hl Hn H1 H2 Hy1 Hy2.
  - by apply elem_of_nil in H1.
  - rewrite bind_cons in Hn. apply NoDup_app in Hn as (Hfx & Hdis & Hrest).
    apply NoDup_cons in Hl as (Hx & Hl).
    apply elem_of_cons in H1 as [-> | H1], H2 as [-> | H2]; [done| | |by eauto].
    + exfalso. apply (Hdis y Hy1). apply list_elem_of_bind. eauto.
    + exfalso. apply (Hdis y Hy2). apply list_elem_of_bind. eauto.
Qed.

Lemma NoDup_bind_part {A B} (f : A → list B) (l : list A) x :
  NoDup (l ≫= f) → x ∈ l → NoDup (f x).
Proof.
  induction l as [|x' l IH]; intros Hn Hx.
  - by apply elem_of_nil in Hx.
  - rewrite bind_cons in Hn. apply NoDup_app in Hn as (Hfx & _ & Hrest).
    apply elem_of_cons in Hx as [-> | Hx]; eauto.
Qed.

(** What one site contributes to [gen_2d_bond_pairs]. *)
Lemma elem_of_site_bonds (lx ly i j : Z) (cyclic : bool * bool) b :
  b ∈ yield_if (bool_decide (i + 1 < lx)) ((i, j), (i + 1, j))
      ++ yield_if (bool_decide (j + 1 < ly)) ((i, j), (i, j + 1))
      ++ yield_if (cyclic.1 && bool_decide (i = lx - 1)) ((0, j), (i, j))
      ++ yield_if (cyclic.2 && bool_decide (j = ly - 1)) ((i, 0), (i, j))
  ↔ (i + 1 < lx ∧ b = ((i, j), (i + 1, j)))
    ∨ (j + 1 < ly ∧ b = ((i, j), (i, j + 1)))
    ∨ (cyclic.1 = true ∧ i = lx - 1 ∧ b = ((0, j), (i, j)))
    ∨ (cyclic.2 = true ∧ j = ly - 1 ∧ b = ((i, 0), (i, j))).
Proof.
  rewrite !elem_of_app, !elem_of_yield_if.
  rewrite !andb_true_iff, !bool_decide_eq_true. tauto.
Qed.

Ltac bond_cases H :=
  destruct H as [(? & ?) | [(? & ?) | [(? & ? & ?) | (? & ? & ?)]]].

Ltac short_cycle H1 H2 :=
  exfalso;
  first [ apply H1; repeat split; first [done | lia]
        | apply H2; repeat split; first [done | lia] ].

(** X2.  [gen_2d_bond_pairs] yields a bond twice exactly on a periodic lattice
    with a cycle of length two, or of length one in both directions;
    otherwise every bond comes once. *)
Theorem bond_pairs_repeat_only_on_short_cycles (lx ly : Z)
    (cyclic : bool * bool) :
  NoDup (gen_2d_bond_pairs lx ly cyclic) ↔
    ¬ (cyclic.1 = true ∧ lx = 2 ∧ 0 < ly)
    ∧ ¬ (cyclic.2 = true ∧ ly = 2 ∧ 0 < lx)
    ∧ ¬ (cyclic.1 = true ∧ cyclic.2 = true ∧ lx = 1 ∧ ly = 1).
Proof.
  unfold gen_2d_bond_pairs. split.
  - intros Hn. repeat split.
    + intros (Hc & -> & Hly).
      assert (0 = 1); [|lia].
      eapply (NoDup_bind_source _ _ 0 1 ((0, 0), (1, 0)) (NoDup_range 0 2) Hn).
      * apply elem_of_range. lia.
      * apply elem_of_range. lia.
      * apply list_elem_of_bind. exists 0. split; [|apply elem_of_range; lia].
        apply elem_of_site_bonds. left. split; [lia|done].
      * apply list_elem_of_bind. exists 0. split; [|apply elem_of_range; lia].
        apply elem_of_site_bonds. right. right. left. by repeat split.
    + intros (Hc & -> & Hlx).
      assert (0 = 1); [|lia].
      assert (Hin : 0 ∈ range 0 lx) by (apply elem_of_range; lia).
      eapply (NoDup_bind_source _ _ 0 1 ((0, 0), (0, 1)) (NoDup_range 0 2)
                (NoDup_bind_part _ _ 0 Hn Hin)).
      * apply elem_of_range. lia.
      * apply elem_of_range. lia.
      * apply elem_of_site_bonds. right. left. split; [lia|done].
      * apply elem_of_site_bonds. right. right. right. by repeat split.
    + intros (Hc1 & Hc2 & -> & ->). destruct cyclic as [c1 c2].
      simpl in Hc1, Hc2. subst. vm_compute in Hn.
      apply NoDup_cons in Hn as (Hx & _). apply Hx. by left.
  - intros (H1 & H2 & H3). apply NoDup_bind; [| |apply NoDup_range].
    + intros i i' b Hi Hi' Hb Hb'.
      apply list_elem_of_bind in Hb as (j & Hb & Hj).
      apply list_elem_of_bind in Hb' as (j' & Hb' & Hj').
      apply elem_of_range in Hi, Hi', Hj, Hj'.
      apply elem_of_site_bonds in Hb, Hb'.
      bond_cases Hb; bond_cases Hb'; simplify_eq; try lia; short_cycle H1 H2.
    + intros i Hi. apply NoDup_bind; [| |apply NoDup_range].
      * intros j j' b Hj Hj' Hb Hb'.
        apply elem_of_range in Hi, Hj, Hj'.
        apply elem_of_site_bonds in Hb, Hb'.
        bond_cases Hb; bond_cases Hb'; simplify_eq; try lia; short_cycle H1 H2.
      * intros j Hj. apply elem_of_range in Hi, Hj.
        destruct cyclic as [c1 c2]. simpl in *. unfold yield_if.
        destruct c1, c2; simpl; repeat case_bool_decide; simpl;
          repeat (apply NoDup_cons; split); try apply NoDup_nil_2;
          rewrite ?not_elem_of_cons; repeat split; try apply not_elem_of_nil;
          try (intros ?; simplify_eq; lia).
Qed.

Lemma range_succ (n : nat) :
  range 0 (Z.of_nat (S n)) = range 0 (Z.of_nat n) ++ [Z.of_nat n].
Proof.
  replace (Z.of_nat (S n)) with (Z.of_nat n + 1) by lia.
  apply range_snoc. lia.
Qed.

Lemma length_bind_snoc {A B} (f : A → list B) (l : list A) (x : A) :
  length ((l ++ [x]) ≫= f) = (length (l ≫= f) + length (f x))%nat.
Proof.
  rewrite bind_app, length_app. f_equal. simpl. by rewrite app_nil_r.
Qed.

(** The bonds that the first [n] sites of row [i] contribute. *)
Lemma row_bonds_count (lx ly i : Z) (cyclic : bool * bool) (n : nat) :
  0 < ly → Z.of_nat n ≤ ly →
  Z.of_nat (length (range 0 (Z.of_nat n) ≫= (fun j =>
      yield_if (bool_decide (i + 1 < lx)) ((i, j), (i + 1, j))
      ++ yield_if (bool_decide (j + 1 < ly)) ((i, j), (i, j + 1))
      ++ yield_if (cyclic.1 && bool_decide (i = lx - 1)) ((0, j), (i, j))
      ++ yield_if (cyclic.2 && bool_decide (j = ly - 1)) ((i, 0), (i, j)))))
  = Z.of_nat n * ((if bool_decide (i + 1 < lx) then 1 else 0)
                  + (if cyclic.1 && bool_decide (i = lx - 1) then 1 else 0))
    + Z.min (Z.of_nat n) (ly - 1)
    + (if cyclic.2 && bool_decide (Z.of_nat n = ly) then 1 else 0).
Proof.
  intros Hly. induction n as [|n IH]; intros Hn.
  - destruct cyclic as [c1 c2]. simpl fst. simpl snd.
    destruct c1, c2; simpl andb; repeat case_bool_decide; simpl; lia.
  - rewrite range_succ, length_bind_snoc, Nat2Z.inj_add, IH by lia.
    rewrite !length_app. unfold yield_if.
    destruct cyclic as [c1 c2]. simpl fst. simpl snd.
    destruct c1, c2; simpl andb; repeat case_bool_decide; simpl length; lia.
Qed.

(** X3.  An [lx] by [ly] lattice with open boundaries has
    [(lx - 1) * ly + lx * (ly - 1)] bonds; closing the columns adds [ly]
    pairs and closing the rows adds [lx]. *)
Theorem bond_pairs_count (lx ly : Z) (cyclic : bool * bool) :
  0 < lx → 0 < ly →
  Z.of_nat (length (gen_2d_bond_pairs lx ly cyclic))
  = (lx - 1) * ly + lx * (ly - 1)
    + (if cyclic.1 then ly else 0) + (if cyclic.2 then lx else 0).
Proof.
  intros Hlx Hly. unfold gen_2d_bond_pairs.
  assert (Hgen : ∀ m : nat, Z.of_nat m ≤ lx →
    Z.of_nat (length (range 0 (Z.of_nat m) ≫= (fun i =>
      range 0 ly ≫= (fun j =>
        yield_if (bool_decide (i + 1 < lx)) ((i, j), (i + 1, j))
        ++ yield_if (bool_decide (j + 1 < ly)) ((i, j), (i, j + 1))
        ++ yield_if (cyclic.1 && bool_decide (i = lx - 1)) ((0, j), (i, j))
        ++ yield_if (cyclic.2 && bool_decide (j = ly - 1)) ((i, 0), (i, j))))))
    = ly * (Z.min (Z.of_nat m) (lx - 1)
            + (if cyclic.1 && bool_decide (Z.of_nat m = lx) then 1 else 0))
      + Z.of_nat m * ((ly - 1) + (if cyclic.2 then 1 else 0))).
  { induction m as [|m IH]; intros Hm.
    - destruct cyclic as [c1 c2]. simpl fst. simpl snd.
      change (Z.of_nat 0) with 0. rewrite Z.min_l by lia.
      destruct c1, c2; simpl andb; repeat case_bool_decide; simpl; lia.
    - rewrite range_succ, length_bind_snoc, Nat2Z.inj_add, IH by lia.
      pose proof (row_bonds_count lx ly (Z.of_nat m) cyclic (Z.to_nat ly) Hly)
        as Hrow.
      rewrite Z2Nat.id in Hrow by lia. rewrite Hrow by lia.
      destruct cyclic as [c1 c2]. simpl fst. simpl snd.
      destruct c1, c2; simpl andb; repeat case_bool_decide; nia. }
  specialize (Hgen (Z.to_nat lx)). rewrite Z2Nat.id in Hgen by lia.
  rewrite Hgen by lia.
  destruct cyclic as [c1 c2]. simpl fst. simpl snd.
  destruct c1, c2; simpl andb; repeat case_bool_decide; nia.
Qed.

Lemma bond_pairs_count_witness :
  0 < 3 ∧ 0 < 4
  ∧ Z.of_nat (length (gen_2d_bond_pairs 3 4 (true, false)))
    = (3 - 1) * 4 + 3 * (4 - 1) + 4 + 0.
Proof.
  split; [lia|]. split; [lia|].
  apply (bond_pairs_count 3 4 (true, false)); lia.
Defined.

(** ** Enumeration of the sites *)

Lemma lookup_range (a b : Z) (k : nat) :
  Z.of_nat k < b - a → range a b !! k = Some (a + Z.of_nat k).
Proof.
  intros Hk. unfold range.
  change (map ?f ?l) with (f <$> l).
  rewrite list_lookup_fmap, lookup_seq_lt by lia. done.
Qed.

Lemma lookup_bind_blocks {A B} (f : A → list B) (n : nat) (l : list A)
    (k r : nat) :
  (∀ x, length (f x) = n) → (r < n)%nat →
  (l ≫= f) !! (k * n + r)%nat = l !! k ≫= (fun x => f x !! r).
Proof.
  intros Hlen Hr. revert k. induction l as [|x l IH]; intros k.
  - done.
  - rewrite bind_cons. destruct k as [|k].
    + simpl. rewrite lookup_app_l by (rewrite Hlen; lia). done.
    + rewrite lookup_app_r by (rewrite Hlen; lia).
      rewrite Hlen. replace (S k * n + r - n)%nat with (k * n + r)%nat by lia.
      by rewrite IH.
Qed.

Lemma length_bind_blocks {A B} (f : A → list B) (n : nat) (l : list A) :
  (∀ x, length (f x) = n) → length (l ≫= f) = (length l * n)%nat.
Proof.
  intros Hlen. induction l as [|x l IH]; [done|].
  rewrite bind_cons, length_app, Hlen, IH. simpl. lia.
Qed.

Lemma row_of_coos (ly i : Z) :
  (j ← range 0 ly; [(i, j)]) = (fun j => (i, j)) <$> range 0 ly.
Proof. induction (range 0 ly) as [|j l IH]; [done|]. simpl. by f_equal. Qed.

Lemma length_gen_site_coos (L : lattice) :
  length (gen_site_coos L) = (Z.to_nat (Lx L) * Z.to_nat (Ly L))%nat.
Proof.
  unfold gen_site_coos.
  rewrite (length_bind_blocks _ (Z.to_nat (Ly L))).
  - by rewrite length_range, Z.sub_0_r.
  - intros i. by rewrite row_of_coos, length_fmap, length_range, Z.sub_0_r.
Qed.

Lemma site_coos_lookup (L : lattice) (i j : Z) :
  0 ≤ i < Lx L → 0 ≤ j < Ly L →
  length (gen_site_coos L) = Z.to_nat (Lx L * Ly L)
  ∧ gen_site_coos L !! Z.to_nat (i * Ly L + j) = Some (i, j).
Proof.
  intros Hi Hj. unfold gen_site_coos.
  assert (Hlen : ∀ i' : Z, length (j' ← range 0 (Ly L); [(i', j')])
                       = Z.to_nat (Ly L)).
  { intros i'. by rewrite row_of_coos, length_fmap, length_range, Z.sub_0_r. }
  split.
  - rewrite (length_bind_blocks _ _ _ Hlen), length_range. nia.
  - replace (Z.to_nat (i * Ly L + j))
      with (Z.to_nat i * Z.to_nat (Ly L) + Z.to_nat j)%nat by nia.
    rewrite (lookup_bind_blocks _ _ _ _ _ Hlen) by lia.
    rewrite lookup_range by lia. simpl.
    rewrite row_of_coos, list_lookup_fmap, lookup_range by lia. simpl.
    do 2 f_equal; lia.
Qed.

(** X4.  [gen_site_coos] goes through the lattice row by row: the site
    [(i, j)] is the element number [i * Ly + j], and there are
    [Lx * Ly] of them. *)
Theorem sites_come_row_by_row (L : lattice) (i j : Z) :
  0 ≤ i < Lx L → 0 ≤ j < Ly L →
  length (gen_site_coos L) = Z.to_nat (Lx L * Ly L)
  ∧ gen_site_coos L !! Z.to_nat (i * Ly L + j) = Some (i, j).
Proof.
  apply site_coos_lookup.
Qed.

Lemma sites_come_row_by_row_witness :
  length (gen_site_coos (default_lattice 3 4)) = Z.to_nat (3 * 4)
  ∧ gen_site_coos (default_lattice 3 4) !! Z.to_nat (2 * 4 + 1) = Some (2, 1).
Proof. apply (sites_come_row_by_row (default_lattice 3 4) 2 1); simpl; lia. Defined.

Lemma rmap_length {A B} (f : A → result B) (xs : list A) (ys : list B) :
  rmap f xs = Ok ys → length ys = length xs.
Proof.
  revert ys. induction xs as [|x xs IH]; intros ys Hr; simpl in Hr.
  - by simplify_eq.
  - destruct (f x); [|done]. simpl in Hr.
    destruct (rmap f xs) as [ys'|]; [|done]. simpl in Hr. simplify_eq.
    simpl. f_equal. by apply IH.
Qed.

Lemma site_tag_mod (L : lattice) (i j : Z) :
  site_tag L (SInt (i `mod` Lx L)) (SInt (j `mod` Ly L))
  = site_tag L (SInt i) (SInt j).
Proof. unfold site_tag. by rewrite !wrap_int. Qed.

(** X5.  [site_tags] lists the tags row by row, and every integer coordinate,
    also a negative one or one beyond the extent, addresses one of them:
    [site_tag(i, j)] is the entry number [(i mod Lx) * Ly + (j mod Ly)]. *)
Theorem every_coordinate_addresses_a_site (L : lattice) (tags : list string)
    (i j : Z) :
  0 < Lx L → 0 < Ly L → site_tags L = Ok tags →
  length tags = Z.to_nat (Lx L * Ly L)
  ∧ ∃ t, site_tag L (SInt i) (SInt j) = Ok t
         ∧ tags !! Z.to_nat ((i `mod` Lx L) * Ly L + j `mod` Ly L) = Some t.
Proof.
  intros Hx Hy Htags. unfold site_tags in Htags.
  assert (Hi := Z.mod_pos_bound i (Lx L) Hx).
  assert (Hj := Z.mod_pos_bound j (Ly L) Hy).
  destruct (site_coos_lookup L _ _ Hi Hj) as (Hlen & Hlook).
  split; [by rewrite (rmap_length _ _ _ Htags)|].
  destruct (rmap_lookup _ _ _ _ _ Htags Hlook) as (t & Ht & Hst).
  exists t. simpl in Hst. by rewrite site_tag_mod in Hst.
Qed.

Lemma every_coordinate_addresses_a_site_witness :
  length ["I0,0"; "I0,1"; "I1,0"; "I1,1"; "I2,0"; "I2,1"]%string
    = Z.to_nat (3 * 2)
  ∧ ∃ t, site_tag (default_lattice 3 2) (SInt (-1)) (SInt 5) = Ok t
         ∧ ["I0,0"; "I0,1"; "I1,0"; "I1,1"; "I2,0"; "I2,1"]%string
             !! Z.to_nat (((-1) `mod` 3) * 2 + 5 `mod` 2) = Some t.
Proof.
  apply (every_coordinate_addresses_a_site (default_lattice 3 2)); simpl;
    [lia | lia | reflexivity].
Defined.

(** X6.  On a lattice without rows or without columns the list of site tags
    is empty, and asking for the tag of an integer coordinate divides by
    zero. *)
Theorem empty_lattice_has_no_site_tag (L : lattice) (i j : Z) :
  Lx L = 0 ∨ Ly L = 0 →
  site_tags L = Ok []
  ∧ site_tag L (SInt i) (SInt j) = Raise ZeroDivisionError.
Proof.
  intros H0. split.
  - unfold site_tags, gen_site_coos.
    destruct H0 as [-> | ->]; [done|].
    change (range 0 0) with (@nil Z).
    by induction (range 0 (Lx L)).
  - unfold site_tag, wrap, smod, mod_. simpl.
    destruct H0 as [-> | H0]; [done|].
    destruct (decide (Lx L = 0)); [done|]. simpl. by rewrite H0.
Qed.

Lemma empty_lattice_has_no_site_tag_witness :
  site_tags (default_lattice 0 5) = Ok []
  ∧ site_tag (default_lattice 0 5) (SInt 0) (SInt 0) = Raise ZeroDivisionError.
Proof. apply (empty_lattice_has_no_site_tag (default_lattice 0 5)). by left. Defined.

(** ** The default specifiers *)

Lemma int_of_string_of_int (d : Decimal.signed_int) :
  Z.of_int <$> NilZero.int_of_string (NilZero.string_of_int d)
  = Some (Z.of_int d).
Proof.
  destruct d as [u|u]; destruct u;
    first [ by rewrite NilZero.isi_posnil
          | by rewrite NilZero.isi_negnil
          | by rewrite NilZero.isi ].
Qed.

Lemma str_int_inj (z z' : Z) : str_int z = str_int z' → z = z'.
Proof.
  unfold str_int. intros Heq.
  pose proof (int_of_string_of_int (Z.to_int z)) as H1.
  pose proof (int_of_string_of_int (Z.to_int z')) as H2.
  rewrite Heq, H2 in H1. rewrite !DecimalZ.of_to in H1. by simplify_eq.
Qed.

Lemma comma_free_uint (u : Decimal.uint) :
  contains "," (NilEmpty.string_of_uint u) = false.
Proof. induction u; simpl; rewrite ?IHu; done. Qed.

Lemma comma_free_str_int (z : Z) : contains "," (str_int z) = false.
Proof.
  unfold str_int. destruct (Z.to_int z) as [u|u]; simpl.
  - destruct u; try done; apply (comma_free_uint (_ u)).
  - destruct u; try done; apply (comma_free_uint (_ u)).
Qed.

Lemma app_comma_inj (a a' b b' : string) :
  contains "," a = false → contains "," a' = false →
  (a ++ String "," b = a' ++ String "," b')%string → a = a' ∧ b = b'.
Proof.
  revert a'. induction a as [|c a IH]; intros [|c' a'] Ha Ha' Heq;
    simpl in *.
  - by simplify_eq.
  - by simplify_eq.
  - by simplify_eq.
  - apply orb_false_iff in Ha as (_ & Ha), Ha' as (_ & Ha').
    injection Heq as -> Heq. destruct (IH a' Ha Ha' Heq) as (-> & ->). done.
Qed.

Lemma format_pair (c : ascii) (x y : scalar) :
  c ≠ "{"%char →
  format (String c "{},{}") [x; y] = Ok (String c (str x ++ "," ++ str y)).
Proof.
  intros Hc. rewrite format_cons.
  rewrite (bool_decide_eq_false_2 (c = "{"%char)) by done.
  simpl. by rewrite string_app_nil_r.
Qed.

(** A template of one character and two fields separated by a comma
    names different integer pairs differently. *)
Lemma format_pair_inj (c : ascii) (i j i' j' : Z) (t : string) :
  c ≠ "{"%char →
  format (String c "{},{}") [SInt i; SInt j] = Ok t →
  format (String c "{},{}") [SInt i'; SInt j'] = Ok t →
  i = i' ∧ j = j'.
Proof.
  intros Hc. rewrite !format_pair by done. intros H1 H2.
  rewrite <- H2 in H1. injection H1 as H1.
  destruct (app_comma_inj (str_int i) (str_int i') (str_int j) (str_int j'))
    as (Hi & Hj); [apply comma_free_str_int.. | exact H1 |].
  split; by apply str_int_inj.
Qed.

Lemma wrapped_name_ok (tpl : string) (lx ly i j : Z) (t : string) :
  (let* wi := wrap (SInt i) lx in
   let* wj := wrap (SInt j) ly in
   format tpl [wi; wj]) = Ok t →
  lx ≠ 0 ∧ ly ≠ 0
  ∧ format tpl [SInt (i `mod` lx); SInt (j `mod` ly)] = Ok t.
Proof.
  unfold wrap, smod, mod_.
  destruct (decide (lx = 0)); [done|]. destruct (decide (ly = 0)); [done|].
  simpl. done.
Qed.

(** X7.  With the default specifier ['I{},{}'], two integer coordinates have
    the same site tag only if they agree up to wrapping around the
    lattice. *)
Theorem default_site_tag_identifies_the_site (lx ly i j i' j' : Z)
    (t : string) :
  site_tag (default_lattice lx ly) (SInt i) (SInt j) = Ok t →
  site_tag (default_lattice lx ly) (SInt i') (SInt j') = Ok t →
  i `mod` lx = i' `mod` lx ∧ j `mod` ly = j' `mod` ly.
Proof.
  unfold site_tag. simpl Lx. simpl Ly. simpl site_tag_id.
  intros H1 H2.
  apply wrapped_name_ok in H1 as (_ & _ & H1), H2 as (_ & _ & H2).
  by apply (format_pair_inj "I" _ _ _ _ t).
Qed.

Lemma default_site_tag_identifies_the_site_witness :
  5 `mod` 3 = (-1) `mod` 3 ∧ 0 `mod` 2 = 4 `mod` 2.
Proof.
  apply (default_site_tag_identifies_the_site 3 2 5 0 (-1) 4 "I2,0");
    reflexivity.
Defined.

Lemma rmap_cons {A B} (f : A → result B) (x : A) (xs : list A) :
  rmap f (x :: xs)
  = let* y := f x in let* ys := rmap f xs in Ok (y :: ys).
Proof. done. Qed.

Lemma NoDup_rmap {A B} (f : A → result B) (xs : list A) (ys : list B) :
  rmap f xs = Ok ys → NoDup xs →
  (∀ x x' y, x ∈ xs → x' ∈ xs → f x = Ok y → f x' = Ok y → x = x') →
  NoDup ys.
Proof.
  revert ys. induction xs as [|x xs IH]; intros ys Hr Hn Hinj; simpl in Hr.
  - simplify_eq. constructor.
  - destruct (f x) as [y|] eqn:Ex; [|done]. simpl in Hr.
    destruct (rmap f xs) as [ys'|] eqn:Er; [|done]. simpl in Hr. simplify_eq.
    apply NoDup_cons in Hn as (Hx & Hn). apply NoDup_cons. split.
    + intros Hy. apply list_elem_of_lookup in Hy as (k & Hk).
      assert (Hlen := rmap_length _ _ _ Er).
      destruct (xs !! k) as [x'|] eqn:Ek.
      * destruct (rmap_lookup _ _ _ _ _ Er Ek) as (y' & Hy' & Hf).
        rewrite Hk in Hy'. simplify_eq.
        assert (x = x');
          [|subst; apply Hx; by apply list_elem_of_lookup_2 in Ek].
        apply (Hinj x x' y'); [by left|right|done..].
        by apply list_elem_of_lookup_2 in Ek.
      * apply lookup_ge_None in Ek. apply lookup_lt_Some in Hk. lia.
    + apply IH; [done..|]. intros x1 x2 y0 H1 H2. apply Hinj; by right.
Qed.

Lemma NoDup_gen_site_coos (L : lattice) : NoDup (gen_site_coos L).
Proof.
  unfold gen_site_coos. apply NoDup_bind; [| |apply NoDup_range].
  - intros i i' y _ _ Hy Hy'.
    apply list_elem_of_bind in Hy as (j & Hy & _).
    apply list_elem_of_bind in Hy' as (j' & Hy' & _).
    apply list_elem_of_singleton in Hy, Hy'. by simplify_eq.
  - intros i _. rewrite row_of_coos. apply NoDup_fmap_2; [|apply NoDup_range].
    intros j j' ?. by simplify_eq.
Qed.

Lemma default_names_NoDup (lx ly : Z) :
  distinct_site_tags (default_lattice lx ly) = true
  ∧ distinct_site_inds (default_lattice lx ly) "k{},{}" = true.
Proof.
  assert (Hgen : ∀ c : ascii, c ≠ "{"%char →
    match rmap (fun ij : Z * Z =>
                  let* i := wrap (SInt ij.1) lx in
                  let* j := wrap (SInt ij.2) ly in
                  format (String c "{},{}") [i; j])
               (gen_site_coos (default_lattice lx ly)) with
    | Ok names => bool_decide (NoDup names)
    | Raise _ => false
    end = true).
  { intros c Hc.
    destruct (rmap _ _) as [names|e] eqn:Er.
    - apply bool_decide_eq_true.
      apply (NoDup_rmap _ _ _ Er (NoDup_gen_site_coos _)).
      intros [i j] [i' j'] t Hin Hin' H1 H2.
      apply elem_of_gen_site_coos in Hin as (Hi & Hj), Hin' as (Hi' & Hj').
      apply wrapped_name_ok in H1 as (_ & _ & H1), H2 as (_ & _ & H2).
      unfold in_lattice in *. simpl in Hi, Hj, Hi', Hj'.
      destruct (format_pair_inj c _ _ _ _ t Hc H1 H2) as (Hmi & Hmj).
      simpl in Hmi, Hmj. rewrite !Z.mod_small in Hmi, Hmj by lia. by subst.
    - exfalso.
      assert (Hex : ∀ coos, Forall (in_lattice (default_lattice lx ly)) coos →
        ∃ names, rmap (fun ij : Z * Z =>
                  let* i := wrap (SInt ij.1) lx in
                  let* j := wrap (SInt ij.2) ly in
                  format (String c "{},{}") [i; j]) coos = Ok names).
      { induction 1 as [|[i j] coos (Hi & Hj) _ (names & IH)]; [by eexists|].
        unfold in_lattice in Hi, Hj. simpl in Hi, Hj.
        rewrite rmap_cons, IH. cbn beta. cbn [fst snd].
        unfold wrap, smod, mod_.
        destruct (decide (lx = 0)); [lia|]. destruct (decide (ly = 0)); [lia|].
        cbn [rbind]. rewrite format_pair by done. by eexists. }
      destruct (Hex (gen_site_coos (default_lattice lx ly))) as (names & Hn).
      + apply Forall_forall. intros coo. apply elem_of_gen_site_coos.
      + rewrite Hn in Er. done. }
  split.
  - unfold distinct_site_tags, site_tags, site_tag. apply (Hgen "I"%char). done.
  - unfold distinct_site_inds, site_ind. apply (Hgen "k"%char). done.
Qed.

Lemma default_names_distinct (lx ly : Z) :
  distinct_site_tags (default_lattice lx ly) = true.
Proof. apply default_names_NoDup. Qed.

(** X8.  With the default specifiers ['I{},{}'] and ['k{},{}'] the site tags
    of a lattice of any size are pairwise different, and so are its site
    indices. *)
Theorem default_names_are_distinct (lx ly : Z) :
  distinct_site_tags (default_lattice lx ly) = true
  ∧ distinct_site_inds (default_lattice lx ly) "k{},{}" = true.
Proof.
  apply default_names_NoDup.
Qed.

(** ** Rows, columns and converted coordinates *)

Lemma row_tag_mod (L : lattice) (i : Z) :
  row_tag L (SInt (i `mod` Lx L)) = row_tag L (SInt i).
Proof. unfold row_tag. by rewrite wrap_int. Qed.

Lemma col_tag_mod (L : lattice) (j : Z) :
  col_tag L (SInt (j `mod` Ly L)) = col_tag L (SInt j).
Proof. unfold col_tag. by rewrite wrap_int. Qed.

(** X9.  [row_tags] has one tag per row and [col_tags] one per column, in
    order; [row_tag(i)] of any integer is the entry number [i mod Lx] of
    [row_tags], so that [row_tag(-1)] is the tag of the last row, and
    likewise for the columns. *)
Theorem every_index_addresses_a_row_and_a_column (L : lattice)
    (rows cols : list string) (i j : Z) :
  0 < Lx L → 0 < Ly L → row_tags L = Ok rows → col_tags L = Ok cols →
  length rows = Z.to_nat (Lx L) ∧ length cols = Z.to_nat (Ly L)
  ∧ (∃ t, row_tag L (SInt i) = Ok t
          ∧ rows !! Z.to_nat (i `mod` Lx L) = Some t)
  ∧ (∃ t, col_tag L (SInt j) = Ok t
          ∧ cols !! Z.to_nat (j `mod` Ly L) = Some t).
Proof.
  intros Hx Hy Hrows Hcols. unfold row_tags in Hrows. unfold col_tags in Hcols.
  assert (Hi := Z.mod_pos_bound i (Lx L) Hx).
  assert (Hj := Z.mod_pos_bound j (Ly L) Hy).
  repeat split.
  - by rewrite (rmap_length _ _ _ Hrows), length_range, Z.sub_0_r.
  - by rewrite (rmap_length _ _ _ Hcols), length_range, Z.sub_0_r.
  - destruct (rmap_lookup _ _ _ (Z.to_nat (i `mod` Lx L)) (i `mod` Lx L) Hrows)
      as (t & Ht & Hrt).
    { rewrite lookup_range by lia. f_equal. lia. }
    exists t. by rewrite <- row_tag_mod.
  - destruct (rmap_lookup _ _ _ (Z.to_nat (j `mod` Ly L)) (j `mod` Ly L) Hcols)
      as (t & Ht & Hct).
    { rewrite lookup_range by lia. f_equal. lia. }
    exists t. by rewrite <- col_tag_mod.
Qed.

Lemma every_index_addresses_a_row_and_a_column_witness :
  length ["ROW0"; "ROW1"; "ROW2"]%string = Z.to_nat 3
  ∧ length ["COL0"; "COL1"]%string = Z.to_nat 2
  ∧ (∃ t, row_tag (default_lattice 3 2) (SInt (-1)) = Ok t
          ∧ ["ROW0"; "ROW1"; "ROW2"]%string !! Z.to_nat ((-1) `mod` 3) = Some t)
  ∧ (∃ t, col_tag (default_lattice 3 2) (SInt 7) = Ok t
          ∧ ["COL0"; "COL1"]%string !! Z.to_nat (7 `mod` 2) = Some t).
Proof.
  apply (every_index_addresses_a_row_and_a_column (default_lattice 3 2));
    simpl; [lia | lia | reflexivity | reflexivity].
Defined.

(** X10.  [maybe_convert_coo] gives back its argument or the site tag of an
    integer coordinate, and converting what it gave changes nothing. *)
Theorem maybe_convert_coo_settles (int_of_str : string → option Z)
    (L : lattice) (x y : value) :
  maybe_convert_coo int_of_str L x = Ok y →
  (y = x ∨ ∃ i j t, site_tag L (SInt i) (SInt j) = Ok t
                    ∧ y = VScalar (SStr t))
  ∧ maybe_convert_coo int_of_str L y = Ok y.
Proof.
  rewrite maybe_convert_coo_spec. intros Hx.
  assert (Hstr : ∀ t, maybe_convert_coo int_of_str L (VScalar (SStr t))
                      = Ok (VScalar (SStr t))) by done.
  assert (Hgen :
    match unpack_coo int_of_str x with
    | Ok (i, j) =>
        let* t := site_tag L (SInt i) (SInt j) in Ok (VScalar (SStr t))
    | Raise _ => Ok x
    end = Ok y →
    (y = x ∨ ∃ i j t, site_tag L (SInt i) (SInt j) = Ok t
                      ∧ y = VScalar (SStr t))
    ∧ maybe_convert_coo int_of_str L y = Ok y).
  { destruct (unpack_coo int_of_str x) as [[i j]|e] eqn:Hu.
    - destruct (site_tag L (SInt i) (SInt j)) as [t|] eqn:Ht; [|done].
      simpl. intros [= <-]. split; [right; by exists i, j, t|apply Hstr].
    - intros [= <-]. split; [by left|].
      rewrite maybe_convert_coo_spec, Hu. by destruct x as [[]|]. }
  destruct x as [[z|s|]|l]; exact (Hgen Hx).
Qed.

Lemma maybe_convert_coo_settles_witness :
  (VScalar (SStr "I1,0") = VTuple [SInt 1; SInt 2]
   ∨ ∃ i j t, site_tag (default_lattice 2 2) (SInt i) (SInt j) = Ok t
              ∧ VScalar (SStr "I1,0") = VScalar (SStr t))
  ∧ maybe_convert_coo (fun _ => None) (default_lattice 2 2)
      (VScalar (SStr "I1,0")) = Ok (VScalar (SStr "I1,0")).
Proof.
  apply (maybe_convert_coo_settles (fun _ => None) (default_lattice 2 2)
           (VTuple [SInt 1; SInt 2])).
  reflexivity.
Defined.

(** ** Scripts of engine calls *)

Section Scripts.
Context {TN V : Type} `{!Engine TN V}.

Lemma emits_ret : emits (TN := TN) [] (ret tt).
Proof. intros [n t]. unfold ret. simpl. by rewrite app_nil_r. Qed.

Lemma emits_engine (c : call) : emits (TN := TN) [c] (engine c).
Proof. by intros st. Qed.

Lemma emits_bind (cs1 cs2 : list call) (m : M TN unit) (k : unit → M TN unit) :
  emits cs1 m → emits cs2 (k tt) → emits (cs1 ++ cs2) (bind m k).
Proof.
  intros H1 H2 st. unfold bind. rewrite H1, H2. simpl.
  by rewrite foldl_app, fmap_app, app_assoc.
Qed.

Lemma emits_lift {A} (r : result A) (a : A) (cs : list call)
    (k : A → M TN unit) :
  r = Ok a → emits cs (k a) → emits cs (bind (lift r) k).
Proof. intros -> Hk st. unfold bind, lift. apply Hk. Qed.

Lemma emits_for {A} (xs : list A) (body : A → M TN unit)
    (script : A → list call) :
  (∀ x, x ∈ xs → emits (script x) (body x)) →
  emits (xs ≫= script) (for_ xs body).
Proof.
  induction xs as [|x xs IH]; intros Hbody.
  - apply emits_ret.
  - simpl. apply emits_bind.
    + apply Hbody. by left.
    + apply IH. intros y Hy. apply Hbody. by right.
Qed.

Lemma emits_for_engine {A} (xs : list A) (f : A → call) :
  emits (TN := TN) (f <$> xs) (for_ xs (fun x => engine (f x))).
Proof.
  intros st. rewrite for_engine. f_equal. f_equal.
  - revert st. induction xs as [|x xs IH]; intros st; [done|].
    simpl. apply (IH {| net := apply (f x) (net st); trace := trace st |}).
  - by rewrite <- list_fmap_compose.
Qed.

Lemma emits_events (cs : list call) (m : M TN unit) (st : netstate TN) :
  emits cs m → events_of m st = Call <$> cs.
Proof. intros Hm. apply events_of_app. by rewrite Hm. Qed.

End Scripts.

(** ** The four sweeps *)

Lemma range_down_cons (a b : Z) :
  b < a → range_down a b = a :: range_down (a - 1) b.
Proof.
  intros Hab. unfold range_down.
  replace (Z.to_nat (a - b)) with (S (Z.to_nat (a - 1 - b))) by lia.
  rewrite <- cons_seq. simpl. f_equal; [lia|].
  rewrite <- seq_shift, map_map. apply map_ext. intros k. lia.
Qed.

Lemma range_down_empty_ge (a b : Z) : a ≤ b → range_down a b = [].
Proof. intros Hab. unfold range_down. by replace (Z.to_nat (a - b)) with 0%nat by lia. Qed.

Lemma range_empty_ge (a b : Z) : b ≤ a → range a b = [].
Proof. intros Hab. unfold range. by replace (Z.to_nat (b - a)) with 0%nat by lia. Qed.

(** Counting down is counting up, read backwards. *)
Lemma range_down_reverse (a b : Z) :
  range_down b a = reverse ((fun k => k + 1) <$> range a b).
Proof.
  destruct (decide (b ≤ a)) as [Hle|Hlt].
  - by rewrite range_down_empty_ge, range_empty_ge.
  - remember (Z.to_nat (b - a)) as n eqn:Hn.
    revert b Hlt Hn. induction n as [|n IH]; intros b Hlt Hn; [lia|].
    replace b with ((b - 1) + 1) at 2 by lia.
    rewrite range_snoc by lia. rewrite fmap_app, reverse_app. simpl.
    rewrite range_down_cons by lia. f_equal; [lia|].
    destruct (decide (b - 1 ≤ a)) as [Hle'|Hlt'].
    + by rewrite range_down_empty_ge, range_empty_ge.
    + apply IH; lia.
Qed.

Section SweepScripts.
Context {TN V : Type} `{!Engine TN V}.
Variable L : lattice.

Lemma canonize_row_right i yr opts :
  emits (TN := TN)
    ((fun j => Canonize_between (i, j) (i, j + 1) opts)
       <$> range (min2 yr) (max2 yr))
    (canonize_row L i "right" (Some yr) opts).
Proof. apply (emits_lift _ tt); [done|]. apply emits_for_engine. Qed.

Lemma canonize_row_left i yr opts :
  emits (TN := TN)
    ((fun j => Canonize_between (i, j) (i, j - 1) opts)
       <$> range_down (max2 yr) (min2 yr))
    (canonize_row L i "left" (Some yr) opts).
Proof. apply (emits_lift _ tt); [done|]. apply emits_for_engine. Qed.

Lemma canonize_column_up j xr opts :
  emits (TN := TN)
    ((fun i => Canonize_between (i, j) (i + 1, j) opts)
       <$> range (min2 xr) (max2 xr))
    (canonize_column L j "up" (Some xr) opts).
Proof. apply (emits_lift _ tt); [done|]. apply emits_for_engine. Qed.

Lemma canonize_column_down j xr opts :
  emits (TN := TN)
    ((fun i => Canonize_between (i, j) (i - 1, j) opts)
       <$> range_down (max2 xr) (min2 xr))
    (canonize_column L j "down" (Some xr) opts).
Proof. apply (emits_lift _ tt); [done|]. apply emits_for_engine. Qed.

Lemma compress_row_right i yr opts :
  emits (TN := TN)
    ((fun j => Compress_between (i, j) (i, j + 1)
                 (setdefault "absorb" (SStr "right") opts))
       <$> range (min2 yr) (max2 yr))
    (compress_row L i "right" (Some yr) opts).
Proof. apply (emits_lift _ tt); [done|]. apply emits_for_engine. Qed.

Lemma compress_row_left i yr opts :
  emits (TN := TN)
    ((fun j => Compress_between (i, j) (i, j - 1)
                 (setdefault "absorb" (SStr "right") opts))
       <$> range_down (max2 yr) (min2 yr))
    (compress_row L i "left" (Some yr) opts).
Proof. apply (emits_lift _ tt); [done|]. apply emits_for_engine. Qed.

Lemma compress_column_up j xr opts :
  emits (TN := TN)
    ((fun i => Compress_between (i, j) (i + 1, j)
                 (setdefault "absorb" (SStr "right") opts))
       <$> range (min2 xr) (max2 xr))
    (compress_column L j "up" (Some xr) opts).
Proof. apply (emits_lift _ tt); [done|]. apply emits_for_engine. Qed.

Lemma compress_column_down j xr opts :
  emits (TN := TN)
    ((fun i => Compress_between (i - 1, j) (i, j)
                 (setdefault "absorb" (SStr "left") opts))
       <$> range_down (max2 xr) (min2 xr))
    (compress_column L j "down" (Some xr) opts).
Proof. apply (emits_lift _ tt); [done|]. apply emits_for_engine. Qed.

Lemma mirrored_calls (f g : Z → call) (a b : Z) :
  (∀ k, g (k + 1) = flipped (f k)) →
  g <$> range_down b a = reverse (flipped <$> (f <$> range a b)).
Proof.
  intros Hfg. rewrite range_down_reverse, fmap_reverse. f_equal.
  rewrite <- !list_fmap_compose. apply list_fmap_ext. intros _ k _. apply Hfg.
Qed.

End SweepScripts.

(** X11.  A sweep to the left goes over the bonds of the sweep to the right in
    the opposite order and takes each from the other side, and so does a
    sweep down with respect to a sweep up; only the downward compression
    of a column keeps the order of the two sites of a bond. *)
Theorem opposite_sweeps_mirror_each_other {TN V : Type} `{!Engine TN V}
    (L : lattice) (k : Z) (r : Z * Z) (opts : kwargs) :
  (∃ cs, emits (TN := TN) cs (canonize_row L k "right" (Some r) opts)
         ∧ emits (TN := TN) (reverse (flipped <$> cs))
                 (canonize_row L k "left" (Some r) opts))
  ∧ (∃ cs, emits (TN := TN) cs (canonize_column L k "up" (Some r) opts)
           ∧ emits (TN := TN) (reverse (flipped <$> cs))
                   (canonize_column L k "down" (Some r) opts))
  ∧ (∃ cs, emits (TN := TN) cs (compress_row L k "right" (Some r) opts)
           ∧ emits (TN := TN) (reverse (flipped <$> cs))
                   (compress_row L k "left" (Some r) opts))
  ∧ (∃ cs cs', emits (TN := TN) cs (compress_column L k "up" (Some r) opts)
               ∧ emits (TN := TN) cs'
                       (compress_column L k "down" (Some r) opts)
               ∧ bond_of <$> cs' = reverse (bond_of <$> cs)).
Proof.
  repeat split.
  - eexists. split; [apply canonize_row_right|].
    rewrite <- (mirrored_calls _ (fun j => Canonize_between (k, j) (k, j - 1) opts)).
    + apply canonize_row_left.
    + intros j. simpl. do 3 f_equal. lia.
  - eexists. split; [apply canonize_column_up|].
    rewrite <- (mirrored_calls _ (fun i => Canonize_between (i, k) (i - 1, k) opts)).
    + apply canonize_column_down.
    + intros i. simpl. do 3 f_equal. lia.
  - eexists. split; [apply compress_row_right|].
    rewrite <- (mirrored_calls _ (fun j => Compress_between (k, j) (k, j - 1)
                   (setdefault "absorb" (SStr "right") opts))).
    + apply compress_row_left.
    + intros j. simpl. do 3 f_equal. lia.
  - eexists _, _. split; [apply compress_column_up|].
    split; [apply compress_column_down|].
    rewrite range_down_reverse, !fmap_reverse. f_equal.
    rewrite <- !list_fmap_compose. apply list_fmap_ext.
    intros _ i _. simpl. do 3 f_equal. lia.
Qed.

Lemma setdefault_subseteq (k : string) (v : scalar) (d : kwargs) :
  d ⊆ setdefault k v d ∧ is_Some (setdefault k v d !! k).
Proof.
  unfold setdefault. destruct (d !! k) as [w|] eqn:Hk.
  - split; [done|]. rewrite Hk. by eexists.
  - split; [by apply insert_subseteq|]. rewrite lookup_insert_eq. by eexists.
Qed.

Lemma emits_count {TN V : Type} `{!Engine TN V} (cs : list call)
    (m : M TN unit) (st : netstate TN) :
  emits cs m → length (events_of m st) = length cs.
Proof. intros Hm. by rewrite (emits_events _ _ _ Hm), length_fmap. Qed.

Lemma length_range_down (a b : Z) :
  length (range_down a b) = Z.to_nat (a - b).
Proof. unfold range_down. by rewrite length_map, length_seq. Qed.

(** X12.  A sweep over the range [(a, b)] is the sweep over [(b, a)]: only the
    smaller and the larger end count; and it makes one pairwise call per
    bond between them, [|b - a|] calls in all. *)
Theorem sweep_range_is_unordered {TN V : Type} `{!Engine TN V}
    (L : lattice) (k a b : Z) (row_sweep column_sweep : string)
    (opts : kwargs) (st : netstate TN) :
  row_sweep ∈ row_sweeps → column_sweep ∈ column_sweeps →
  (canonize_row L k row_sweep (Some (a, b)) opts st
   = canonize_row L k row_sweep (Some (b, a)) opts st
   ∧ length (events_of (canonize_row L k row_sweep (Some (a, b)) opts) st)
     = Z.to_nat (Z.abs (b - a)))
  ∧ (compress_row L k row_sweep (Some (a, b)) opts st
     = compress_row L k row_sweep (Some (b, a)) opts st
     ∧ length (events_of (compress_row L k row_sweep (Some (a, b)) opts) st)
       = Z.to_nat (Z.abs (b - a)))
  ∧ (canonize_column L k column_sweep (Some (a, b)) opts st
     = canonize_column L k column_sweep (Some (b, a)) opts st
     ∧ length (events_of
                 (canonize_column L k column_sweep (Some (a, b)) opts) st)
       = Z.to_nat (Z.abs (b - a)))
  ∧ (compress_column L k column_sweep (Some (a, b)) opts st
     = compress_column L k column_sweep (Some (b, a)) opts st
     ∧ length (events_of
                 (compress_column L k column_sweep (Some (a, b)) opts) st)
       = Z.to_nat (Z.abs (b - a))).
Proof.
  intros Hrow Hcol.
  assert (Hmin : min2 (b, a) = min2 (a, b)) by (unfold min2; simpl; lia).
  assert (Hmax : max2 (b, a) = max2 (a, b)) by (unfold max2; simpl; lia).
  assert (Hd : Z.to_nat (max2 (a, b) - min2 (a, b)) = Z.to_nat (Z.abs (b - a)))
    by (unfold min2, max2; simpl; lia).
  apply list_elem_of_In in Hrow, Hcol.
  destruct Hrow as [<- | [<- | []]]; destruct Hcol as [<- | [<- | []]];
    repeat split;
    try (unfold canonize_row, compress_row, canonize_column, compress_column;
         simpl default; by rewrite Hmin, Hmax);
    first
      [ rewrite (emits_count _ _ _ (canonize_row_right L _ _ _))
      | rewrite (emits_count _ _ _ (canonize_row_left L _ _ _))
      | rewrite (emits_count _ _ _ (compress_row_right L _ _ _))
      | rewrite (emits_count _ _ _ (compress_row_left L _ _ _))
      | rewrite (emits_count _ _ _ (canonize_column_up L _ _ _))
      | rewrite (emits_count _ _ _ (canonize_column_down L _ _ _))
      | rewrite (emits_count _ _ _ (compress_column_up L _ _ _))
      | rewrite (emits_count _ _ _ (compress_column_down L _ _ _)) ];
    by rewrite length_fmap, ?length_range, ?length_range_down.
Qed.

Lemma sweep_range_is_unordered_witness :
  (canonize_row (Engine0 := recorder) (default_lattice 3 4) 1 "left" (Some (3, 0)) ∅ fresh
   = canonize_row (Engine0 := recorder) (default_lattice 3 4) 1 "left" (Some (0, 3)) ∅ fresh
   ∧ length (events_of (canonize_row (Engine0 := recorder) (default_lattice 3 4) 1
                          "left" (Some (3, 0)) ∅) fresh)
     = Z.to_nat (Z.abs (0 - 3)))
  ∧ (compress_row (Engine0 := recorder) (default_lattice 3 4) 1 "left" (Some (3, 0)) ∅ fresh
     = compress_row (Engine0 := recorder) (default_lattice 3 4) 1 "left" (Some (0, 3)) ∅ fresh
     ∧ length (events_of (compress_row (Engine0 := recorder) (default_lattice 3 4) 1
                            "left" (Some (3, 0)) ∅) fresh)
       = Z.to_nat (Z.abs (0 - 3)))
  ∧ (canonize_column (Engine0 := recorder) (default_lattice 3 4) 1 "up" (Some (3, 0)) ∅ fresh
     = canonize_column (Engine0 := recorder) (default_lattice 3 4) 1 "up" (Some (0, 3)) ∅ fresh
     ∧ length (events_of (canonize_column (Engine0 := recorder) (default_lattice 3 4) 1
                            "up" (Some (3, 0)) ∅) fresh)
       = Z.to_nat (Z.abs (0 - 3)))
  ∧ (compress_column (Engine0 := recorder) (default_lattice 3 4) 1 "up" (Some (3, 0)) ∅ fresh
     = compress_column (Engine0 := recorder) (default_lattice 3 4) 1 "up" (Some (0, 3)) ∅ fresh
     ∧ length (events_of (compress_column (Engine0 := recorder) (default_lattice 3 4) 1
                            "up" (Some (3, 0)) ∅) fresh)
       = Z.to_nat (Z.abs (0 - 3))).
Proof.
  apply (sweep_range_is_unordered (Engine0 := recorder)); by_decide.
Defined.

(** X13.  The compression sweeps pass on every option of the caller as it is,
    an [absorb] of the caller included, and every compression they ask
    for has an [absorb] option. *)
Theorem compression_keeps_the_options_of_the_caller
    {TN V : Type} `{!Engine TN V} (L : lattice) (k : Z)
    (row_sweep column_sweep : string) (r : Z * Z) (opts : kwargs)
    (st : netstate TN) :
  row_sweep ∈ row_sweeps → column_sweep ∈ column_sweeps →
  Forall (fun e => ∃ c o, e = Call c ∧ options_of c = Some o
                          ∧ opts ⊆ o ∧ is_Some (o !! "absorb"))
         (events_of (compress_row L k row_sweep (Some r) opts) st
          ++ events_of (compress_column L k column_sweep (Some r) opts) st).
Proof.
  intros Hrow Hcol. apply list_elem_of_In in Hrow, Hcol.
  assert (Hd := setdefault_subseteq "absorb").
  destruct Hrow as [<- | [<- | []]]; destruct Hcol as [<- | [<- | []]];
    apply Forall_app; split;
    first
      [ rewrite (emits_events _ _ _ (compress_row_right L _ _ _))
      | rewrite (emits_events _ _ _ (compress_row_left L _ _ _))
      | rewrite (emits_events _ _ _ (compress_column_up L _ _ _))
      | rewrite (emits_events _ _ _ (compress_column_down L _ _ _)) ];
    apply Forall_fmap, Forall_fmap, Forall_forall; intros j _;
    eexists _, _; (split; [done|]); (split; [done|]); apply Hd.
Qed.

Lemma compression_keeps_the_options_of_the_caller_witness :
  Forall (fun e => ∃ c o, e = Call c ∧ options_of c = Some o
                          ∧ {[ "absorb" := SStr "both"; "max_bond" := SInt 8 ]} ⊆ o
                          ∧ is_Some (o !! "absorb"))
         (events_of (compress_row (Engine0 := recorder) (default_lattice 3 3)
                       1 "left" (Some (0, 2))
                       {[ "absorb" := SStr "both"; "max_bond" := SInt 8 ]}) fresh
          ++ events_of (compress_column (Engine0 := recorder)
                          (default_lattice 3 3) 1 "down" (Some (0, 2))
                          {[ "absorb" := SStr "both"; "max_bond" := SInt 8 ]})
                       fresh).
Proof.
  apply (compression_keeps_the_options_of_the_caller (Engine0 := recorder));
    by_decide.
Defined.

(** X14.  [canonize_row_around] with a window inside the row: it canonizes
    from the left end of the row rightwards up to the smallest column of
    the window, then from the right end leftwards down to the largest
    one, and makes no call between two columns of the window. *)
Theorem canonize_row_around_spares_the_window
    {TN V : Type} `{!Engine TN V} (L : lattice) (i lo hi : Z)
    (around : list Z) :
  min_of around = Ok lo → max_of around = Ok hi →
  0 ≤ lo → hi ≤ Ly L - 1 →
  emits (TN := TN)
    (((fun j => Canonize_between (i, j) (i, j + 1) ∅) <$> range 0 lo)
     ++ ((fun j => Canonize_between (i, j) (i, j - 1) ∅)
           <$> range_down (Ly L - 1) hi))
    (canonize_row_around L i around).
Proof.
  intros Hlo Hhi H0 H1. unfold canonize_row_around.
  apply (emits_lift _ lo); [done|]. apply emits_bind.
  - replace 0 with (min2 (0, lo)) at 1 by (unfold min2; simpl; lia).
    replace lo with (max2 (0, lo)) at 2 by (unfold max2; simpl; lia).
    apply canonize_row_right.
  - apply (emits_lift _ hi); [done|].
    replace (Ly L - 1) with (max2 (hi, Ly L - 1)) at 1
      by (unfold max2; simpl; lia).
    replace hi with (min2 (hi, Ly L - 1)) at 2 by (unfold min2; simpl; lia).
    apply canonize_row_left.
Qed.

Lemma canonize_row_around_spares_the_window_witness :
  emits (Engine0 := recorder)
    (((fun j => Canonize_between (1, j) (1, j + 1) ∅) <$> range 0 2)
     ++ ((fun j => Canonize_between (1, j) (1, j - 1) ∅)
           <$> range_down (Ly (default_lattice 3 6) - 1) 3))
    (canonize_row_around (Engine0 := recorder) (default_lattice 3 6) 1 [3; 2]).
Proof.
  apply (canonize_row_around_spares_the_window (Engine0 := recorder)
           (default_lattice 3 6) 1 2 3 [3; 2]);
    [reflexivity | reflexivity | lia | simpl; lia].
Defined.

(** X15.  A sweep along a row or a column only addresses sites of that row or
    column that lie in the range of the sweep. *)
Theorem sweeps_stay_in_their_range
    {TN V : Type} `{!Engine TN V} (L : lattice) (k : Z)
    (row_sweep column_sweep : string) (r : Z * Z) (opts : kwargs) :
  row_sweep ∈ row_sweeps → column_sweep ∈ column_sweeps →
  calls_only (TN := TN) (confined L (rect (k, k) r))
             (canonize_row L k row_sweep (Some r) opts)
  ∧ calls_only (TN := TN) (confined L (rect (k, k) r))
               (compress_row L k row_sweep (Some r) opts)
  ∧ calls_only (TN := TN) (confined L (rect r (k, k)))
               (canonize_column L k column_sweep (Some r) opts)
  ∧ calls_only (TN := TN) (confined L (rect r (k, k)))
               (compress_column L k column_sweep (Some r) opts).
Proof.
  intros Hrow Hcol.
  assert (Hin : ∀ j, min2 r ≤ j ≤ max2 r → rect (k, k) r (k, j))
    by (intros j Hj; unfold rect, min2, max2 in *; simpl; lia).
  assert (Hin' : ∀ i, min2 r ≤ i ≤ max2 r → rect r (k, k) (i, k))
    by (intros i Hi; unfold rect, min2, max2 in *; simpl; lia).
  repeat split.
  - by apply canonize_row_calls.
  - by apply compress_row_calls.
  - by apply canonize_column_calls.
  - by apply compress_column_calls.
Qed.

Lemma sweeps_stay_in_their_range_witness :
  calls_only (TN := list call) (confined (default_lattice 4 4) (rect (2, 2) (1, 3)))
             (canonize_row (Engine0 := recorder) (default_lattice 4 4) 2
                "right" (Some (1, 3)) ∅)
  ∧ calls_only (TN := list call) (confined (default_lattice 4 4) (rect (2, 2) (1, 3)))
               (compress_row (Engine0 := recorder) (default_lattice 4 4) 2
                  "right" (Some (1, 3)) ∅)
  ∧ calls_only (TN := list call) (confined (default_lattice 4 4) (rect (1, 3) (2, 2)))
               (canonize_column (Engine0 := recorder) (default_lattice 4 4) 2
                  "down" (Some (1, 3)) ∅)
  ∧ calls_only (TN := list call) (confined (default_lattice 4 4) (rect (1, 3) (2, 2)))
               (compress_column (Engine0 := recorder) (default_lattice 4 4) 2
                  "down" (Some (1, 3)) ∅).
Proof.
  apply (sweeps_stay_in_their_range (Engine0 := recorder)); by_decide.
Defined.

(** ** The directional absorptions, call by call *)

Lemma bind_singleton_fmap {A B} (f : A → B) (l : list A) :
  l ≫= (fun x => [f x]) = f <$> l.
Proof. induction l as [|x l IH]; [done|]. by rewrite bind_cons, fmap_cons, IH. Qed.

Lemma calls_of_calls (cs : list call) : calls_of (Call <$> cs) = cs.
Proof.
  induction cs as [|c cs IH]; [done|].
  change (calls_of (Call <$> c :: cs)) with (c :: calls_of (Call <$> cs)).
  by rewrite IH.
Qed.

Section Absorption.
Context {TN V : Type} `{!Engine TN V}.
Variable L : lattice.
Hypothesis HL : well_formed L.

Lemma site_tag_at (i j : Z) :
  site_tag L (SInt i) (SInt j) = Ok (tag_at L (i, j)).
Proof.
  unfold tag_at. simpl. by destruct (site_tag_ok L i j HL) as (t & ->).
Qed.

Lemma emits_absorb (coo1 coo2 : Z * Z) (layer_tag : scalar) :
  emits (TN := TN) [absorb_call layer_tag (tag_at L coo1) (tag_at L coo2)]
    (let+ tag1 := lift (site_tag L (SInt coo1.1) (SInt coo1.2)) in
     let+ tag2 := lift (site_tag L (SInt coo2.1) (SInt coo2.2)) in
     absorb_site tag1 tag2 layer_tag).
Proof.
  destruct coo1 as [i j], coo2 as [i' j'].
  eapply emits_lift; [apply site_tag_at|].
  eapply emits_lift; [apply site_tag_at|].
  destruct layer_tag; apply emits_engine.
Qed.

Lemma canonize_row_emits i sweep yr opts :
  sweep ∈ row_sweeps →
  emits (TN := TN) (canonize_row_script i sweep yr opts)
        (canonize_row L i sweep (Some yr) opts).
Proof.
  intros Hs%list_elem_of_In. destruct Hs as [<- | [<- | []]].
  - apply canonize_row_right.
  - apply canonize_row_left.
Qed.

Lemma compress_row_emits i sweep yr opts :
  sweep ∈ row_sweeps →
  emits (TN := TN) (compress_row_script i sweep yr opts)
        (compress_row L i sweep (Some yr) opts).
Proof.
  intros Hs%list_elem_of_In. destruct Hs as [<- | [<- | []]].
  - apply compress_row_right.
  - apply compress_row_left.
Qed.

Lemma canonize_column_emits j sweep xr opts :
  sweep ∈ column_sweeps →
  emits (TN := TN) (canonize_column_script j sweep xr opts)
        (canonize_column L j sweep (Some xr) opts).
Proof.
  intros Hs%list_elem_of_In. destruct Hs as [<- | [<- | []]].
  - apply canonize_column_up.
  - apply canonize_column_down.
Qed.

Lemma compress_column_emits j sweep xr opts :
  sweep ∈ column_sweeps →
  emits (TN := TN) (compress_column_script j sweep xr opts)
        (compress_column L j sweep (Some xr) opts).
Proof.
  intros Hs%list_elem_of_In. destruct Hs as [<- | [<- | []]].
  - apply compress_column_up.
  - apply compress_column_down.
Qed.

Lemma opposite_sweep_ok (d : side) (sweep : string) :
  sweep ∈ valid_sweeps d →
  ∃ o, o ∈ valid_sweeps d
       ∧ getitem (match d with
                  | From_bottom | From_top => opposite_row_sweep
                  | From_left | From_right => opposite_column_sweep
                  end) sweep = Ok o.
Proof.
  intros Hs.
  destruct d; simpl in *;
    first [ destruct (opposite_row_sweep_ok sweep Hs) as (o & Ho & Hin)
          | destruct (opposite_column_sweep_ok sweep Hs) as (o & Ho & Hin) ];
    by exists o.
Qed.

Lemma absorb_single_script (d : side) (lines across : Z * Z)
    (canonize : bool) (sweep : string) (layer_tag : scalar)
    (opts : kwargs) :
  sweep ∈ valid_sweeps d → passes (sweep_keywords d) opts →
  ∃ opposite,
    emits (TN := TN)
      (lines_of d lines
         ≫= line_script L d across canonize sweep opposite layer_tag opts)
      (absorb_single L d lines across canonize sweep layer_tag opts).
Proof.
  intros Hs Hopts. destruct (opposite_sweep_ok d sweep Hs) as (o & Ho & Eo).
  exists o. unfold absorb_single, line_script.
  destruct d; simpl in *;
    (eapply emits_lift; [exact Eo|]);
    apply emits_for; intros line _;
    (apply emits_bind;
       [rewrite <- bind_singleton_fmap; apply emits_for; intros k _;
        apply (emits_absorb (_, _) (_, _))|]);
    (apply emits_bind;
       [destruct canonize;
        [first [by apply canonize_row_emits | by apply canonize_column_emits]
        |apply emits_ret]|]);
    (eapply emits_lift; [by apply check_keywords_ok|]);
    first [by apply compress_row_emits | by apply compress_column_emits].
Qed.

End Absorption.

Lemma only_bind {A} (k : kind) (f : A → list call) (l : list A) :
  only k (l ≫= f) = l ≫= (fun x => only k (f x)).
Proof.
  unfold only. induction l as [|x l IH]; [done|].
  by rewrite !bind_cons, filter_app, IH.
Qed.

Lemma only_app (k : kind) (cs1 cs2 : list call) :
  only k (cs1 ++ cs2) = only k cs1 ++ only k cs2.
Proof. apply filter_app. Qed.

Lemma only_fmap {A} (k k' : kind) (f : A → call) (l : list A) :
  (∀ x, kind_of (f x) = k') →
  only k (f <$> l) = if decide (k' = k) then f <$> l else [].
Proof.
  intros Hf. unfold only. induction l as [|x l IH].
  - by destruct (decide (k' = k)).
  - rewrite fmap_cons, filter_cons, IH, Hf. by destruct (decide (k' = k)).
Qed.

Lemma only_scripts (k : kind) (line : Z) (sweep : string) (r : Z * Z)
    (opts : kwargs) :
  only k (canonize_row_script line sweep r opts)
  = (if decide (Canonizing = k)
     then canonize_row_script line sweep r opts else [])
  ∧ only k (canonize_column_script line sweep r opts)
    = (if decide (Canonizing = k)
       then canonize_column_script line sweep r opts else [])
  ∧ only k (compress_row_script line sweep r opts)
    = (if decide (Compressing = k)
       then compress_row_script line sweep r opts else [])
  ∧ only k (compress_column_script line sweep r opts)
    = (if decide (Compressing = k)
       then compress_column_script line sweep r opts else []).
Proof.
  unfold canonize_row_script, canonize_column_script, compress_row_script,
    compress_column_script.
  repeat split; case_bool_decide; by apply only_fmap.
Qed.

Lemma length_scripts (line : Z) (sweep : string) (r : Z * Z) (opts : kwargs) :
  length (canonize_row_script line sweep r opts) = Z.to_nat (max2 r - min2 r)
  ∧ length (canonize_column_script line sweep r opts)
    = Z.to_nat (max2 r - min2 r)
  ∧ length (compress_row_script line sweep r opts)
    = Z.to_nat (max2 r - min2 r)
  ∧ length (compress_column_script line sweep r opts)
    = Z.to_nat (max2 r - min2 r).
Proof.
  unfold canonize_row_script, canonize_column_script, compress_row_script,
    compress_column_script.
  repeat split; case_bool_decide;
    by rewrite length_fmap, ?length_range, ?length_range_down.
Qed.

Lemma absorb_call_kind (lt : scalar) (t1 t2 : string) :
  kind_of (absorb_call lt t1 t2) = Contracting.
Proof. by destruct lt. Qed.

Lemma only_line_script (L : lattice) (k : kind) (d : side) (across : Z * Z)
    (canonize : bool) (sweep opposite : string) (lt : scalar)
    (opts : kwargs) (line : Z) :
  only k (line_script L d across canonize sweep opposite lt opts line)
  = match k with
    | Contracting =>
        (fun j => absorb_call lt (tag_at L (site_of d line j))
                              (tag_at L (site_of d (inward d line) j)))
          <$> range (min2 across) (max2 across + 1)
    | Canonizing =>
        if canonize
        then match d with
             | From_bottom | From_top =>
                 canonize_row_script line opposite across ∅
             | From_left | From_right =>
                 canonize_column_script line opposite across ∅
             end
        else []
    | Compressing =>
        match d with
        | From_bottom | From_top => compress_row_script line sweep across opts
        | From_left | From_right =>
            compress_column_script line sweep across opts
        end
    | _ => []
    end.
Proof.
  unfold line_script. rewrite !only_app.
  rewrite (only_fmap k Contracting) by (intros j; apply absorb_call_kind).
  destruct (only_scripts k line opposite across ∅) as (Ha & Hb & _ & _).
  destruct (only_scripts k line sweep across opts) as (_ & _ & Hc & Hd).
  assert (Hnil : only k [] = []) by done.
  destruct k, d, canonize; rewrite ?Ha, ?Hb, ?Hc, ?Hd, ?Hnil; simpl;
    by rewrite ?app_nil_r.
Qed.

Lemma length_lines_of (d : side) (lines : Z * Z) :
  length (lines_of d lines) = Z.to_nat (max2 lines - min2 lines).
Proof. destruct d; simpl; by rewrite ?length_range, ?length_range_down. Qed.

(** X16.  A single-layer absorption, with options that hold neither
    [layer_tag], which is an argument of its own, nor a keyword that it
    gives to the compression sweep itself, goes through the lines from the
    outside inwards and contracts every site of the line, in the order of
    the range across, into the site next to it on the inward line; these
    are all its contractions. *)
Theorem absorption_contracts_each_site_inward
    {TN V : Type} `{!Engine TN V} (L : lattice) (d : side)
    (lines across : Z * Z) (canonize : bool) (sweep : string)
    (layer_tag : scalar) (opts : kwargs) (st : netstate TN) :
  well_formed L → sweep ∈ valid_sweeps d →
  passes ("layer_tag" :: sweep_keywords d) opts →
  only Contracting
       (calls_of (events_of (absorb_single L d lines across canonize sweep
                               layer_tag opts) st))
  = line ← lines_of d lines;
    k ← range (min2 across) (max2 across + 1);
    [absorb_call layer_tag (tag_at L (site_of d line k))
                 (tag_at L (site_of d (inward d line) k))].
Proof.
  intros HL Hs Hopts. unfold passes in Hopts.
  apply Forall_cons in Hopts as [_ Hopts].
  destruct (absorb_single_script L HL d lines across canonize sweep
              layer_tag opts Hs Hopts) as (o & Hscript).
  rewrite (emits_events _ _ _ Hscript), calls_of_calls, only_bind.
  apply list_bind_ext; [|done]. intros line.
  by rewrite only_line_script, bind_singleton_fmap.
Qed.

Lemma absorption_contracts_each_site_inward_witness :
  only Contracting
       (calls_of (events_of (absorb_single (Engine0 := recorder)
                               (default_lattice 3 3) From_top (2, 0) (0, 1)
                               true "right" SNone
                               {[ "max_bond" := SInt 8 ]}) fresh))
  = line ← lines_of From_top (2, 0);
    k ← range (min2 (0, 1)) (max2 (0, 1) + 1);
    [absorb_call SNone
       (tag_at (default_lattice 3 3) (site_of From_top line k))
       (tag_at (default_lattice 3 3)
          (site_of From_top (inward From_top line) k))].
Proof.
  apply (absorption_contracts_each_site_inward (Engine0 := recorder)
           (default_lattice 3 3) From_top);
    [repeat split; simpl; first [done | lia] | by_decide | by_decide].
Defined.

(** X17.  The cost of a single-layer absorption of [n] lines of [w + 1]
    sites, with options that hold neither [layer_tag], which is an
    argument of its own, nor a keyword that it gives to the compression
    sweep itself: [n * (w + 1)] contractions, [n * w] compressions,
    [n * w] canonizations if they are asked for, and no other call. *)
Theorem absorption_cost
    {TN V : Type} `{!Engine TN V} (L : lattice) (d : side)
    (lines across : Z * Z) (canonize : bool) (sweep : string)
    (layer_tag : scalar) (opts : kwargs) (st : netstate TN) :
  well_formed L → sweep ∈ valid_sweeps d →
  passes ("layer_tag" :: sweep_keywords d) opts →
  let n := Z.to_nat (max2 lines - min2 lines) in
  let w := Z.to_nat (max2 across - min2 across) in
  let calls := calls_of (events_of (absorb_single L d lines across canonize
                                      sweep layer_tag opts) st) in
  length (only Contracting calls) = (n * (w + 1))%nat
  ∧ length (only Compressing calls) = (n * w)%nat
  ∧ length (only Canonizing calls) = (if canonize then n * w else 0)%nat
  ∧ length calls = (n * (w + 1) + n * w + if canonize then n * w else 0)%nat.
Proof.
  intros HL Hs Hopts n w calls. unfold passes in Hopts.
  apply Forall_cons in Hopts as [_ Hopts].
  destruct (absorb_single_script L HL d lines across canonize sweep
              layer_tag opts Hs Hopts) as (o & Hscript).
  unfold calls. rewrite (emits_events _ _ _ Hscript), calls_of_calls.
  assert (Hw : length (range (min2 across) (max2 across + 1)) = (w + 1)%nat).
  { rewrite length_range. unfold w, min2, max2. lia. }
  destruct (length_scripts 0 o across ∅) as (La & Lb & _ & _).
  destruct (length_scripts 0 sweep across opts) as (_ & _ & Lc & Ld).
  assert (Hlen : ∀ (k : kind) (m : nat),
    (∀ line, length (only k (line_script L d across canonize sweep o
                               layer_tag opts line)) = m) →
    length (only k (lines_of d lines
                      ≫= line_script L d across canonize sweep o layer_tag opts))
    = (n * m)%nat).
  { intros k m Hm. rewrite only_bind.
    rewrite (length_bind_blocks _ m) by done. by rewrite length_lines_of. }
  assert (Hs1 : ∀ line s r os,
    length (canonize_row_script line s r os) = Z.to_nat (max2 r - min2 r))
    by (intros; apply length_scripts).
  assert (Hs2 : ∀ line s r os,
    length (canonize_column_script line s r os) = Z.to_nat (max2 r - min2 r))
    by (intros; apply length_scripts).
  assert (Hs3 : ∀ line s r os,
    length (compress_row_script line s r os) = Z.to_nat (max2 r - min2 r))
    by (intros; apply length_scripts).
  assert (Hs4 : ∀ line s r os,
    length (compress_column_script line s r os) = Z.to_nat (max2 r - min2 r))
    by (intros; apply length_scripts).
  repeat split.
  - apply Hlen. intros line. by rewrite only_line_script, length_fmap.
  - apply Hlen. intros line. rewrite only_line_script.
    destruct d; by rewrite ?Hs3, ?Hs4.
  - destruct canonize.
    + apply Hlen. intros line. rewrite only_line_script.
      destruct d; by rewrite ?Hs1, ?Hs2.
    + rewrite (Hlen Canonizing 0%nat); [lia|].
      intros line. by rewrite only_line_script.
  - rewrite (length_bind_blocks _
               ((w + 1) + (if canonize then w else 0) + w)%nat).
    + rewrite length_lines_of. fold n. destruct canonize; lia.
    + intros line. unfold line_script. rewrite !length_app, length_fmap, Hw.
      destruct d, canonize; simpl; rewrite ?Hs1, ?Hs2, ?Hs3, ?Hs4; fold w; lia.
Qed.

Lemma absorption_cost_witness :
  let n := Z.to_nat (max2 (0, 2) - min2 (0, 2)) in
  let w := Z.to_nat (max2 (0, 3) - min2 (0, 3)) in
  let calls := calls_of (events_of (absorb_single (Engine0 := recorder)
                                      (default_lattice 4 4) From_left (0, 2)
                                      (0, 3) true "up" SNone ∅) fresh) in
  length (only Contracting calls) = (n * (w + 1))%nat
  ∧ length (only Compressing calls) = (n * w)%nat
  ∧ length (only Canonizing calls) = (if true then n * w else 0)%nat
  ∧ length calls = (n * (w + 1) + n * w + if true then n * w else 0)%nat.
Proof.
  apply (absorption_cost (Engine0 := recorder) (default_lattice 4 4)
           From_left);
    [repeat split; simpl; first [done | lia] | by_decide | by_decide].
Defined.

(** ** Errors and empty ranges of the directional absorptions *)

Lemma opposite_row_sweep_missing (sweep : string) :
  sweep ∉ row_sweeps → getitem opposite_row_sweep sweep = Raise KeyError.
Proof.
  intros Hs. unfold getitem, opposite_row_sweep.
  rewrite lookup_insert_ne by (intros <-; apply Hs; by_decide).
  by rewrite lookup_singleton_ne by (intros <-; apply Hs; by_decide).
Qed.

Lemma opposite_column_sweep_missing (sweep : string) :
  sweep ∉ column_sweeps → getitem opposite_column_sweep sweep = Raise KeyError.
Proof.
  intros Hs. unfold getitem, opposite_column_sweep.
  rewrite lookup_insert_ne by (intros <-; apply Hs; by_decide).
  by rewrite lookup_singleton_ne by (intros <-; apply Hs; by_decide).
Qed.

Lemma absorb_single_key_error {TN V : Type} `{!Engine TN V} (L : lattice)
    (d : side) (lines across : Z * Z) (canonize : bool) (sweep : string)
    (layer_tag : scalar) (opts : kwargs) (st : netstate TN) :
  sweep ∉ valid_sweeps d →
  absorb_single L d lines across canonize sweep layer_tag opts st
  = (Raise KeyError, st).
Proof.
  intros Hs. unfold absorb_single.
  destruct d; simpl in Hs;
    unfold _contract_boundary_from_bottom_single,
      _contract_boundary_from_top_single,
      _contract_boundary_from_left_single,
      _contract_boundary_from_right_single, bind, lift;
    by rewrite ?(opposite_row_sweep_missing _ Hs),
         ?(opposite_column_sweep_missing _ Hs).
Qed.

(** X18.  A compression sweep that the side does not know is a [KeyError] of
    the single-layer absorption, raised before the engine is asked for
    anything: the network is as it was. *)
Theorem unknown_compress_sweep_is_a_key_error
    {TN V : Type} `{!Engine TN V} (L : lattice) (d : side)
    (lines across : Z * Z) (canonize : bool) (sweep : string)
    (inplace : bool) (opts : kwargs) (st : netstate TN) :
  sweep ∉ valid_sweeps d →
  ∃ st',
    absorb_from L d lines across canonize sweep None inplace opts st
    = (Raise KeyError, st')
    ∧ net st' = net st
    ∧ calls_of (drop (length (trace st)) (trace st')) = [].
Proof.
  intros Hs.
  pose proof (fun st' => absorb_single_key_error L d lines across canonize
                           sweep (layer_tag_of opts) (without_layer_tag opts)
                           st' Hs) as Hk.
  unfold absorb_single in Hk. unfold absorb_from.
  destruct d, inplace; simpl in Hk |- *;
    unfold contract_boundary_from_bottom, contract_boundary_from_top,
      contract_boundary_from_left, contract_boundary_from_right,
      on_self_or_copy, bind, enter; simpl; rewrite Hk; simpl;
    eexists; (split; [done|]); (split; [done|]); cbn [trace];
    by rewrite ?drop_app_length, ?drop_all.
Qed.

Lemma unknown_compress_sweep_is_a_key_error_witness :
  ∃ st',
    absorb_from (Engine0 := recorder) (default_lattice 3 3) From_bottom
      (0, 1) (0, 2) true "up" None true ∅ fresh
    = (Raise KeyError, st')
    ∧ net st' = net fresh
    ∧ calls_of (drop (length (trace fresh)) (trace st')) = [].
Proof.
  apply (unknown_compress_sweep_is_a_key_error (Engine0 := recorder)).
  by_decide.
Defined.

Lemma for_cons {TN A} (x : A) (xs : list A) (body : A → M TN unit) :
  for_ (x :: xs) body = bind (body x) (fun _ => for_ xs body).
Proof. done. Qed.

Lemma bind_raises {TN A B} (m : M TN A) (k : A → M TN B)
    (st st' : netstate TN) e :
  m st = (Raise e, st') → bind m k st = (Raise e, st').
Proof. intros Hm. unfold bind. by rewrite Hm. Qed.

Lemma bind_returns {TN A B} (m : M TN A) (k : A → M TN B)
    (st st' : netstate TN) a :
  m st = (Ok a, st') → bind m k st = k a st'.
Proof. intros Hm. unfold bind. by rewrite Hm. Qed.

(** X19.  In a multi-layer absorption, with options that have no
    [layer_tag], the unknown compression sweep is met only after the sites
    of the first line have been fused: with [inplace=True] the [KeyError]
    leaves the network with that line fused. *)
Theorem key_error_comes_after_the_fusion
    {TN V : Type} `{!Engine TN V} (L : lattice) (d : side)
    (lines across : Z * Z) (canonize : bool) (sweep : string)
    (tag : string) (tags : list string) (opts : kwargs) (st : netstate TN)
    (line : Z) (rest : list Z) :
  sweep ∉ valid_sweeps d → opts !! "layer_tag" = None →
  lines_of d lines = line :: rest →
  ∃ st',
    absorb_from L d lines across canonize sweep (Some (tag :: tags)) true
      opts st
    = (Raise KeyError, st')
    ∧ net st'
      = foldl (fun n k => apply (Ixor (site_of d line k)) n) (net st)
              (range (min2 across) (max2 across + 1))
    ∧ calls_of (drop (length (trace st)) (trace st'))
      = (fun k => Ixor (site_of d line k))
          <$> range (min2 across) (max2 across + 1).
Proof.
  intros Hs Hopts Hlines.
  assert (Hc : check_keywords ["layer_tag"] opts = Ok tt).
  { apply check_keywords_ok. by repeat constructor. }
  pose proof (fun ls ac lt st' => absorb_single_key_error L d ls ac canonize
                           sweep lt opts st' Hs) as Hk.
  unfold absorb_single in Hk. unfold absorb_from.
  destruct d; simpl in Hk, Hlines |- *;
    unfold contract_boundary_from_bottom, contract_boundary_from_top,
      contract_boundary_from_left, contract_boundary_from_right,
      on_self_or_copy, _contract_boundary_from_bottom_multi,
      _contract_boundary_from_top_multi, _contract_boundary_from_left_multi,
      _contract_boundary_from_right_multi; simpl default;
    rewrite Hlines;
    (erewrite (bind_returns (enter _ _ _)); [|reflexivity]);
    rewrite for_cons;
    (erewrite bind_raises;
       [|erewrite bind_returns; [|apply for_engine];
         rewrite for_cons; apply bind_raises;
         (erewrite bind_returns; [|unfold lift; by rewrite Hc]);
         apply bind_raises, Hk]);
    (eexists; split; [reflexivity|]); simpl; (split; [done|]);
    rewrite <- app_assoc, drop_app_length; simpl;
    change (calls_of (?e :: ?l)) with (calls_of l);
    first [ by rewrite (list_fmap_compose (fun k => Ixor (line, k)) Call),
                 calls_of_calls
          | by rewrite (list_fmap_compose (fun k => Ixor (k, line)) Call),
                 calls_of_calls ].
Qed.

Lemma key_error_comes_after_the_fusion_witness :
  ∃ st',
    absorb_from (Engine0 := recorder) (default_lattice 3 3) From_right
      (2, 0) (0, 2) true "left" (Some ["KET"; "BRA"]%string) true ∅ fresh
    = (Raise KeyError, st')
    ∧ net st'
      = foldl (fun n k => @apply _ _ recorder (Ixor (site_of From_right 2 k)) n)
              (net fresh)
              (range (min2 (0, 2)) (max2 (0, 2) + 1))
    ∧ calls_of (drop (length (trace fresh)) (trace st'))
      = (fun k => Ixor (site_of From_right 2 k))
          <$> range (min2 (0, 2)) (max2 (0, 2) + 1).
Proof.
  apply (key_error_comes_after_the_fusion (Engine0 := recorder)
           (default_lattice 3 3) From_right (2, 0) (0, 2) true "left"
           "KET" ["BRA"%string] ∅ fresh 2 [1]);
    [by_decide | reflexivity | reflexivity].
Defined.

(** X20.  With a range of lines of one element there is no line to absorb:
    with a compression sweep that the side knows, an absorption in place
    returns the network as it is, without a call to the engine, with one
    layer or several. *)
Theorem absorbing_no_line_changes_nothing
    {TN V : Type} `{!Engine TN V} (L : lattice) (d : side)
    (a : Z) (across : Z * Z) (canonize : bool) (sweep : string)
    (layer_tags : option (list string)) (opts : kwargs) (st : netstate TN) :
  sweep ∈ valid_sweeps d →
  ∃ st',
    absorb_from L d (a, a) across canonize sweep layer_tags true opts st
    = (Ok st', st')
    ∧ net st' = net st
    ∧ calls_of (drop (length (trace st)) (trace st')) = [].
Proof.
  intros Hs. destruct (opposite_sweep_ok d sweep Hs) as (o & _ & Ho).
  unfold absorb_from.
  destruct d, layer_tags as [lts|]; simpl in Ho |- *;
    unfold contract_boundary_from_bottom, contract_boundary_from_top,
      contract_boundary_from_left, contract_boundary_from_right,
      on_self_or_copy, _contract_boundary_from_bottom_multi,
      _contract_boundary_from_top_multi, _contract_boundary_from_left_multi,
      _contract_boundary_from_right_multi,
      _contract_boundary_from_bottom_single,
      _contract_boundary_from_top_single,
      _contract_boundary_from_left_single,
      _contract_boundary_from_right_single; simpl default;
    rewrite ?min2_diag, ?max2_diag, ?range_empty, ?range_down_empty;
    unfold bind, enter, lift; rewrite ?Ho; simpl;
    (eexists; split; [reflexivity|]); simpl; (split; [done|]);
    by rewrite drop_app_length.
Qed.

Lemma absorbing_no_line_changes_nothing_witness :
  ∃ st',
    absorb_from (Engine0 := recorder) (default_lattice 3 3) From_left
      (1, 1) (0, 2) true "up" (Some ["KET"; "BRA"]%string) true ∅ fresh
    = (Ok st', st')
    ∧ net st' = net fresh
    ∧ calls_of (drop (length (trace fresh)) (trace st')) = [].
Proof.
  apply (absorbing_no_line_changes_nothing (Engine0 := recorder)). by_decide.
Defined.

(** ** Sweeps with unusual arguments *)

(** X21.  Two calls of [contract_boundary] that do nothing: an empty [around]
    is a [ValueError] of [min] before any step, and with an empty
    [sequence] the loop has nothing to go through, so that the network
    comes back untouched, also where a contraction is expected. *)
Theorem sweeps_that_do_nothing {TN V : Type} `{!Engine TN V}
    (L : lattice) (a : cb_args) (fuel : nat) (self : netstate TN) :
  (around a = Some [] →
   contract_boundary L a fuel self = Some (Raise ValueError, self))
  ∧ (sequence a = [] → around a ≠ Some [] → (0 < fuel)%nat →
     contract_boundary L a fuel self
     = Some (Ok (Network (working a self)), self)).
Proof.
  split.
  - intros Ha. unfold contract_boundary, stop_region. rewrite Ha. simpl.
    by destruct (inplace a).
  - intros Hs Ha Hf. unfold contract_boundary, stop_region, working.
    destruct (around a) as [[|coo coos]|]; [done| |];
      destruct fuel as [|fuel]; try lia; simpl;
      unfold iteration, bind; rewrite Hs; simpl;
      rewrite ?loop_exited; by destruct (inplace a).
Qed.

Lemma sweeps_that_do_nothing_witness :
  contract_boundary (Engine0 := recorder) (default_lattice 3 3)
    (args_around []) 5 fresh = Some (Raise ValueError, fresh)
  ∧ contract_boundary (Engine0 := recorder) (default_lattice 3 3)
      (args_sequence []) 5 fresh
    = Some (Ok (Network (working (Engine0 := recorder) (args_sequence []) fresh)),
            fresh).
Proof.
  split.
  - by apply (sweeps_that_do_nothing (Engine0 := recorder)
                (default_lattice 3 3) (args_around []) 5 fresh).
  - apply (sweeps_that_do_nothing (Engine0 := recorder)
             (default_lattice 3 3) (args_sequence []) 5 fresh);
      [done | done | lia].
Defined.

(** ** Sweeps without protected region stay between the first borders *)

Section Within.
Context {TN V : Type} `{!Engine TN V}.
Variable L : lattice.
Variable a : cb_args.
Hypothesis HL : well_formed L.
Hypothesis Hopts : forwardable (compress_opts a).
Hypothesis Hne : sequence a ≠ [].
Hypothesis Hseq : Forall (fun d => d ∈ directions) (sequence a).
Hypothesis Hs : 0 ≤ max_separation a.




End Within.



(** ** Sweeps around a region of several sites *)

(** X23.  [contract_boundary] around any region, with any non-empty sequence
    of valid directions, first borders that lie in the lattice and
    enclose the region, and keyword options that get through to the
    engine: the loop on the working network ends by its [break] and the
    network is returned; the border of every direction of the sequence
    ends next to the box around the region, or where it started if that
    is nearer; and nothing that has been asked of the engine addresses a
    site of the box, so that the whole rectangle spanned by [around] is
    untouched. *)
Theorem sweep_spares_the_box_around_the_region
    {TN V : Type} `{!Engine TN V} (L : lattice) (a : cb_args)
    (coos : list (Z * Z)) (box : stop_box) (self : netstate TN) :
  well_formed L → forwardable (compress_opts a) →
  distinct_site_tags L = true →
  around a = Some coos → stop_of coos = Ok box →
  sequence a ≠ [] → Forall (fun d => d ∈ directions) (sequence a) →
  borders_in_lattice L (initial L a) → encloses box (initial L a) →
  ∃ (n : nat) (fs : frontier) (tn' : netstate TN) (evs : list event),
    loop L a n (Some box) (Running (sequence a) (initial L a))
         (working a self)
    = (Ok (Exited Broke fs), tn')
    ∧ trace tn' = trace (working a self) ++ evs
    ∧ (∀ c target, Call c ∈ evs → in_box box target →
                   ¬ addresses L c target)
    ∧ ("b" ∈ sequence a →
       f_bottom fs = Z.max (f_bottom (initial L a)) (stop_i_min box - 1))
    ∧ ("t" ∈ sequence a →
       f_top fs = Z.min (f_top (initial L a)) (stop_i_max box + 1))
    ∧ ("l" ∈ sequence a →
       f_left fs = Z.max (f_left (initial L a)) (stop_j_min box - 1))
    ∧ ("r" ∈ sequence a →
       f_right fs = Z.min (f_right (initial L a)) (stop_j_max box + 1))
    ∧ ∀ fuel, (n ≤ fuel)%nat →
        contract_boundary L a fuel self
        = Some (Ok (Network tn'), if inplace a then tn' else self).
Proof.
  intros HL Hopts Hdist Ha Hbox Hne Hvalid Hin Henc.
  destruct (stop_of_ordered coos box Hbox) as (Hi & Hj).
  assert (Hstop : stop_region a = Ok (Some box)).
  { unfold stop_region. by rewrite Ha, Hbox. }
  destruct (guarded_sweep L a box (initial L a) HL Hopts Hvalid Hi Hj _
              (sequence a) (initial L a) (working a self)
              (guarded_initial L a box Henc)
              (all_reached_initial L a Hne)
              (le_n _) ltac:(done))
    as (n & fs & tn' & evs & E & Hg & Hall & T & F).
  exists n, fs, tn', evs. split; [done|]. split; [done|].
  destruct Hg as (Hkeys & Hset & _ & Bb & Bt & Bl & Br).
  assert (Hflag : ∀ d, d ∈ sequence a →
                       can_advance (Some box) d fs = false).
  { intros d Hd. apply Hset, all_reached_true; [done|]. by apply Hkeys. }
  split.
  { intros c target Hc Hbx. eapply Forall_forall in F; [|exact Hc].
    simpl in F. destruct Hin as (H1 & H2 & H3 & H4).
    destruct Henc as (E1 & E2 & E3 & E4).
    destruct target as [ti tj]. destruct Hbx as (Hx & Hy). simpl in Hx, Hy.
    eapply (confined_not_addresses L (outside box (initial L a)));
      [done| |..|exact F].
    - split; simpl; lia.
    - intros [x y] [[Hx' Hy'] Hout]. simpl in *.
      split; [split; simpl; lia|]. intros [= -> ->]. apply Hout. lia. }
  repeat split.
  - intros Hd. pose proof (Hflag _ Hd) as Fb. unfold can_advance in Fb.
    simpl in Fb. apply Z.ltb_ge in Fb. lia.
  - intros Hd. pose proof (Hflag _ Hd) as Fb. unfold can_advance in Fb.
    simpl in Fb. apply Z.ltb_ge in Fb. lia.
  - intros Hd. pose proof (Hflag _ Hd) as Fb. unfold can_advance in Fb.
    simpl in Fb. apply Z.ltb_ge in Fb. lia.
  - intros Hd. pose proof (Hflag _ Hd) as Fb. unfold can_advance in Fb.
    simpl in Fb. apply Z.ltb_ge in Fb. lia.
  - intros fuel Hle.
    by apply (contract_boundary_broke L a n fuel (Some box) Broke fs).
Qed.

Lemma sweep_spares_the_box_around_the_region_witness :
  ∃ (n : nat) (fs : frontier) (tn' : netstate (list call))
    (evs : list event),
    loop (Engine0 := recorder) (default_lattice 6 6)
      {| around := Some [(1, 1); (2, 3)]; layer_tags := None;
         max_separation := 1; sequence := ["b"; "t"]%string;
         bottom := None; top := None; left := None; right := None;
         inplace := true; canonize := None; compress_opts := ∅ |}
      n
      (Some {| stop_i_min := 1; stop_i_max := 2;
               stop_j_min := 1; stop_j_max := 3 |})
      (Running ["b"; "t"]%string
         {| f_bottom := 0; f_top := 6 - 1; f_left := 0; f_right := 6 - 1;
            reached_stop := {[ "b"%string := false; "t"%string := false ]} |})
      fresh
    = (Ok (Exited Broke fs), tn')
    ∧ trace tn'
    = trace (working (Engine0 := recorder)
               {| around := Some [(1, 1); (2, 3)]; layer_tags := None;
                  max_separation := 1; sequence := ["b"; "t"]%string;
                  bottom := None; top := None; left := None; right := None;
                  inplace := true; canonize := None; compress_opts := ∅ |}
               fresh) ++ evs
    ∧ (∀ c target, Call c ∈ evs →
         in_box {| stop_i_min := 1; stop_i_max := 2;
                   stop_j_min := 1; stop_j_max := 3 |} target →
         ¬ addresses (default_lattice 6 6) c target)
    ∧ ("b"%string ∈ ["b"; "t"]%string → f_bottom fs = Z.max 0 (1 - 1))
    ∧ ("t"%string ∈ ["b"; "t"]%string → f_top fs = Z.min (6 - 1) (2 + 1))
    ∧ ("l"%string ∈ ["b"; "t"]%string → f_left fs = Z.max 0 (1 - 1))
    ∧ ("r"%string ∈ ["b"; "t"]%string → f_right fs = Z.min (6 - 1) (3 + 1))
    ∧ ∀ fuel, (n ≤ fuel)%nat →
        contract_boundary (Engine0 := recorder) (default_lattice 6 6)
          {| around := Some [(1, 1); (2, 3)]; layer_tags := None;
             max_separation := 1; sequence := ["b"; "t"]%string;
             bottom := None; top := None; left := None; right := None;
             inplace := true; canonize := None; compress_opts := ∅ |}
          fuel fresh
        = Some (Ok (Network tn'), tn').
Proof.
  apply (sweep_spares_the_box_around_the_region (Engine0 := recorder)
           (default_lattice 6 6)
           {| around := Some [(1, 1); (2, 3)]; layer_tags := None;
              max_separation := 1; sequence := ["b"; "t"]%string;
              bottom := None; top := None; left := None; right := None;
              inplace := true; canonize := None; compress_opts := ∅ |}
           [(1, 1); (2, 3)]
           {| stop_i_min := 1; stop_i_max := 2;
              stop_j_min := 1; stop_j_max := 3 |} fresh).
  - repeat split; simpl; first [done | lia].
  - by_decide.
  - vm_compute. reflexivity.
  - reflexivity.
  - reflexivity.
  - discriminate.
  - by_decide.
  - unfold borders_in_lattice. simpl. lia.
  - unfold encloses. simpl. lia.
Defined.

(** ** The tensors of a PEPS, site by site *)

Section PepsSites.
Context {X : Type}.
Variable L : lattice.
Variables site_ind_id shape_ : string.
Variable tags : list string.

(** What a tensor that the body of the loop has made is made of. *)
Lemma site_tensor_inv (arrays : list (list (array X))) (i j : Z)
    (s s' : ix_state) (t : tensor X) :
  site_tensor L site_ind_id shape_ tags arrays (i, j) s = Ok (t, s') →
  ∃ x p st rt ct,
    array_at arrays i j = Ok x
    ∧ site_ind L site_ind_id (SInt i) (SInt j) = Ok p
    ∧ site_array L shape_ i j x = Ok (t_data t)
    ∧ t_inds t
      = (bond_inds (array_order_at L shape_ i j) (bond_pairs i j) ([], s)).1
        ++ [Name p]
    ∧ site_tag L (SInt i) (SInt j) = Ok st
    ∧ row_tag L (SInt i) = Ok rt
    ∧ col_tag L (SInt j) = Ok ct
    ∧ t_tags t = unique (tags ++ [st; rt; ct])
    ∧ consistent t.
Proof.
  unfold site_tensor.
  destruct (array_at arrays i j) as [x|] eqn:Hx; [|done].
  cbn [rbind].
  destruct (site_array L shape_ i j x) as [y|] eqn:Hy; [|done].
  cbn [rbind].
  destruct (site_ind L site_ind_id (SInt i) (SInt j)) as [p|] eqn:Hp; [|done].
  cbn [rbind].
  destruct (site_tag L (SInt i) (SInt j)) as [st|] eqn:Hst; [|done].
  cbn [rbind].
  destruct (row_tag L (SInt i)) as [rt|] eqn:Hrt; [|done].
  cbn [rbind].
  destruct (col_tag L (SInt j)) as [ct|] eqn:Hct; [|done].
  cbn [rbind].
  match goal with
  | |- context [Tensor ?d ?is_ ?ts] =>
      destruct (Tensor d is_ ts) as [t'|] eqn:Ht; [|done]
  end.
  cbn [rbind]. intros [= <- <-].
  apply Tensor_inv in Ht as (Hlen & ->). cbn [t_data t_inds t_tags].
  exists x, p, st, rt, ct. repeat split; try done.
Qed.

(** Where the array of the site, if there is one, has the axes of the
    site, whatever raises in the body of the loop is an [IndexError],
    once the lattice has rows and columns. *)
Lemma site_tensor_raises (arrays : list (list (array X))) (i j : Z)
    (s : ix_state) (e : exn) :
  0 < Lx L → 0 < Ly L →
  served (array_order_at L shape_ i j) →
  (∀ x, array_at arrays i j = Ok x → fits L shape_ i j x) →
  site_tensor L site_ind_id shape_ tags arrays (i, j) s = Raise e →
  e = IndexError.
Proof.
  intros HLx HLy Hserved Hfits. unfold site_tensor.
  destruct (array_at arrays i j) as [x|e'] eqn:Hx.
  2: { cbn [rbind]. intros [= <-]. unfold array_at in Hx.
       destruct (arrays !! Z.to_nat i) as [row|]; [|by simplify_eq].
       destruct (row !! Z.to_nat j); by simplify_eq. }
  cbn [rbind].
  destruct (site_array_fits L shape_ i j x Hserved (Hfits x eq_refl))
    as (y & Hy & Hlen).
  rewrite Hy. cbn [rbind].
  assert (Hw : ∀ (tpl : string) e',
    (let* wi := wrap (SInt i) (Lx L) in
     let* wj := wrap (SInt j) (Ly L) in
     format tpl [wi; wj]) = Raise e' → e' = IndexError).
  { intros tpl e'. unfold wrap, smod, mod_.
    destruct (decide (Lx L = 0)); [lia|]. destruct (decide (Ly L = 0)); [lia|].
    cbn [rbind]. apply format_raises. }
  destruct (site_ind L site_ind_id (SInt i) (SInt j)) as [p|e'] eqn:Hp.
  2: { cbn [rbind]. intros [= <-]. by apply (Hw site_ind_id). }
  cbn [rbind].
  destruct (site_tag L (SInt i) (SInt j)) as [st|e'] eqn:Hst.
  2: { cbn [rbind]. intros [= <-]. by apply (Hw (site_tag_id L)). }
  cbn [rbind].
  destruct (row_tag L (SInt i)) as [rt|e'] eqn:Hrt.
  2: { cbn [rbind]. intros [= <-]. unfold row_tag, wrap, smod, mod_ in Hrt.
       destruct (decide (Lx L = 0)); [lia|]. cbn [rbind] in Hrt.
       by apply format_raises in Hrt. }
  cbn [rbind].
  destruct (col_tag L (SInt j)) as [ct|e'] eqn:Hct.
  2: { cbn [rbind]. intros [= <-]. unfold col_tag, wrap, smod, mod_ in Hct.
       destruct (decide (Ly L = 0)); [lia|]. cbn [rbind] in Hct.
       by apply format_raises in Hct. }
  cbn [rbind].
  change (bond_ind (array_order_at L shape_ i j) "l" (i, j - 1, (i, j))
            (bond_ind (array_order_at L shape_ i j) "d" (i, j, (i - 1, j))
               (bond_ind (array_order_at L shape_ i j) "r" (i, j, (i, j + 1))
                  (bond_ind (array_order_at L shape_ i j) "u"
                     (i + 1, j, (i, j)) ([], s)))))
    with (bond_inds (array_order_at L shape_ i j) (bond_pairs i j) ([], s)).
  rewrite Tensor_ok; [done|].
  rewrite length_app, length_bond_inds, length_bond_pairs. simpl. lia.
Qed.

Lemma build_cons (arrays : list (list (array X))) (ij : Z * Z)
    (coos : list (Z * Z)) (s : ix_state) (done_ : list (tensor X)) :
  build L site_ind_id shape_ tags arrays (ij :: coos) s done_
  = let* ts := site_tensor L site_ind_id shape_ tags arrays ij s in
    build L site_ind_id shape_ tags arrays coos ts.2 (done_ ++ [ts.1]).
Proof. done. Qed.

(** The loop makes one tensor per site, in order: what holds of the
    tensor that [site_tensor] makes holds site by site of the result. *)
Lemma build_sites (arrays : list (list (array X)))
    (P : Z * Z → tensor X → Prop) (coos : list (Z * Z)) :
  (∀ coo s t s', coo ∈ coos →
     site_tensor L site_ind_id shape_ tags arrays coo s = Ok (t, s') →
     P coo t) →
  ∀ s done_ ts s',
    build L site_ind_id shape_ tags arrays coos s done_ = Ok (ts, s') →
    ∃ new, ts = done_ ++ new ∧ Forall2 P coos new.
Proof.
  induction coos as [|coo coos IH]; intros HP s done_ ts s' Hb.
  - simpl in Hb. simplify_eq. exists []. by rewrite app_nil_r.
  - rewrite build_cons in Hb.
    destruct (site_tensor L site_ind_id shape_ tags arrays coo s)
      as [[t s1]|] eqn:Ht; [|done].
    cbn [rbind fst snd] in Hb.
    assert (HP' : ∀ c s0 t0 s0', c ∈ coos →
      site_tensor L site_ind_id shape_ tags arrays c s0 = Ok (t0, s0') →
      P c t0).
    { intros c s0 t0 s0' Hc. apply HP. by right. }
    destruct (IH HP' _ _ _ _ Hb) as (new & -> & F).
    exists (t :: new). split; [by rewrite <- app_assoc|].
    constructor; [|done]. eapply HP; [by left|exact Ht].
Qed.

(** Two sequences of arrays with the same array at every site give the
    same tensors. *)
Lemma build_ext (arrays arrays' : list (list (array X)))
    (coos : list (Z * Z)) (s : ix_state) (done_ : list (tensor X)) :
  (∀ i j, (i, j) ∈ coos → array_at arrays i j = array_at arrays' i j) →
  build L site_ind_id shape_ tags arrays coos s done_
  = build L site_ind_id shape_ tags arrays' coos s done_.
Proof.
  revert s done_. induction coos as [|[i j] coos IH]; intros s done_ Hext;
    [done|].
  rewrite !build_cons.
  assert (Hsite : site_tensor L site_ind_id shape_ tags arrays (i, j) s
                  = site_tensor L site_ind_id shape_ tags arrays' (i, j) s).
  { unfold site_tensor. rewrite (Hext i j) by by left. done. }
  rewrite Hsite.
  destruct (site_tensor L site_ind_id shape_ tags arrays' (i, j) s)
    as [[t s1]|]; [|done].
  cbn [rbind]. apply IH. intros i' j' Hin. apply Hext. by right.
Qed.

(** A site without array stops the loop, where the arrays before it
    have the axes of their sites. *)
Lemma build_missing (arrays : list (list (array X))) (coos : list (Z * Z))
    (s : ix_state) (done_ : list (tensor X)) (i j : Z) :
  0 < Lx L → 0 < Ly L →
  (∀ i' j', (i', j') ∈ coos → served (array_order_at L shape_ i' j')) →
  (∀ i' j' x, (i', j') ∈ coos → array_at arrays i' j' = Ok x →
              fits L shape_ i' j' x) →
  (i, j) ∈ coos → array_at arrays i j = Raise IndexError →
  build L site_ind_id shape_ tags arrays coos s done_ = Raise IndexError.
Proof.
  intros HLx HLy Hserved Hfits Hin Hx. revert s done_.
  induction coos as [|coo coos IH]; intros s done_.
  - by apply elem_of_nil in Hin.
  - rewrite build_cons.
    destruct (site_tensor L site_ind_id shape_ tags arrays coo s)
      as [[t s1]|e'] eqn:Ht.
    + cbn [rbind]. apply elem_of_cons in Hin as [<- | Hin].
      * unfold site_tensor in Ht. by rewrite Hx in Ht.
      * apply IH; [| |done].
        -- intros i' j' Hc. apply Hserved. by right.
        -- intros i' j' x Hc. apply Hfits. by right.
    + cbn [rbind]. destruct coo as [i' j'].
      rewrite (site_tensor_raises _ _ _ _ _ HLx HLy
                 (Hserved i' j' ltac:(by left))
                 (fun x => Hfits i' j' x ltac:(by left)) Ht).
      done.
Qed.

End PepsSites.

Lemma PEPS_init_unfold {X : Type} (arrays : list (list (array X)))
    (shape_ : string) (tags : list string)
    (site_ind_id site_tag_id row_tag_id col_tag_id : string) (uuid0 : nat) :
  PEPS_init arrays shape_ tags site_ind_id site_tag_id row_tag_id col_tag_id
    uuid0
  = match arrays with
    | [] => Raise IndexError
    | _ :: _ =>
        let L := lattice_of arrays site_tag_id row_tag_id col_tag_id in
        let* r := build L site_ind_id shape_ (tags_to_utup tags) arrays
                        (gen_site_coos L)
                        {| ix := ∅; next_uuid := uuid0 |} [] in
        Ok ({| peps_lattice := L; site_ind_id := site_ind_id;
               tensors := r.1 |}, next_uuid r.2)
    end.
Proof. by destruct arrays. Qed.

(** X24.  [PEPS.__init__] reads the number of columns off the first row: an
    empty sequence of rows is an [IndexError]; a row shorter than the
    first is an [IndexError], where [shape] names the five axes, the
    arrays that are there have the axes of their sites and the specifiers
    are made of literal text and [{}] fields; and what a longer row has
    beyond the width of the first is ignored without a word. *)
Theorem constructor_takes_the_width_from_the_first_row {X : Type}
    (arrays : list (list (array X))) (shape_ : string) (tags : list string)
    (site_ind_id site_tag_id row_tag_id col_tag_id : string) (uuid0 : nat) :
  (arrays = [] →
   PEPS_init arrays shape_ tags site_ind_id site_tag_id row_tag_id
     col_tag_id uuid0 = Raise IndexError)
  ∧ (axes_order shape_ →
     (∀ i j x,
        in_lattice (lattice_of arrays site_tag_id row_tag_id col_tag_id)
                   (i, j) →
        array_at arrays i j = Ok x →
        fits (lattice_of arrays site_tag_id row_tag_id col_tag_id)
             shape_ i j x) →
     plain site_ind_id = true → plain site_tag_id = true →
     plain row_tag_id = true → plain col_tag_id = true →
     (∃ row, row ∈ arrays ∧ (length row < width arrays)%nat) →
     PEPS_init arrays shape_ tags site_ind_id site_tag_id row_tag_id
       col_tag_id uuid0 = Raise IndexError)
  ∧ PEPS_init (take (width arrays) <$> arrays) shape_ tags site_ind_id
      site_tag_id row_tag_id col_tag_id uuid0
    = PEPS_init arrays shape_ tags site_ind_id site_tag_id row_tag_id
        col_tag_id uuid0.
Proof.
  split; [by intros ->|]. split.
  - intros Hshape Hfits _ _ _ _ (row & Hrow & Hlen).
    rewrite PEPS_init_unfold. destruct arrays as [|r rest] eqn:Ha;
      [by apply elem_of_nil in Hrow|].
    rewrite <- Ha in *. cbv zeta.
    set (L := lattice_of arrays site_tag_id row_tag_id col_tag_id) in *.
    apply list_elem_of_lookup in Hrow as (k & Hk).
    assert (HLx : 0 < Lx L).
    { apply lookup_lt_Some in Hk. unfold L. simpl. lia. }
    assert (HLy : 0 < Ly L) by (unfold L, width in *; simpl; lia).
    rewrite (build_missing L _ _ _ arrays _ _ _ (Z.of_nat k)
               (Z.of_nat (length row)) HLx HLy); [done|..].
    + intros i j _. by apply axes_order_served.
    + intros i j x Hin%elem_of_gen_site_coos. by apply Hfits.
    + apply elem_of_gen_site_coos. apply lookup_lt_Some in Hk.
      unfold in_lattice, L, width in *. simpl. lia.
    + unfold array_at. rewrite !Nat2Z.id, Hk.
      by rewrite (lookup_ge_None_2 row).
  - destruct arrays as [|r rest]; [done|].
    change (width (r :: rest)) with (length r).
    rewrite fmap_cons, firstn_all. unfold PEPS_init. cbn [rbind].
    assert (Hlen : length (r :: (take (length r) <$> rest))
                   = length (r :: rest)) by (simpl; by rewrite length_fmap).
    rewrite Hlen.
    set (L := {| Lx := Z.of_nat (length (r :: rest));
                 Ly := Z.of_nat (length r);
                 site_tag_id := site_tag_id; row_tag_id := row_tag_id;
                 col_tag_id := col_tag_id |}).
    rewrite (build_ext L _ _ _ (r :: (take (length r) <$> rest)) (r :: rest));
      [done|].
    intros i j Hin%elem_of_gen_site_coos.
    destruct Hin as (Hi & Hj). simpl in Hi, Hj.
    unfold array_at. destruct (Z.to_nat i) as [|k] eqn:Hk; [done|]. simpl.
    rewrite list_lookup_fmap.
    destruct (rest !! k) as [row|]; [|done]. simpl.
    rewrite lookup_take_lt; [done|]. lia.
Qed.

Lemma constructor_takes_the_width_from_the_first_row_witness :
  PEPS_init
    [[zeros [2; 2; 2]%nat; zeros [2; 2; 2]%nat]; [zeros [2; 2; 2]%nat]]
    "urdlp" [] "k{},{}" "I{},{}" "ROW{}" "COL{}" 0 = Raise IndexError
  ∧ PEPS_init
      (take (width [[zeros [2]%nat]; [zeros [2]%nat; zeros [7]%nat]])
         <$> [[zeros [2]%nat]; [zeros [2]%nat; zeros [7]%nat]])
      "urdlp" [] "k{},{}" "I{},{}" "ROW{}" "COL{}" 0
    = PEPS_init [[zeros [2]%nat]; [zeros [2]%nat; zeros [7]%nat]]
        "urdlp" [] "k{},{}" "I{},{}" "ROW{}" "COL{}" 0.
Proof.
  split.
  - apply (proj1 (proj2 (constructor_takes_the_width_from_the_first_row
             [[zeros [2; 2; 2]%nat; zeros [2; 2; 2]%nat];
              [zeros [2; 2; 2]%nat]]
             "urdlp" [] "k{},{}" "I{},{}" "ROW{}" "COL{}" 0))).
    + unfold axes_order. reflexivity.
    + intros i j x [Hi Hj]. simpl in Hi, Hj.
      assert (Hij : (i = 0 ∨ i = 1) ∧ (j = 0 ∨ j = 1)) by lia.
      destruct Hij as [[-> | ->] [-> | ->]]; by intros [= <-].
    + reflexivity.
    + reflexivity.
    + reflexivity.
    + reflexivity.
    + exists [zeros [2; 2; 2]%nat]. split; [by right; left|].
      unfold width. simpl. lia.
  - apply (proj2 (proj2 (constructor_takes_the_width_from_the_first_row
                    [[zeros [2]%nat]; [zeros [2]%nat; zeros [7]%nat]]
                    "urdlp" [] "k{},{}" "I{},{}" "ROW{}" "COL{}" 0))).
Defined.

Lemma PEPS_init_pointwise {X : Type}
    (arrays : list (list (array X))) (shape_ : string) (tags : list string)
    (site_ind_id site_tag_id row_tag_id col_tag_id : string) (uuid0 n' : nat)
    (p : peps X) (P : Z * Z → tensor X → Prop) :
  PEPS_init arrays shape_ tags site_ind_id site_tag_id row_tag_id col_tag_id
    uuid0 = Ok (p, n') →
  (∀ coo s t s', coo ∈ gen_site_coos (peps_lattice p) →
     site_tensor (peps_lattice p) site_ind_id shape_ (tags_to_utup tags)
       arrays coo s
     = Ok (t, s') → P coo t) →
  peps_lattice p = lattice_of arrays site_tag_id row_tag_id col_tag_id
  ∧ Forall2 P (gen_site_coos (peps_lattice p)) (tensors p).
Proof.
  rewrite PEPS_init_unfold. destruct arrays as [|r rest] eqn:Ha; [done|].
  rewrite <- Ha. cbv zeta.
  set (L := lattice_of arrays site_tag_id row_tag_id col_tag_id).
  destruct (build L site_ind_id shape_ (tags_to_utup tags) arrays
              (gen_site_coos L)
              {| ix := ∅; next_uuid := uuid0 |} []) as [[ts s']|] eqn:Hb;
    [|done].
  cbn [rbind]. intros [= <- <-]. cbn [peps_lattice tensors fst]. intros HP.
  destruct (build_sites L site_ind_id shape_ _ arrays _ _ HP _ _ _ _ Hb)
    as (new & -> & F).
  split; [done|]. by rewrite app_nil_l.
Qed.

Lemma PEPS_init_sites {X : Type}
    (arrays : list (list (array X))) (shape_ : string) (tags : list string)
    (site_ind_id site_tag_id row_tag_id col_tag_id : string) (uuid0 n' : nat)
    (p : peps X) :
  PEPS_init arrays shape_ tags site_ind_id site_tag_id row_tag_id col_tag_id
    uuid0 = Ok (p, n') →
  peps_lattice p = lattice_of arrays site_tag_id row_tag_id col_tag_id
  ∧ length (tensors p) = (length arrays * width arrays)%nat
  ∧ Forall2 (fun coo t => site_tags_of (peps_lattice p) tags coo (t_tags t))
            (gen_site_coos (peps_lattice p)) (tensors p).
Proof.
  intros Hinit.
  destruct (PEPS_init_pointwise _ _ _ _ _ _ _ _ _ _
              (fun coo t => site_tags_of (peps_lattice p) tags coo (t_tags t))
              Hinit) as (HL & F).
  { intros [i j] s t s1 _ Ht.
    destruct (site_tensor_inv _ _ _ _ _ _ _ _ _ _ Ht)
      as (x & q & st & rt & ct & _ & _ & _ & _ & Hst & Hrt & Hct & Htags & _).
    exists st, rt, ct. repeat split; try done;
      rewrite Htags; unfold tags_to_utup; rewrite unique_unique_app;
      apply first_occurrences_unique. }
  split; [done|]. split; [|done].
  rewrite <- (Forall2_length _ _ _ F), length_gen_site_coos, HL.
  unfold lattice_of, width. simpl. by rewrite !Nat2Z.id.
Qed.

(** X25.  A PEPS that [PEPS.__init__] has made holds one tensor per site of
    the lattice it read off the arrays, in the order of the sites, and
    the tensor of a site carries the global tags and the tag of the site,
    of its row and of its column, each once, in this order: a tag that
    comes again stands where it came first. *)
Theorem constructor_makes_one_tensor_per_site {X : Type}
    (arrays : list (list (array X))) (shape_ : string) (tags : list string)
    (site_ind_id site_tag_id row_tag_id col_tag_id : string) (uuid0 n' : nat)
    (p : peps X) :
  PEPS_init arrays shape_ tags site_ind_id site_tag_id row_tag_id col_tag_id
    uuid0 = Ok (p, n') →
  peps_lattice p = lattice_of arrays site_tag_id row_tag_id col_tag_id
  ∧ length (tensors p) = (length arrays * width arrays)%nat
  ∧ Forall2 (fun coo t => site_tags_of (peps_lattice p) tags coo (t_tags t))
            (gen_site_coos (peps_lattice p)) (tensors p).
Proof.
  apply PEPS_init_sites.
Qed.

Lemma constructor_makes_one_tensor_per_site_witness :
  ∃ (p : peps Z) (n' : nat),
    PEPS_init (uniform 2 2 [2; 2; 2]%nat) "urdlp"
      ["KET"; "PEPS"; "KET"]%string "k{},{}" "I{},{}" "ROW{}" "COL{}" 0
    = Ok (p, n')
    ∧ peps_lattice p
      = lattice_of (uniform 2 2 [2; 2; 2]%nat) "I{},{}" "ROW{}" "COL{}"
    ∧ length (tensors p)
      = (length (uniform 2 2 [2; 2; 2]%nat)
         * width (uniform 2 2 [2; 2; 2]%nat))%nat
    ∧ Forall2 (fun coo t =>
                 site_tags_of (peps_lattice p) ["KET"; "PEPS"; "KET"]%string
                   coo (t_tags t))
              (gen_site_coos (peps_lattice p)) (tensors p).
Proof.
  destruct (PEPS_init (uniform 2 2 [2; 2; 2]%nat) "urdlp"
              ["KET"; "PEPS"; "KET"]%string
              "k{},{}" "I{},{}" "ROW{}" "COL{}" 0) as [[p n']|] eqn:E;
    [|by vm_compute in E].
  exists p, n'. split; [done|].
  exact (constructor_makes_one_tensor_per_site _ _ _ _ _ _ _ _ _ _ E).
Defined.

(** X26.  Where the site tags differ from each other and from the other tags,
    the site tag of a site is carried by the tensor of that site and by
    no other, so that a coordinate selects one tensor. *)
Theorem site_tag_selects_the_tensor_of_the_site {X : Type}
    (arrays : list (list (array X))) (shape_ : string) (tags : list string)
    (site_ind_id site_tag_id row_tag_id col_tag_id : string) (uuid0 n' : nat)
    (p : peps X) (i j : Z) (st : string) (k : nat) (t : tensor X) :
  PEPS_init arrays shape_ tags site_ind_id site_tag_id row_tag_id col_tag_id
    uuid0 = Ok (p, n') →
  distinct_site_tags (peps_lattice p) = true →
  site_tags_are_reserved (peps_lattice p) tags →
  in_lattice (peps_lattice p) (i, j) →
  site_tag (peps_lattice p) (SInt i) (SInt j) = Ok st →
  tensors p !! k = Some t →
  st ∈ t_tags t ↔ gen_site_coos (peps_lattice p) !! k = Some (i, j).
Proof.
  intros Hinit Hdist Hres Hin Hst Hk.
  destruct (PEPS_init_sites _ _ _ _ _ _ _ _ _ _ Hinit) as (_ & _ & F).
  destruct (Forall2_lookup_r _ _ _ _ _ F Hk) as ([i' j'] & Hcoo & Htags).
  destruct Htags as (st' & rt & ct & Hst' & Hrt & Hct & _ & Hmem & _).
  simpl in Hst', Hrt, Hct.
  destruct (Hres i j i' st Hst) as (Hg & Hr & _).
  destruct (Hres i j j' st Hst) as (_ & _ & Hc).
  assert (Hin' : in_lattice (peps_lattice p) (i', j')).
  { apply elem_of_gen_site_coos. by eapply list_elem_of_lookup_2. }
  rewrite Hmem, elem_of_app, !elem_of_cons, elem_of_nil.
  split.
  - intros [? | [-> | [-> | [-> | []]]]]; [done| |by rewrite Hrt in Hr
                                           |by rewrite Hct in Hc].
    rewrite Hcoo. f_equal. symmetry.
    by apply (site_tag_inj (peps_lattice p) (i, j) (i', j') st').
  - rewrite Hcoo. intros [= -> ->]. rewrite Hst in Hst'. simplify_eq.
    right. by left.
Qed.

Lemma default_site_tags_are_reserved (lx ly : Z) :
  site_tags_are_reserved (default_lattice lx ly) [].
Proof.
  intros i j k st Hst. unfold site_tag, default_lattice in Hst.
  cbn [Lx Ly site_tag_id] in Hst.
  apply wrapped_name_ok in Hst as (_ & _ & Hst).
  rewrite format_pair in Hst by done. injection Hst as <-.
  split; [apply not_elem_of_nil|].
  split.
  - unfold row_tag, wrap, smod, mod_. simpl.
    destruct (decide (lx = 0)); [done|]. simpl. done.
  - unfold col_tag, wrap, smod, mod_. simpl.
    destruct (decide (ly = 0)); [done|]. simpl. done.
Qed.

Lemma site_tag_selects_the_tensor_of_the_site_witness :
  ∃ (p : peps Z) (n' : nat) (t : tensor Z),
    PEPS_init (uniform 2 2 [2; 2; 2]%nat) "urdlp" [] "k{},{}" "I{},{}"
      "ROW{}" "COL{}" 0 = Ok (p, n')
    ∧ tensors p !! 3%nat = Some t
    ∧ ("I1,1"%string ∈ t_tags t
       ↔ gen_site_coos (peps_lattice p) !! 3%nat = Some (1, 1)).
Proof.
  destruct (PEPS_init (uniform 2 2 [2; 2; 2]%nat) "urdlp" [] "k{},{}"
              "I{},{}" "ROW{}" "COL{}" 0) as [[p n']|] eqn:E;
    [|by vm_compute in E].
  assert (HL : peps_lattice p = default_lattice 2 2).
  { vm_compute in E. by injection E as <- _. }
  destruct (tensors p !! 3%nat) as [t|] eqn:Ek.
  2: { vm_compute in E. injection E as <- _. by vm_compute in Ek. }
  exists p, n', t. split; [done|]. split; [done|].
  apply (site_tag_selects_the_tensor_of_the_site _ _ _ _ _ _ _ _ _ _
           1 1 "I1,1" 3 t E).
  - rewrite HL. apply default_names_distinct.
  - rewrite HL. apply default_site_tags_are_reserved.
  - rewrite HL. unfold in_lattice. simpl. lia.
  - rewrite HL. reflexivity.
  - done.
Defined.

(** ** Random PEPS *)

Section RandSpec.
Context {X G : Type}.
Variable seed_rand : Z → G → G.
Variable randn : list nat → G → array X * G.
Variable sensibly_scale : array X → array X.
Hypothesis Hrandn : ∀ dims g, shape (randn dims g).1 = dims.
Hypothesis Hscale : ∀ x, shape (sensibly_scale x) = shape x.
Variables lx ly : Z.
Variables bond_dim phys_dim : nat.



End RandSpec.




Section RandInit.
Context {X G : Type}.
Variable seed_rand : Z → G → G.
Variable randn : list nat → G → array X * G.
Variable sensibly_scale : array X → array X.
Hypothesis Hrandn : ∀ dims g, shape (randn dims g).1 = dims.
Hypothesis Hscale : ∀ x, shape (sensibly_scale x) = shape x.


End RandInit.



(** ** Renaming the site indices *)








(** ** The physical dimension of an operator *)

(** X29.  [phys_dim] of a 2D operator never gives a size: it calls
    [upper_ind] and [lower_ind] with the row only, which is a
    [TypeError] as soon as the tensor of the site has been found, and
    for any other [which] it returns [None]. *)
Theorem operator_phys_dim_never_answers {T : Type}
    (int_of_str : string → option Z) (L : lattice)
    (upper_ind_id lower_ind_id : string)
    (super_getitem : value → result T) (ind_size : T → string → result Z)
    (i j : scalar) (which : string) :
  (∀ n, Operator.phys_dim int_of_str L upper_ind_id lower_ind_id
          super_getitem ind_size i j which ≠ Ok (Some n))
  ∧ (∀ t, which = "upper"%string ∨ which = "lower"%string →
          __getitem__ int_of_str super_getitem L (VTuple [i; j]) = Ok t →
          Operator.phys_dim int_of_str L upper_ind_id lower_ind_id
            super_getitem ind_size i j which = Raise TypeError)
  ∧ (which ≠ "upper"%string → which ≠ "lower"%string →
     Operator.phys_dim int_of_str L upper_ind_id lower_ind_id
       super_getitem ind_size i j which = Ok None).
Proof.
  unfold Operator.phys_dim. repeat split.
  - intros n. repeat case_bool_decide; try done;
      by destruct (__getitem__ int_of_str super_getitem L (VTuple [i; j])).
  - intros t [-> | ->] Ht; simpl; by rewrite Ht.
  - intros H1 H2. by rewrite !bool_decide_eq_false_2.
Qed.

Lemma operator_phys_dim_never_answers_witness :
  Operator.phys_dim (fun _ => None) (default_lattice 2 2) "k{},{}" "b{},{}"
    (fun _ => Ok 0%nat) (fun _ _ => Ok 2) (SInt 0) (SInt 0) "upper"
  = Raise TypeError.
Proof.
  apply (proj1 (proj2 (operator_phys_dim_never_answers (fun _ => None)
                         (default_lattice 2 2) "k{},{}" "b{},{}"
                         (fun _ => Ok 0%nat) (fun _ _ => Ok 2)
                         (SInt 0) (SInt 0) "upper")) 0%nat);
    [by left | reflexivity].
Defined.

(** ** The order of the axes *)

(** X30.  The constructor stores the array of every site with its axes in
    the order up, right, down, left, physical, whatever order [shape]
    names: an array that has one axis per letter of the order at its
    site is stored with, for each of these letters in turn, the axis
    that the letter names. *)
Theorem constructor_orders_the_axes {X : Type}
    (arrays : list (list (array X))) (shape_ : string) (tags : list string)
    (site_ind_id site_tag_id row_tag_id col_tag_id : string) (uuid0 n' : nat)
    (p : peps X) :
  PEPS_init arrays shape_ tags site_ind_id site_tag_id row_tag_id col_tag_id
    uuid0 = Ok (p, n') →
  Forall2 (fun coo t =>
             ∃ x, array_at arrays coo.1 coo.2 = Ok x
                  ∧ (length (shape x)
                     = String.length
                         (array_order_at (peps_lattice p) shape_ coo.1 coo.2) →
                     shape (t_data t)
                     = axes_in_order
                         (array_order_at (peps_lattice p) shape_ coo.1 coo.2)
                         x))
          (gen_site_coos (peps_lattice p)) (tensors p).
Proof.
  intros Hinit. apply (PEPS_init_pointwise _ _ _ _ _ _ _ _ _ _ _ Hinit).
  intros [i j] s t s' _ Ht.
  destruct (site_tensor_inv _ _ _ _ _ _ _ _ _ _ Ht)
    as (x & q & st & rt & ct & Hx & _ & Hdata & _).
  exists x. split; [done|]. intros Hlen.
  by apply (site_array_shape _ _ i j x).
Qed.

Lemma constructor_orders_the_axes_witness :
  ∃ (p : peps Z) (n' : nat),
    PEPS_init (uniform 2 2 [2; 3; 4]%nat) "pldru" [] "k{},{}" "I{},{}"
      "ROW{}" "COL{}" 0 = Ok (p, n')
    ∧ Forall2 (fun coo t =>
               ∃ x, array_at (uniform 2 2 [2; 3; 4]%nat) coo.1 coo.2 = Ok x
                    ∧ (length (shape x)
                       = String.length
                           (array_order_at (peps_lattice p) "pldru" coo.1 coo.2) →
                       shape (t_data t)
                       = axes_in_order
                           (array_order_at (peps_lattice p) "pldru" coo.1 coo.2)
                           x))
            (gen_site_coos (peps_lattice p)) (tensors p)
    ∧ (shape ∘ t_data) <$> tensors p !! 0%nat = Some [4; 3; 2]%nat.
Proof.
  destruct (PEPS_init (uniform 2 2 [2; 3; 4]%nat) "pldru" [] "k{},{}"
              "I{},{}" "ROW{}" "COL{}" 0) as [[p n']|] eqn:E;
    [|by vm_compute in E].
  exists p, n'. split; [done|]. split.
  - exact (constructor_orders_the_axes _ _ _ _ _ _ _ _ _ _ E).
  - vm_compute in E. injection E as <- _. reflexivity.
Defined.
